(** * volvooncall-mqtt: the command/status reconciliation protocol

    A shallow embedding of the bridge between the Volvo On Call cloud API and
    MQTT: [lib/voc.js] (the cloud client with its service-invocation polling
    loop), [lib/car.js] (one vehicle's cached state and its refresh graph) and
    [app.js] (the fleet, the pollers and the MQTT command router).  Where the
    sources hold several revisions of a file the embedding follows the
    latest: the [VocCar] with [lock], [unlock], the heater methods and
    [isReady], and the application with four command topics and four pollers.

    Conventions of the embedding.
    - JavaScript values are the inductive [value]; truthiness, property access
      and [||] follow the language (property access on [undefined]/[null]
      throws a TypeError, modelled by [None]).
    - A promise chain is a computation [Async A] over a [World]: the cloud is
      an oracle answering the n-th HTTP request, every request and every timer
      wait is appended to the world's [trace], events emitted on the VOC
      emitter to [emitted].  A chain is run to completion, in the order it
      was started; logging ([console.log], [debug]) is not modelled.
    - A URL built by a template literal is kept as the [Endpoint] constructor
      applied to the interpolated values, so nothing is lost to string
      conversion.
    - Floating point is not modelled: a computed distance is the symbolic
      [GreatCircle] of its four coordinates.
    - An object used as a map ([self.cars], [chargeLocations]) is an [Obj.t]:
      its own properties in the order [Object.keys] lists them.
    - The application is embedded as it runs with [HASS_MQTT_DISCOVERY=false]:
      [hassMqttDiscovery] then returns at once, and the publications are those
      of the vehicle's state below [volvooncall/]. *)

From Stdlib Require Import ZArith QArith Ascii.
From stdpp Require Import base gmap strings list.

Local Open Scope Z_scope.

(** ** JavaScript values *)

Module Js.

#[local] Set Warnings "-register-all".

Inductive value : Type :=
| VUndefined
| VNull
| VBool (b : bool)
| VNum (q : Q)
| VStr (s : string)
| VArr (items : list value)
| VObj (fields : list (string * value)).

(** [!!v] is [negb (truthy v)]. Numbers coming from JSON are never NaN. *)
Definition truthy (v : value) : bool :=
  match v with
  | VUndefined | VNull => false
  | VBool b => b
  | VNum q => negb (Qeq_bool q 0)
  | VStr s => negb (String.eqb s "")
  | VArr _ | VObj _ => true
  end.

(** [a || b] *)
Definition or_else (a b : value) : value := if truthy a then a else b.

Fixpoint field (k : string) (fs : list (string * value)) : value :=
  match fs with
  | [] => VUndefined
  | (k', v) :: fs' => if String.eqb k' k then v else field k fs'
  end.

(** [v.k] / [v['k']] for a data property [k]: [None] is the TypeError thrown
    on [undefined] and [null]; primitives and arrays have no such property. *)
Definition prop (v : value) (k : string) : option value :=
  match v with
  | VUndefined | VNull => None
  | VObj fs => Some (field k fs)
  | _ => Some VUndefined
  end.

(** [v === 'lit'] *)
Definition is_str (v : value) (lit : string) : bool :=
  match v with
  | VStr s => String.eqb s lit
  | _ => false
  end.

(** [s.lastIndexOf(c)]: the index of the last occurrence, -1 when absent. *)
Fixpoint lastIndexOf_from (c : ascii) (s : string) (i acc : Z) : Z :=
  match s with
  | EmptyString => acc
  | String a s' => lastIndexOf_from c s' (i + 1) (if Ascii.eqb a c then i else acc)
  end.

Definition lastIndexOf (c : ascii) (s : string) : Z := lastIndexOf_from c s 0 (-1).

Fixpoint drop_chars (n : nat) (s : string) : string :=
  match n, s with
  | O, _ => s
  | S n', String _ s' => drop_chars n' s'
  | S _, EmptyString => EmptyString
  end.

(** [s.substring(start)]: a negative start counts as 0, one past the end
    gives the empty string. *)
Definition substring (start : Z) (s : string) : string :=
  drop_chars (Z.to_nat start) s.

(** [s.substring(s.lastIndexOf('/') + 1)] *)
Definition after_last_slash (s : string) : string :=
  substring (lastIndexOf "/" s + 1) s.

(** [s.split(c)] *)
Fixpoint split_acc (c : ascii) (s : string) (cur : string) : list string :=
  match s with
  | EmptyString => [cur]
  | String a s' =>
      if Ascii.eqb a c then cur :: split_acc c s' ""
      else split_acc c s' (cur +:+ String a "")
  end.

Definition split (c : ascii) (s : string) : list string := split_acc c s "".

Fixpoint has_char (c : ascii) (s : string) : bool :=
  match s with
  | EmptyString => false
  | String a s' => Ascii.eqb a c || has_char c s'
  end.

End Js.

Import Js.

(** ** Objects used as maps

    [{}] filled by [o[k] = v] and walked by [Object.keys(o)].  The own keys
    come out with the array indices first, in ascending numeric order, and
    then the other keys in the order they were created; assigning to an
    existing key keeps its place.  The key [__proto__] names the prototype:
    assigning it creates no own property. *)
Module Obj.

Definition digit (a : ascii) : option N :=
  let n := N_of_ascii a in
  if (48 <=? n)%N && (n <=? 57)%N then Some (n - 48)%N else None.

Fixpoint decimal (s : string) (acc : N) : option N :=
  match s with
  | EmptyString => Some acc
  | String a s' => d ← digit a; decimal s' (10 * acc + d)%N
  end.

(** An array index: the canonical decimal of an integer below [2^32 - 1]. *)
Definition array_index (k : string) : option N :=
  match k with
  | EmptyString => None
  | String a rest =>
      if Ascii.eqb a "0" && negb (String.eqb rest "") then None
      else n ← decimal k 0; if (n <? 4294967295)%N then Some n else None
  end.

(** The own properties, in the order of [Object.keys]. *)
Record t (A : Type) := make { entries : list (string * A) }.
Arguments make {A} entries.
Arguments entries {A} _.

Definition empty {A} : t A := make [].

#[global] Instance none {A} : Empty (t A) := empty.

Fixpoint find {A} (k : string) (l : list (string * A)) : option A :=
  match l with
  | [] => None
  | (k', v) :: rest => if String.eqb k' k then Some v else find k rest
  end.

(** [o[k]] for an own property; [None] is [undefined]. *)
Definition get {A} (k : string) (o : t A) : option A := find k (entries o).

#[global] Instance lookup {A} : Lookup string A (t A) := get.

(** [Object.keys(o)] *)
Definition keys {A} (o : t A) : list string := (entries o).*1.

Fixpoint overwrite {A} (k : string) (v : A) (l : list (string * A)) : list (string * A) :=
  match l with
  | [] => []
  | (k', v') :: rest =>
      if String.eqb k' k then (k', v) :: rest else (k', v') :: overwrite k v rest
  end.

(** A new array index goes in front of the first key that is no smaller
    index. *)
Fixpoint insert_index {A} (n : N) (k : string) (v : A) (l : list (string * A))
  : list (string * A) :=
  match l with
  | [] => [(k, v)]
  | (k', v') :: rest =>
      match array_index k' with
      | Some m => if (m <? n)%N then (k', v') :: insert_index n k v rest else (k, v) :: l
      | None => (k, v) :: l
      end
  end.

Definition create {A} (k : string) (v : A) (l : list (string * A)) : list (string * A) :=
  match array_index k with
  | Some n => insert_index n k v l
  | None => l ++ [(k, v)]
  end.

(** [o[k] = v] *)
Definition set {A} (k : string) (v : A) (o : t A) : t A :=
  if String.eqb k "__proto__" then o
  else match find k (entries o) with
       | Some _ => make (overwrite k v (entries o))
       | None => make (create k v (entries o))
       end.

End Obj.

(** ** The world a promise chain runs in *)

Inductive Method := GET | POST | PUT.

(** The path of a request below [apiEndpoint], as the constructor of its
    template literal. *)
Inductive Endpoint :=
| CustomerAccounts
    (* customeraccounts *)
| VehicleResource (vehicleId : string) (resource : string)
    (* vehicles/${vehicleId}/<resource> *)
| VehicleService (vehicleId : string) (serviceId : value)
    (* vehicles/${vehicleId}/services/${serviceId} *)
| VehicleChargeLocation (vehicleId : string) (chargeLocationId : value).
    (* vehicles/${vehicleId}/chargeLocations/${chargeLocationId} *)

Inductive Event :=
| Http (m : Method) (path : Endpoint) (json : value)
| Sleep (ms : Z).

(** What the HTTP client's promise settles with: the parsed body, or a
    rejection (transport error, timeout, HTTP error). *)
Inductive HttpReply :=
| HttpResolve (data : value)
| HttpReject (reason : string).

(** An entry of [VocCar.chargeLocations]. *)
Record ChargeLocation := mkChargeLocation {
  id : string;
  name : string;
  location : value
}.

(** The message of an MQTT publication, before [JSON.stringify]. *)
Inductive Payload :=
| Json (v : value)
| ChargeLocationJson (l : ChargeLocation).

Record World := mkWorld {
  cloud : nat -> HttpReply;           (* the reply to the n-th request *)
  requests : nat;                     (* requests issued so far *)
  trace : list Event;                 (* requests and timer waits, oldest first *)
  emitted : list (string * value);    (* events emitted on the VOC instance *)
  _serviceInvocationSuccess : bool;   (* VOC: self._serviceInvocationSuccess *)
  carEmitted : list (string * string);(* (vehicleId, event) emitted on a VocCar *)
  subscriptions : gset string;        (* the MQTT client's subscriptions *)
  published : list (string * Payload) (* retained MQTT publications *)
}.

Definition set_trace (f : list Event -> list Event) (w : World) : World :=
  mkWorld (cloud w) (requests w) (f (trace w)) (emitted w) (_serviceInvocationSuccess w)
          (carEmitted w) (subscriptions w) (published w).
Definition set_requests (n : nat) (w : World) : World :=
  mkWorld (cloud w) n (trace w) (emitted w) (_serviceInvocationSuccess w)
          (carEmitted w) (subscriptions w) (published w).
Definition set_emitted (f : list (string * value) -> list (string * value))
    (w : World) : World :=
  mkWorld (cloud w) (requests w) (trace w) (f (emitted w)) (_serviceInvocationSuccess w)
          (carEmitted w) (subscriptions w) (published w).
Definition set_success (b : bool) (w : World) : World :=
  mkWorld (cloud w) (requests w) (trace w) (emitted w) b
          (carEmitted w) (subscriptions w) (published w).
Definition set_carEmitted (f : list (string * string) -> list (string * string))
    (w : World) : World :=
  mkWorld (cloud w) (requests w) (trace w) (emitted w) (_serviceInvocationSuccess w)
          (f (carEmitted w)) (subscriptions w) (published w).
Definition set_subscriptions (f : gset string -> gset string) (w : World) : World :=
  mkWorld (cloud w) (requests w) (trace w) (emitted w) (_serviceInvocationSuccess w)
          (carEmitted w) (f (subscriptions w)) (published w).
Definition set_published (f : list (string * Payload) -> list (string * Payload))
    (w : World) : World :=
  mkWorld (cloud w) (requests w) (trace w) (emitted w) (_serviceInvocationSuccess w)
          (carEmitted w) (subscriptions w) (f (published w)).

Inductive Settled (A : Type) :=
| Resolved (a : A)
| Rejected (reason : string).
Arguments Resolved {A} a.
Arguments Rejected {A} reason.

Definition Async (A : Type) : Type := World -> Settled A * World.

Definition resolve {A} (a : A) : Async A := fun w => (Resolved a, w).
Definition reject {A} (reason : string) : Async A := fun w => (Rejected reason, w).

(** [p.then(k)] *)
Definition andThen {A B} (p : Async A) (k : A -> Async B) : Async B :=
  fun w => match p w with
           | (Resolved a, w') => k a w'
           | (Rejected r, w') => (Rejected r, w')
           end.

(** [p.catch(h)] *)
Definition catch {A} (p : Async A) (h : string -> Async A) : Async A :=
  fun w => match p w with
           | (Resolved a, w') => (Resolved a, w')
           | (Rejected r, w') => h r w'
           end.

Declare Scope async_scope.
Delimit Scope async_scope with async.
Notation "x <- p ;; k" := (andThen p (fun x => k))
  (at level 100, p at next level, right associativity) : async_scope.
Notation "p ;; k" := (andThen p (fun _ => k))
  (at level 100, right associativity) : async_scope.
Local Open Scope async_scope.

(** A state change that cannot fail. *)
Definition update (f : World -> World) : Async unit := fun w => (Resolved tt, f w).

(** A property read inside a [then] callback: the TypeError rejects the chain. *)
Definition read (v : value) (k : string) : Async value :=
  match prop v k with
  | Some x => resolve x
  | None => reject "TypeError"
  end.

(** [self.emit(name, arg)] on the VOC instance. *)
Definition emit (name : string) (arg : value) : Async unit :=
  update (set_emitted (fun l => l ++ [(name, arg)])).

(** One round trip of the HTTP client. *)
Definition http (m : Method) (path : Endpoint) (json : value) : Async value :=
  fun w =>
    let w' := set_requests (S (requests w)) (set_trace (fun t => t ++ [Http m path json]) w) in
    match cloud w (requests w) with
    | HttpResolve data => (Resolved data, w')
    | HttpReject reason => (Rejected reason, w')
    end.

(** [timeoutPromise(timeout)] *)
Definition timeoutPromise (timeout : Z) : Async unit :=
  update (set_trace (fun t => t ++ [Sleep timeout])).

(** ** lib/voc.js *)

Definition apiErrorEventName : string := "voc_api_error".
Definition refreshEventName : string := "car_action_status".

(** [getVOCCommand]: a GET carries no body. *)
Definition getVOCCommand (path : Endpoint) : Async value :=
  http GET path VUndefined.

(** [postVOCCommand] and [putVOCCommand]: [options.json] is [true] unless
    [data] is truthy. *)
Definition postVOCCommand (path : Endpoint) (data : value) : Async value :=
  http POST path (if truthy data then data else VBool true).

Definition putVOCCommand (path : Endpoint) (data : value) : Async value :=
  http PUT path (if truthy data then data else VBool true).

Definition getServiceInvocationStatus (vehicleId : string) (serviceId : value)
  : Async value :=
  data <- getVOCCommand (VehicleService vehicleId serviceId) ;;
  if negb (truthy data) then reject "getServiceInvocationStatus, api_error"
  else
    failureReason <- read data "failureReason" ;;
    (if negb (is_str (or_else failureReason (VStr "none")) "none")
     then emit apiErrorEventName data else resolve tt) ;;
    read data "status".

(** The body of [runFor]'s [while (!done && counter < 15)]; [fuel] bounds the
    unfolding and 15 is always enough ([runFor_loop_fuel]).  The loop returns
    the final [counter]. *)
Fixpoint runFor_loop (fuel : nat) (func : Async value) (interval : Z)
    (done : bool) (counter : Z) : Async Z :=
  if negb done && (counter <? 15) then
    match fuel with
    | O => reject "fuel"
    | S fuel' =>
        let counter := counter + 1 in
        timeoutPromise interval ;;
        response <- func ;;
        if is_str response "Successful" then
          update (set_success true) ;;
          runFor_loop fuel' func interval true counter
        else if is_str response "Failed" then
          runFor_loop fuel' func interval true counter
        else
          runFor_loop fuel' func interval done counter
    end
  else resolve counter.

(** [runFor]: the message guarded by [counter > 15] is a log line. *)
Definition runFor (func : Async value) (interval : Z) : Async unit :=
  counter <- runFor_loop 15 func interval false 0 ;;
  resolve tt.

Definition awaitSuccessfulServiceInvocation (vehicleId : string) (serviceId : value)
  : Async bool :=
  if negb (truthy serviceId) then reject "ServiceId is null!"
  else
    runFor (getServiceInvocationStatus vehicleId serviceId) 1000 ;;
    fun w => (Resolved (_serviceInvocationSuccess w), set_success false w).

(** The module-level request helpers of voc.js. *)
Module Api.

Definition startHeater (vehicleId : string) : Async value :=
  postVOCCommand (VehicleResource vehicleId "heater/start") (VObj []).
Definition stopHeater (vehicleId : string) : Async value :=
  postVOCCommand (VehicleResource vehicleId "heater/stop") VNull.
Definition startPreClimatization (vehicleId : string) : Async value :=
  postVOCCommand (VehicleResource vehicleId "preclimatization/start") (VObj []).
Definition stopPreClimatization (vehicleId : string) : Async value :=
  postVOCCommand (VehicleResource vehicleId "preclimatization/stop") VNull.
Definition lock (vehicleId : string) : Async value :=
  postVOCCommand (VehicleResource vehicleId "lock") (VObj []).
Definition unlock (vehicleId : string) : Async value :=
  postVOCCommand (VehicleResource vehicleId "unlock") VNull.
Definition delayCharging (vehicleId : string) (chargeLocationId payload : value)
  : Async value :=
  putVOCCommand (VehicleChargeLocation vehicleId chargeLocationId) payload.
Definition startCharging (vehicleId : string) : Async value :=
  postVOCCommand (VehicleResource vehicleId "rbm/overrideDelayCharging") VNull.
Definition refreshVehicleStatusFromCar (vehicleId : string) : Async value :=
  postVOCCommand (VehicleResource vehicleId "updatestatus") VNull.
Definition getVehicleStatusFromCloud (vehicleId : string) : Async value :=
  getVOCCommand (VehicleResource vehicleId "status").
Definition getVehicleChargeLocations (vehicleId : string) : Async value :=
  data <- getVOCCommand (VehicleResource vehicleId "chargeLocations?status=Accepted") ;;
  chargingLocations <- read data "chargingLocations" ;;
  resolve (or_else chargingLocations data).
Definition positionQuery : string :=
  "position?client_longitude=0.000000&client_precision=0.000000&client_latitude=0.000000".
Definition getVehiclePosition (vehicleId : string) : Async value :=
  data <- getVOCCommand (VehicleResource vehicleId positionQuery) ;;
  read data "position".
Definition getVehicleAttributes (vehicleId : string) : Async value :=
  getVOCCommand (VehicleResource vehicleId "attributes").

End Api.

(** The methods of [VOC.prototype]. *)
Module VOC.

(** [.catch(reason => { self.emit(apiErrorEventName, reason); return Promise.reject(reason); })] *)
Definition reportError {A} (p : Async A) : Async A :=
  catch p (fun reason => emit apiErrorEventName (VStr reason) ;; reject reason).

(** The chain every remote action but [delayCharging] is written with: submit,
    wait for the invocation named by [status.customerServiceId], announce. *)
Definition invoke (action : string) (vehicleId : string) (submit : Async value)
  : Async bool :=
  reportError (
    status <- submit ;;
    serviceId <- read status "customerServiceId" ;;
    reportError (
      result <- awaitSuccessfulServiceInvocation vehicleId serviceId ;;
      emit refreshEventName (VObj [("action", VStr action); ("result", VBool result)]) ;;
      resolve result)).

Definition refreshVehicleStatusFromCar (vehicleId : string) : Async bool :=
  reportError (
    status <- Api.refreshVehicleStatusFromCar vehicleId ;;
    serviceId <- read status "customerServiceId" ;;
    reportError (
      result <- awaitSuccessfulServiceInvocation vehicleId serviceId ;;
      emit "car_refreshed_status" (VBool result) ;;
      resolve result)).

Definition startHeater (vehicleId : string) : Async bool :=
  invoke "startHeater" vehicleId (Api.startHeater vehicleId).
Definition stopHeater (vehicleId : string) : Async bool :=
  invoke "stopHeater" vehicleId (Api.stopHeater vehicleId).
Definition startPreClimatization (vehicleId : string) : Async bool :=
  invoke "startPreClimatization" vehicleId (Api.startPreClimatization vehicleId).
Definition stopPreClimatization (vehicleId : string) : Async bool :=
  invoke "stopPreClimatization" vehicleId (Api.stopPreClimatization vehicleId).
Definition lock (vehicleId : string) : Async bool :=
  invoke "lock" vehicleId (Api.lock vehicleId).
Definition unlock (vehicleId : string) : Async bool :=
  invoke "unlock" vehicleId (Api.unlock vehicleId).
Definition startCharging (vehicleId : string) : Async bool :=
  invoke "startCharging" vehicleId (Api.startCharging vehicleId).

(** [delayCharging] resolves with the invocation's boolean, or with the
    cloud's [status] itself when it names no service. *)
Definition delayCharging (vehicleId : string) (chargeLocationId payload : value)
  : Async value :=
  reportError (
    status <- Api.delayCharging vehicleId chargeLocationId payload ;;
    service <- read status "service" ;;
    if truthy service then
      match service with
      | VStr s =>
          reportError (
            result <- awaitSuccessfulServiceInvocation vehicleId
                        (VStr (after_last_slash s)) ;;
            emit refreshEventName
              (VObj [("action", VStr "delayCharging"); ("result", VBool result)]) ;;
            resolve (VBool result))
      | _ => reject "TypeError"   (* no [lastIndexOf]/[substring] but on a string *)
      end
    else
      emit refreshEventName (VObj [("action", VStr "delayCharging"); ("result", status)]) ;;
      resolve status).

Definition getVehicleAttributes (vehicleId : string) : Async value :=
  reportError (
    vehicle <- Api.getVehicleAttributes vehicleId ;;
    emit "car_attributes_update" vehicle ;;
    resolve vehicle).

Definition getVehicleStatusFromCloud (vehicleId : string) : Async value :=
  reportError (
    vehicle <- Api.getVehicleStatusFromCloud vehicleId ;;
    emit "car_status_update" vehicle ;;
    resolve vehicle).

Definition getVehicleChargeLocations (vehicleId : string) : Async value :=
  reportError (
    locations <- Api.getVehicleChargeLocations vehicleId ;;
    emit "car_charge_locations" locations ;;
    resolve locations).

Definition getVehiclePosition (vehicleId : string) : Async value :=
  reportError (
    position <- Api.getVehiclePosition vehicleId ;;
    emit "car_position_update" position ;;
    resolve position).

End VOC.

(** ** lib/car.js

    The vehicle follows the latest revision of the file.  The earlier ones
    have no [lock], [unlock] or heater methods, start only the attributes
    fetch in the constructor, and write [delayCharging] with three
    parameters, followed by a refresh from the car. *)

(** The listeners the code registers on a vehicle, each for one event. *)
Inductive Callback :=
| OnAttributesUpdated       (* car.js registerListeners: 'attributes_updated' *)
| OnPositionUpdated         (* car.js registerListeners: 'position_updated' *)
| OnChargeLocationsUpdated  (* car.js registerListeners: 'charge_locations_updated' *)
| PublishAttributes         (* app.js listenForChanges: 'attributes_updated' *)
| PublishStatus             (* app.js listenForChanges: 'status_updated' *)
| PublishChargeLocations    (* app.js listenForChanges: 'charge_locations_updated' *)
| PublishPosition.          (* app.js listenForChanges: 'position_updated' *)

Definition event_of (cb : Callback) : string :=
  match cb with
  | OnAttributesUpdated | PublishAttributes => "attributes_updated"
  | OnPositionUpdated | PublishPosition => "position_updated"
  | OnChargeLocationsUpdated | PublishChargeLocations => "charge_locations_updated"
  | PublishStatus => "status_updated"
  end.

(** The value of [calculateDistance]: 0, or the spherical law of cosines at
    four coordinates, in kilometres. *)
Inductive Kilometres :=
| Zero
| GreatCircle (lat1 lon1 lat2 lon2 : value).

Record Distance := mkDistance {
  chargeLocationId : string;
  chargeLocationName : string;
  distanceToChargeLocation : Kilometres;
  currentPosition : value * value      (* latitude, longitude *)
}.

Record VocCar := mkVocCar {
  vehicleId : string;
  vehicleName : value;
  chargeLocations : Obj.t ChargeLocation;
  attributes : value;
  status : value;
  distances : list Distance;
  position : value;
  listeners : list Callback
}.

(** A method call that starts a promise chain on a vehicle. *)
Inductive Call :=
| GetVehicleAttributes
| GetVehicleChargeLocations
| GetVehiclePosition
| GetVehicleStatusFromCloud
| RefreshVehicleStatusFromCar
| StartCharging
| DelayCharging (args : list value)
| Lock
| Unlock
| StartHeater
| StopHeater
| StartPreclimatization
| StopPreclimatization.

(** How a piece of synchronous code ends. *)
Inductive Completion :=
| Normal
| Throws (error : string).

(** The i-th argument of a call, [undefined] when the caller passed fewer. *)
Definition argument (i : nat) (args : list value) : value := nth i args VUndefined.

(** The publishers of app.js that [listenForChanges] hangs on a vehicle's
    events ([hassMqttDiscovery], which three of them call next, returns at
    once with discovery off). *)
Module Publish.

Definition publish (topic : string) (message : Payload) (w : World) : World :=
  set_published (fun l => l ++ [(topic, message)]) w.

Definition publishAttributes (car : VocCar) : World -> World :=
  publish ("volvooncall/" +:+ vehicleId car +:+ "/attributes") (Json (attributes car)).

Definition publishStatus (car : VocCar) : World -> World :=
  publish ("volvooncall/" +:+ vehicleId car +:+ "/status") (Json (status car)).

Definition publishChargeLocations (car : VocCar) (w : World) : World :=
  foldl (fun w kv =>
           publish ("volvooncall/" +:+ vehicleId car +:+ "/charge_locations/" +:+ kv.1)
                   (ChargeLocationJson kv.2) w)
        w (Obj.entries (chargeLocations car)).

Definition publishPosition (car : VocCar) : World -> World :=
  publish ("volvooncall/" +:+ vehicleId car +:+ "/position") (Json (position car)).

End Publish.

Module Car.

Definition set_attributes (v : value) (car : VocCar) : VocCar :=
  mkVocCar (vehicleId car) (vehicleName car) (chargeLocations car) v (status car)
           (distances car) (position car) (listeners car).
Definition set_status (v : value) (car : VocCar) : VocCar :=
  mkVocCar (vehicleId car) (vehicleName car) (chargeLocations car) (attributes car) v
           (distances car) (position car) (listeners car).
Definition set_distances (d : list Distance) (car : VocCar) : VocCar :=
  mkVocCar (vehicleId car) (vehicleName car) (chargeLocations car) (attributes car)
           (status car) d (position car) (listeners car).
Definition set_position (v : value) (car : VocCar) : VocCar :=
  mkVocCar (vehicleId car) (vehicleName car) (chargeLocations car) (attributes car)
           (status car) (distances car) v (listeners car).
Definition set_listeners (l : list Callback) (car : VocCar) : VocCar :=
  mkVocCar (vehicleId car) (vehicleName car) (chargeLocations car) (attributes car)
           (status car) (distances car) (position car) l.

(** [car.on(event, callback)] *)
Definition on (cb : Callback) (car : VocCar) : VocCar :=
  set_listeners (listeners car ++ [cb]) car.

Definition registerListeners (car : VocCar) : VocCar :=
  on OnChargeLocationsUpdated (on OnPositionUpdated (on OnAttributesUpdated car)).

(** [new VocCar(vehicle, voc)]: the object as the constructor leaves it, and
    the calls the constructor makes on it, in order. *)
Definition create (id : string) (name : value) : VocCar :=
  registerListeners (mkVocCar id name Obj.empty (VObj []) (VObj []) [] (VObj []) []).

Definition constructed : list Call := [GetVehicleStatusFromCloud; GetVehicleAttributes].

(** [None] is the TypeError of reading a key of a missing [attributes]. *)
Definition isChargingSupported (car : VocCar) : option value :=
  v ← prop (attributes car) "highVoltageBatterySupported"; Some (or_else v (VBool false)).

Definition isPositionSupported (car : VocCar) : option value :=
  v ← prop (attributes car) "carLocatorSupported"; Some (or_else v (VBool false)).

Definition isRemoteHeaterSupported (car : VocCar) : option value :=
  v ← prop (attributes car) "remoteHeaterSupported"; Some (or_else v (VBool false)).

Definition isPreClimatizationSupported (car : VocCar) : option value :=
  v ← prop (attributes car) "preclimatizationSupported"; Some (or_else v (VBool false)).

Definition calculateDistance (lat1 lon1 lat2 lon2 : value) : Kilometres :=
  if negb (truthy lat1) || negb (truthy lon1) || negb (truthy lat2) || negb (truthy lon2)
  then Zero
  else GreatCircle lat1 lon1 lat2 lon2.

(** The entry [updateDistances] computes for one charge location; [None] when
    [loc.location.position] cannot be read. *)
Definition distanceTo (lat1 lon1 : value) (loc : ChargeLocation) : option Distance :=
  there ← prop (location loc) "position";
  lat2 ← prop there "latitude";
  lon2 ← prop there "longitude";
  Some (mkDistance (id loc) (name loc) (calculateDistance lat1 lon1 lat2 lon2) (lat1, lon1)).

(** [updateDistances]: the list is built aside, one entry for each key of
    [Object.keys(self.chargeLocations)] in turn, and assigned at the end, so
    a throw leaves the vehicle as it was. *)
Definition updateDistances (car : VocCar) (w : World) : Completion * VocCar * World :=
  match prop (position car) "latitude", prop (position car) "longitude" with
  | Some lat1, Some lon1 =>
      if negb (truthy lat1) || negb (truthy lon1) then (Normal, car, w)
      else
        match mapM (distanceTo lat1 lon1) (Obj.entries (chargeLocations car)).*2 with
        | Some ds =>
            (Normal, set_distances ds car,
             set_carEmitted (fun l => l ++ [(vehicleId car, "distances_updated")]) w)
        | None => (Throws "TypeError", car, w)
        end
  | _, _ => (Throws "TypeError", car, w)
  end.

(** What a run of car code leaves behind. *)
Record Ran := mkRan {
  completion : Completion;
  self : VocCar;
  world : World;
  started : list Call
}.

(** One listener, called with the vehicle. *)
Definition callback (cb : Callback) (car : VocCar) (w : World) : Ran :=
  match cb with
  | OnAttributesUpdated =>
      match isChargingSupported car, isPositionSupported car with
      | Some charging, Some locating =>
          mkRan Normal car w
            ((if truthy charging then [GetVehicleChargeLocations] else []) ++
             (if truthy locating then [GetVehiclePosition] else []))
      | _, _ => mkRan (Throws "TypeError") car w []
      end
  | OnPositionUpdated | OnChargeLocationsUpdated =>
      let '(c, car', w') := updateDistances car w in mkRan c car' w' []
  | PublishAttributes => mkRan Normal car (Publish.publishAttributes car w) []
  | PublishStatus => mkRan Normal car (Publish.publishStatus car w) []
  | PublishChargeLocations => mkRan Normal car (Publish.publishChargeLocations car w) []
  | PublishPosition => mkRan Normal car (Publish.publishPosition car w) []
  end.

Fixpoint callbacks (cbs : list Callback) (car : VocCar) (w : World) : Ran :=
  match cbs with
  | [] => mkRan Normal car w []
  | cb :: rest =>
      let r := callback cb car w in
      match completion r with
      | Normal =>
          let r' := callbacks rest (self r) (world r) in
          mkRan (completion r') (self r') (world r') (started r ++ started r')
      | Throws _ => r
      end
  end.

(** [self.emit(event, self)]: the listeners of the event, in the order they
    were registered, until one throws. *)
Definition emit (event : string) (car : VocCar) (w : World) : Ran :=
  callbacks (List.filter (fun cb => String.eqb (event_of cb) event) (listeners car)) car
            (set_carEmitted (fun l => l ++ [(vehicleId car, event)]) w).

(** [promise.then(car' => ...).catch(err => error(...))] around a callback
    that stores the result and emits: whatever happens, the chain ends
    quietly with the state reached. *)
Definition getVehicleAttributes (car : VocCar) (w : World) : Ran :=
  match VOC.getVehicleAttributes (vehicleId car) w with
  | (Resolved data, w1) =>
      let r := emit "attributes_updated" (set_attributes data car) w1 in
      mkRan Normal (self r) (world r) (started r)
  | (Rejected _, w1) => mkRan Normal car w1 []
  end.

Definition getVehicleStatusFromCloud (car : VocCar) (w : World) : Ran :=
  match VOC.getVehicleStatusFromCloud (vehicleId car) w with
  | (Resolved data, w1) =>
      let r := emit "status_updated" (set_status data car) w1 in
      mkRan Normal (self r) (world r) (started r)
  | (Rejected _, w1) => mkRan Normal car w1 []
  end.

Definition refreshVehicleStatusFromCar (car : VocCar) (w : World) : Ran :=
  match VOC.refreshVehicleStatusFromCar (vehicleId car) w with
  | (Resolved success, w1) =>
      if success then getVehicleStatusFromCloud car w1 else mkRan Normal car w1 []
  | (Rejected _, w1) => mkRan Normal car w1 []
  end.

Definition getVehiclePosition (car : VocCar) (w : World) : Ran :=
  match VOC.getVehiclePosition (vehicleId car) w with
  | (Resolved position, w1) =>
      let r := emit "position_updated" (set_position position car) w1 in
      mkRan Normal (self r) (world r) (started r)
  | (Rejected _, w1) => mkRan Normal car w1 []
  end.

(** A [then] callback that emits [event] and then refreshes the status from
    the car; a throwing listener ends the chain in the [catch]. *)
Definition thenRefreshFromCar (event : string) (car : VocCar) (w : World) : Ran :=
  let r := emit event car w in
  match completion r with
  | Normal =>
      let r' := refreshVehicleStatusFromCar (self r) (world r) in
      mkRan Normal (self r') (world r') (started r ++ started r')
  | Throws _ => mkRan Normal (self r) (world r) (started r)
  end.

Definition startCharging (car : VocCar) (w : World) : Ran :=
  match VOC.startCharging (vehicleId car) w with
  | (Resolved res, w1) => thenRefreshFromCar "start_charging_complete" car w1
  | (Rejected _, w1) => mkRan Normal car w1 []
  end.

(** A [then] callback that emits [event] and then reads the status from the
    cloud; a throwing listener ends the chain in the [catch]. *)
Definition thenGetStatusFromCloud (event : string) (car : VocCar) (w : World) : Ran :=
  let r := emit event car w in
  match completion r with
  | Normal =>
      let r' := getVehicleStatusFromCloud (self r) (world r) in
      mkRan Normal (self r') (world r') (started r ++ started r')
  | Throws _ => mkRan Normal (self r) (world r) (started r)
  end.

(** The payload [delayCharging(id, delayedCharging, startTime, stopTime)]
    writes. *)
Definition delayChargingPayload (delayedCharging startTime stopTime : value) : value :=
  VObj [("status", VStr "Accepted");
        ("delayCharging", VObj [("enabled", delayedCharging);
                                ("startTime", startTime);
                                ("stopTime", stopTime)])].

(** [delayCharging(id, delayedCharging, startTime, stopTime)], called with
    [args]: the four parameters are bound by position. *)
Definition delayCharging (args : list value) (car : VocCar) (w : World) : Ran :=
  let id := argument 0 args in
  let delayedCharging := argument 1 args in
  let startTime := argument 2 args in
  let stopTime := argument 3 args in
  match VOC.delayCharging (vehicleId car) id
          (delayChargingPayload delayedCharging startTime stopTime) w with
  | (Resolved res, w1) => thenGetStatusFromCloud "delay_charging_complete" car w1
  | (Rejected _, w1) => mkRan Normal car w1 []
  end.

Definition lock (car : VocCar) (w : World) : Ran :=
  match VOC.lock (vehicleId car) w with
  | (Resolved res, w1) => thenRefreshFromCar "lock_complete" car w1
  | (Rejected _, w1) => mkRan Normal car w1 []
  end.

Definition unlock (car : VocCar) (w : World) : Ran :=
  match VOC.unlock (vehicleId car) w with
  | (Resolved res, w1) => thenRefreshFromCar "unlock_complete" car w1
  | (Rejected _, w1) => mkRan Normal car w1 []
  end.

Definition startHeater (car : VocCar) (w : World) : Ran :=
  match VOC.startHeater (vehicleId car) w with
  | (Resolved res, w1) => thenRefreshFromCar "start_heater_complete" car w1
  | (Rejected _, w1) => mkRan Normal car w1 []
  end.

Definition stopHeater (car : VocCar) (w : World) : Ran :=
  match VOC.stopHeater (vehicleId car) w with
  | (Resolved res, w1) => thenRefreshFromCar "stop_heater_complete" car w1
  | (Rejected _, w1) => mkRan Normal car w1 []
  end.

Definition startPreclimatization (car : VocCar) (w : World) : Ran :=
  match VOC.startPreClimatization (vehicleId car) w with
  | (Resolved res, w1) => thenRefreshFromCar "start_preclimatization_complete" car w1
  | (Rejected _, w1) => mkRan Normal car w1 []
  end.

Definition stopPreclimatization (car : VocCar) (w : World) : Ran :=
  match VOC.stopPreClimatization (vehicleId car) w with
  | (Resolved res, w1) => thenRefreshFromCar "stop_preclimatization_complete" car w1
  | (Rejected _, w1) => mkRan Normal car w1 []
  end.

(** [car.removeEventListeners()], which app.js calls on a vehicle that left
    the account: no revision of [VocCar] defines a method of that name and
    [EventEmitter] has none, so the call is a TypeError. *)
Definition removeEventListeners (car : VocCar) : Completion := Throws "TypeError".

End Car.

(** ** app.js

    The application follows the later revision of the file (four command
    topics, four pollers).  Synchronous code is run as such and hands back
    the calls it started on vehicles; those chains run afterwards.  A vehicle
    is referred to by its place among the [objects] constructed so far. *)

(** An entry of the account's vehicle listing: [{name, data: {id}}]. *)
Record Vehicle := mkVehicle {
  vehicle_name : value;
  vehicle_id : string
}.

Record App := mkApp {
  cars : Obj.t nat;           (* self.cars: vehicle id -> the VocCar object *)
  objects : list VocCar;      (* every VocCar constructed so far, by reference *)
  haDiscovered : gset string;
  hassTopic : string          (* config.hassTopic *)
}.

Module App.

Definition set_cars (m : Obj.t nat) (app : App) : App :=
  mkApp m (objects app) (haDiscovered app) (hassTopic app).
Definition set_objects (l : list VocCar) (app : App) : App :=
  mkApp (cars app) l (haDiscovered app) (hassTopic app).
Definition set_haDiscovered (d : gset string) (app : App) : App :=
  mkApp (cars app) (objects app) d (hassTopic app).

(** What a run of application code leaves behind; [started] pairs a call
    with the object it was made on. *)
Record Ran := mkRan {
  completion : Completion;
  self : App;
  world : World;
  started : list (nat * Call)
}.

(** The command topics of a vehicle. *)
Definition actionTopics (vehicleId : string) : gset string :=
  {[ "volvooncall/" +:+ vehicleId +:+ "/startCharging";
     "volvooncall/" +:+ vehicleId +:+ "/delayCharging";
     "volvooncall/" +:+ vehicleId +:+ "/lock";
     "volvooncall/" +:+ vehicleId +:+ "/heater" ]}.

Definition topicsOf (ids : list string) : gset string :=
  ⋃ (actionTopics <$> ids).

(** [unsubscribeForActions(cars)] *)
Definition unsubscribeForActions (removed : list VocCar) (w : World) : World :=
  set_subscriptions (fun s => s ∖ topicsOf (vehicleId <$> removed)) w.

(** [subscribeForActions()] *)
Definition subscribeForActions (app : App) (w : World) : World :=
  set_subscriptions (fun s => s ∪ topicsOf (Obj.keys (cars app))) w.

(** The body of [listenForChanges] for one vehicle. *)
Definition listen (car : VocCar) : VocCar :=
  Car.on PublishPosition (Car.on PublishChargeLocations
    (Car.on PublishStatus (Car.on PublishAttributes car))).

Definition publishAll (car : VocCar) (w : World) : World :=
  Publish.publishPosition car (Publish.publishChargeLocations car
    (Publish.publishStatus car (Publish.publishAttributes car w))).

Definition listenForChanges (app : App) (w : World) : App * World :=
  foldl (fun aw kv =>
           match objects aw.1 !! kv.2 with
           | Some car =>
               (set_objects (<[kv.2 := listen car]> (objects aw.1)) aw.1,
                publishAll (listen car) aw.2)
           | None => aw
           end)
        (app, w) (Obj.entries (cars app)).

(** [republishVehicles()] *)
Definition republishVehicles (app : App) (w : World) : World :=
  foldl (fun w kv =>
           match objects app !! kv.2 with
           | Some car => publishAll car w
           | None => w
           end)
        w (Obj.entries (cars app)).

(** The loop of [updateVehicles]: a new [VocCar] for every listed vehicle,
    stored under its id; each constructor starts its calls. *)
Fixpoint construct (vehicles : list Vehicle) (cars : Obj.t nat)
    (objects : list VocCar) : Obj.t nat * list VocCar * list (nat * Call) :=
  match vehicles with
  | [] => (cars, objects, [])
  | vehicle :: rest =>
      let car := Car.create (vehicle_id vehicle) (vehicle_name vehicle) in
      let ref := length objects in
      let '(cars', objects', calls) :=
        construct rest (Obj.set (vehicle_id vehicle) ref cars) (objects ++ [car]) in
      (cars', objects', ((fun call => (ref, call)) <$> Car.constructed) ++ calls)
  end.

(** [Object.keys(self.cars).filter(x => !Object.keys(cars).includes(x))] *)
Definition removedCarIds (old new : Obj.t nat) : list string :=
  List.filter (fun x => negb (bool_decide (x ∈ Obj.keys new))) (Obj.keys old).

(** [removedCarIds.forEach(id => removedCars.push(self.cars[id]))], as
    references. *)
Definition removedCars (old new : Obj.t nat) : list nat :=
  omap (fun id => old !! id) (removedCarIds old new).

(** [removedCars.forEach(car => car.removeEventListeners())]: the first
    throw ends the loop. *)
Fixpoint release (removed : list nat) (app : App) : Completion :=
  match removed with
  | [] => Normal
  | ref :: rest =>
      match objects app !! ref with
      | None => Throws "TypeError"
      | Some car =>
          match Car.removeEventListeners car with
          | Normal => release rest app
          | Throws error => Throws error
          end
      end
  end.

(** The listener of 'vehicles_updated' set up in [registerEventListeners]. *)
Definition vehiclesUpdated (removed : list nat) (app : App) (w : World)
  : Completion * App * World :=
  match release removed app with
  | Throws error => (Throws error, app, w)
  | Normal =>
      let gone := omap (fun ref => objects app !! ref) removed in
      let w1 := unsubscribeForActions gone w in
      let w2 := subscribeForActions app w1 in
      let '(app', w') := listenForChanges app w2 in
      (Normal, app', w')
  end.

(** [updateVehicles(vehicles)]: [self.cars] is replaced before the event is
    emitted, and what its listener throws comes out of [updateVehicles]. *)
Definition updateVehicles (vehicles : list Vehicle) (app : App) (w : World) : Ran :=
  let '(cars', objects', calls) := construct vehicles Obj.empty (objects app) in
  let removed := removedCars (cars app) cars' in
  let app1 := set_cars cars' (set_objects objects' app) in
  let '(c, app2, w2) := vehiclesUpdated removed app1 w in
  mkRan c app2 w2 calls.

(** [mqttConnected()] up to the listing it requests. *)
Definition mqttConnected (app : App) (w : World) : World :=
  set_subscriptions (fun s => s ∪ {[hassTopic app]}) w.

(** One tick of the position poller of [startPollers]. *)
Fixpoint positionTick (ids : list (string * nat)) (app : App) : Completion * list (nat * Call) :=
  match ids with
  | [] => (Normal, [])
  | (_, ref) :: rest =>
      match objects app !! ref with
      | None => (Throws "TypeError", [])
      | Some car =>
          match Car.isPositionSupported car with
          | None => (Throws "TypeError", [])
          | Some supported =>
              let mine := if truthy supported then [(ref, GetVehiclePosition)] else [] in
              let '(c, calls) := positionTick rest app in
              (c, mine ++ calls)
          end
      end
  end.

Definition pollPositions (app : App) : Completion * list (nat * Call) :=
  positionTick (Obj.entries (cars app)) app.

Section Router.

(** [JSON.parse] is the runtime's: [None] is its SyntaxError. *)
Variable JSON_parse : string -> option value.

(** [self.cars[id].method(...)]: a TypeError when the id is not a key. *)
Definition callOn (id : string) (call : Call) (app : App) (w : World) : Ran :=
  match cars app !! id with
  | Some ref => mkRan Normal app w [(ref, call)]
  | None => mkRan (Throws "TypeError") app w []
  end.

Definition startCharging (id payload : string) (app : App) (w : World) : Ran :=
  callOn id StartCharging app w.

Definition delayCharging (id payload : string) (app : App) (w : World) : Ran :=
  match JSON_parse payload with
  | None => mkRan (Throws "SyntaxError") app w []
  | Some params =>
      match cars app !! id with
      | None => mkRan (Throws "TypeError") app w []
      | Some ref =>
          match prop params "chargeLocation", prop params "delayedCharging",
                prop params "startTime", prop params "stopTime" with
          | Some chargeLocation, Some delayedCharging, Some startTime, Some stopTime =>
              mkRan Normal app w
                [(ref, DelayCharging [chargeLocation; or_else delayedCharging (VBool true);
                                      startTime; stopTime])]
          | _, _, _, _ => mkRan (Throws "TypeError") app w []
          end
      end
  end.

Definition setLockState (id payload : string) (app : App) (w : World) : Ran :=
  if String.eqb payload "UNLOCK" then callOn id Unlock app w
  else if String.eqb payload "LOCK" then callOn id Lock app w
  else mkRan Normal app w [].

(** [if (isRemoteHeaterSupported()) heater() else if
    (isPreClimatizationSupported()) preclimatization()], each on
    [self.cars[id]]. *)
Definition heaterCall (id : string) (heater preclimatization : Call) (app : App) (w : World)
  : Ran :=
  match cars app !! id with
  | None => mkRan (Throws "TypeError") app w []
  | Some ref =>
      match objects app !! ref with
      | None => mkRan (Throws "TypeError") app w []
      | Some car =>
          match Car.isRemoteHeaterSupported car with
          | None => mkRan (Throws "TypeError") app w []
          | Some remoteHeater =>
              if truthy remoteHeater then mkRan Normal app w [(ref, heater)]
              else
                match Car.isPreClimatizationSupported car with
                | None => mkRan (Throws "TypeError") app w []
                | Some preclimatizer =>
                    if truthy preclimatizer then mkRan Normal app w [(ref, preclimatization)]
                    else mkRan Normal app w []
                end
          end
      end
  end.

Definition setHeaterState (id payload : string) (app : App) (w : World) : Ran :=
  if String.eqb payload "ON" then heaterCall id StartHeater StartPreclimatization app w
  else if String.eqb payload "OFF" then heaterCall id StopHeater StopPreclimatization app w
  else mkRan Normal app w [].

Definition handleMessage (topic payload : string) (app : App) (w : World) : Ran :=
  if String.eqb topic (hassTopic app) then
    mkRan Normal (set_haDiscovered ∅ app) (republishVehicles app w) []
  else
    match split "/" topic with
    | _ :: carId :: command :: _ =>
        if String.eqb command "startCharging" then startCharging carId payload app w
        else if String.eqb command "delayCharging" then delayCharging carId payload app w
        else if String.eqb command "lock" then setLockState carId payload app w
        else if String.eqb command "heater" then setHeaterState carId payload app w
        else mkRan Normal app w []
    | _ => mkRan Normal app w []
    end.

End Router.

End App.

(** ** Further code of lib/voc.js and lib/car.js *)

(** [login] and [VOC.prototype.login]. *)
Module Account.

Definition login : Async value := getVOCCommand CustomerAccounts.

Definition prototype_login : Async value :=
  catch (result <- login ;;
         errorLabel <- read result "errorLabel" ;;
         if truthy errorLabel then reject "invalid_user_password" else resolve result)
        (fun _ => reject "invalid_user_password").

End Account.

(** [updateChargeLocations] and [getVehicleChargeLocations] of the vehicle.
    They convert values to strings (template literals) and, on a reply that
    is no array, to numbers ([length > 0]); how a number prints and how a
    string reads as a number are the language's and are parameters here. *)
Module ChargeLocations.

Definition set_chargeLocations (m : Obj.t ChargeLocation) (car : VocCar) : VocCar :=
  mkVocCar (vehicleId car) (vehicleName car) m (attributes car) (status car)
           (distances car) (position car) (listeners car).

Section Coercions.

(** [String(n)] for a number [n]. *)
Variable Number_toString : Q -> string.

(** [Number(s)] for a string [s]; [None] is NaN. *)
Variable String_toNumber : string -> option Q.

(** [fields] has an own property [k]. *)
Definition has_key (k : string) (fields : list (string * value)) : bool :=
  existsb (fun kv => String.eqb kv.1 k) fields.

(** [`${v}`]; [None] is the TypeError of converting an object whose own
    [toString] is data and hides the inherited method. *)
Fixpoint to_string (v : value) : option string :=
  match v with
  | VUndefined => Some "undefined"
  | VNull => Some "null"
  | VBool b => Some (if b then "true" else "false")
  | VNum q => Some (Number_toString q)
  | VStr s => Some s
  | VArr items =>
      (fix join (l : list value) : option string :=
         match l with
         | [] => Some ""
         | x :: rest =>
             first ← match x with
                     | VUndefined | VNull => Some ""
                     | _ => to_string x
                     end;
             match rest with
             | [] => Some first
             | _ => others ← join rest; Some (first +:+ "," +:+ others)
             end
         end) items
  | VObj fields => if has_key "toString" fields then None else Some "[object Object]"
  end.

(** [v > 0]; [None] is the TypeError of the conversion. *)
Definition gt_zero (v : value) : option bool :=
  match v with
  | VUndefined | VNull => Some false
  | VBool b => Some b
  | VNum q => Some (negb (Qle_bool q 0))
  | VStr _ | VArr _ =>
      s ← to_string v;
      Some (match String_toNumber s with
            | Some q => negb (Qle_bool q 0)
            | None => false
            end)
  | VObj fields => if has_key "toString" fields then None else Some false
  end.

(** The display name of a cloud location; [None] is a TypeError. *)
Definition locationName (location : value) : option string :=
  name ← prop location "name";
  there ← prop location "position";
  street ← prop there "streetAddress";
  if negb (truthy name) then
    street ← to_string street;
    postalCode ← prop there "postalCode" ≫= to_string;
    city ← prop there "city" ≫= to_string;
    Some (street +:+ ", " +:+ postalCode +:+ " " +:+ city)
  else
    name ← to_string name;
    street ← to_string street;
    Some (name +:+ ", " +:+ street).

(** [location.chargeLocation.substring(location.chargeLocation.lastIndexOf('/') + 1)] *)
Definition locationId (location : value) : option string :=
  reference ← prop location "chargeLocation";
  match reference with
  | VStr s => Some (after_last_slash s)
  | _ => None
  end.

(** [chargeLocations[locationId] = entry] *)
Definition assign (locationId : string) (entry : ChargeLocation)
    (chargeLocations : Obj.t ChargeLocation) : Obj.t ChargeLocation :=
  Obj.set locationId entry chargeLocations.

(** The [forEach] of [updateChargeLocations]. *)
Fixpoint collect (locations : list value) (chargeLocations : Obj.t ChargeLocation)
  : option (Obj.t ChargeLocation) :=
  match locations with
  | [] => Some chargeLocations
  | location :: rest =>
      locationName ← locationName location;
      locationId ← locationId location;
      collect rest
        (assign locationId (mkChargeLocation locationId locationName location) chargeLocations)
  end.

(** [updateChargeLocations(locations)]: the map is built aside and assigned at
    the end.  A reply that is no array is skipped when its [length] is not
    above 0, and has no [forEach] otherwise. *)
Definition updateChargeLocations (locations : value) (car : VocCar) : Completion * VocCar :=
  match locations with
  | VUndefined | VNull | VBool _ | VNum _ => (Normal, set_chargeLocations Obj.empty car)
  | VArr items =>
      match collect items Obj.empty with
      | Some chargeLocations => (Normal, set_chargeLocations chargeLocations car)
      | None => (Throws "TypeError", car)
      end
  | VStr s =>
      if String.eqb s "" then (Normal, set_chargeLocations Obj.empty car)
      else (Throws "TypeError", car)
  | VObj fields =>
      match gt_zero (field "length" fields) with
      | Some false => (Normal, set_chargeLocations Obj.empty car)
      | _ => (Throws "TypeError", car)
      end
  end.

(** [getVehicleChargeLocations()]: the capability is read in the caller's
    turn (a missing [attributes] throws there); the rest is the chain. *)
Definition getVehicleChargeLocations (car : VocCar) (w : World) : Car.Ran :=
  match Car.isChargingSupported car with
  | None => Car.mkRan (Throws "TypeError") car w []
  | Some supported =>
      if negb (truthy supported) then Car.mkRan Normal car w []
      else
        match VOC.getVehicleChargeLocations (vehicleId car) w with
        | (Resolved locations, w1) =>
            match updateChargeLocations locations car with
            | (Normal, car1) =>
                let r := Car.emit "charge_locations_updated" car1 w1 in
                Car.mkRan Normal (Car.self r) (Car.world r) (Car.started r)
            | (Throws _, _) => Car.mkRan Normal car w1 []
            end
        | (Rejected _, w1) => Car.mkRan Normal car w1 []
        end
  end.

End Coercions.

End ChargeLocations.

(** * Vocabulary of the statements, and scenarios *)

(** What one poll resolves with, read off the cloud's reply. *)
Definition reply_status (r : HttpReply) : option value :=
  match r with
  | HttpResolve data => if truthy data then prop data "status" else None
  | HttpReject _ => None
  end.

(** A reply that keeps the loop going: a status that is neither terminal. *)
Definition pending (r : HttpReply) : bool :=
  match reply_status r with
  | Some st => negb (is_str st "Successful") && negb (is_str st "Failed")
  | None => false
  end.

(** [n] rounds of the loop as they show in the trace. *)
Fixpoint polls (vehicleId : string) (serviceId : value) (n : nat) : list Event :=
  match n with
  | O => []
  | S n' => Sleep 1000 :: Http GET (VehicleService vehicleId serviceId) VUndefined
              :: polls vehicleId serviceId n'
  end.

(** [w'] is [w] after [n] rounds: only the request counter, the trace and the
    VOC emitter's log have moved. *)
Record polled (vehicleId : string) (serviceId : value) (n : nat) (w w' : World) : Prop := {
  polled_cloud : cloud w' = cloud w;
  polled_requests : requests w' = (requests w + n)%nat;
  polled_trace : trace w' = trace w ++ polls vehicleId serviceId n;
  polled_success : _serviceInvocationSuccess w' = _serviceInvocationSuccess w;
  polled_carEmitted : carEmitted w' = carEmitted w;
  polled_subscriptions : subscriptions w' = subscriptions w;
  polled_published : published w' = published w
}.

(** The result and the final world of a wait. *)
Definition outcome (vid : string) (sid : value) (w : World) : Settled bool :=
  (awaitSuccessfulServiceInvocation vid sid w).1.
Definition after (vid : string) (sid : value) (w : World) : World :=
  (awaitSuccessfulServiceInvocation vid sid w).2.

(** A cloud that answers every request with the status [s]. *)
Definition always (s : string) : nat -> HttpReply :=
  fun _ => HttpResolve (VObj [("status", VStr s)]).

(** A cloud that answers [Pending], [Pending], then [last] for ever. *)
Definition pendingTwiceThen (last : string) : nat -> HttpReply :=
  fun n => match n with
           | 0%nat | 1%nat => HttpResolve (VObj [("status", VStr "Pending")])
           | _ => HttpResolve (VObj [("status", VStr last)])
           end.

(** A world in which nothing has happened yet. *)
Definition newWorld (cloud : nat -> HttpReply) : World :=
  mkWorld cloud 0 [] [] false [] ∅ [].

(** Non-overlapping invocations on the one VOC instance, one after another. *)
Fixpoint invocations (l : list (string * value)) (w : World) : list (Settled bool) * World :=
  match l with
  | [] => ([], w)
  | (vid, sid) :: rest =>
      let '(r, w1) := awaitSuccessfulServiceInvocation vid sid w in
      let '(rs, w2) := invocations rest w1 in
      (r :: rs, w2)
  end.

(** One successful wait, then one that times out. *)
Definition successThenSilence : nat -> HttpReply :=
  fun n => match n with
           | 0%nat => HttpResolve (VObj [("status", VStr "Successful")])
           | _ => HttpResolve (VObj [("status", VStr "Queued")])
           end.

(** The world after the one PUT of a delay-charging submission. *)
Definition submitted (vid : string) (loc payload : value) (w : World) : World :=
  set_requests (S (requests w))
    (set_trace (fun t => t ++ [Http PUT (VehicleChargeLocation vid loc)
                                 (if truthy payload then payload else VBool true)]) w).

(** A cloud whose first reply is [first] and which then reports ['Successful']. *)
Definition thenSuccessful (first : value) : nat -> HttpReply :=
  fun n => match n with
           | 0%nat => HttpResolve first
           | _ => HttpResolve (VObj [("status", VStr "Successful")])
           end.

(** A cloud position. *)
Definition at_ (latitude longitude : Q) : value :=
  VObj [("latitude", VNum latitude); ("longitude", VNum longitude)].

(** A charge location as [updateChargeLocations] stores it. *)
Definition chargeLocation (id name : string) (latitude longitude : Q) : ChargeLocation :=
  mkChargeLocation id name (VObj [("name", VStr name); ("position", at_ latitude longitude)]).

(** A vehicle with cached state and the constructor's listeners. *)
Definition cached (vehicleId : string) (attributes position : value)
    (chargeLocations : Obj.t ChargeLocation) (distances : list Distance) : VocCar :=
  Car.registerListeners
    (mkVocCar vehicleId (VStr "V60") chargeLocations attributes (VObj []) distances position []).

Definition stale : Distance :=
  mkDistance "1" "Home, Main St" Zero (VNum 0, VNum 0).

(** Two locations, the first created under a name, the second under an
    array index. *)
Definition twoLocations : Obj.t ChargeLocation :=
  Obj.set "2" (chargeLocation "2" "Work" 0 25)
    (Obj.set "home" (chargeLocation "home" "Home" 61 25) Obj.empty).

(** Listeners talk to MQTT and to the vehicle, never to the cloud. *)
Record quiet (w w' : World) : Prop := {
  quiet_cloud : cloud w' = cloud w;
  quiet_requests : requests w' = requests w;
  quiet_trace : trace w' = trace w;
  quiet_emitted : emitted w' = emitted w;
  quiet_success : _serviceInvocationSuccess w' = _serviceInvocationSuccess w
}.

(** A cloud that answers with the values of [replies] in turn, then with
    [rest] for ever. *)
Definition script (replies : list value) (rest : value) : nat -> HttpReply :=
  fun n => HttpResolve (nth n replies rest).

(** The replies to a delay-charging that the cloud accepts at once, and to
    the status request after it. *)
Definition acceptedThenStatus : nat -> HttpReply :=
  script [VObj [("status", VStr "Accepted")]] (VObj [("carLocked", VBool true)]).

(** The vehicle's remote actions other than [delayCharging], each with the
    cloud client's method it calls. *)
Definition actionsBesidesDelayCharging
  : list ((VocCar -> World -> Car.Ran) * (string -> Async bool)) :=
  [(Car.startCharging, VOC.startCharging);
   (Car.lock, VOC.lock);
   (Car.unlock, VOC.unlock);
   (Car.startHeater, VOC.startHeater);
   (Car.stopHeater, VOC.stopHeater);
   (Car.startPreclimatization, VOC.startPreClimatization);
   (Car.stopPreclimatization, VOC.stopPreClimatization)].

(** The application before the broker connection is up. *)
Definition initialApp : App := mkApp Obj.empty [] ∅ "homeassistant/status".

Definition listed (id : string) : Vehicle := mkVehicle (VStr "V60 / 2020") id.

(** The first listing finds the vehicles A and B. *)
Definition fleetAB : App.Ran :=
  App.updateVehicles [listed "A"; listed "B"] initialApp
    (App.mqttConnected initialApp (newWorld (always "x"))).

(** The next listing finds B and C. *)
Definition fleetBC : App.Ran :=
  App.updateVehicles [listed "B"; listed "C"] (App.self fleetAB) (App.world fleetAB).

(** The fleet with the one vehicle VIN1. *)
Definition garage : App.Ran :=
  App.updateVehicles [listed "VIN1"] initialApp
    (App.mqttConnected initialApp (newWorld (always "x"))).

(** The world after one more request has been sent. *)
Definition requested (m : Method) (path : Endpoint) (json : value) (w : World) : World :=
  set_requests (S (requests w)) (set_trace (fun t => t ++ [Http m path json]) w).

(** How a fetch of the vehicle ends when the cloud client rejects: the error
    is announced on the client and the vehicle is as it was. *)
Definition failedFetch (car : VocCar) (resource reason : string) (w : World) : Car.Ran :=
  Car.mkRan Normal car
    (set_emitted (fun l => l ++ [(apiErrorEventName, VStr reason)])
       (requested GET (VehicleResource (vehicleId car) resource) VUndefined w)) [].

(** The listeners of [car] for [event], in the order of their registration. *)
Definition listenersFor (event : string) (car : VocCar) : list Callback :=
  List.filter (fun cb => String.eqb (event_of cb) event) (listeners car).

(** What [republishVehicles] publishes for one vehicle, in order. *)
Definition facets (car : VocCar) : list (string * Payload) :=
  [("volvooncall/" +:+ vehicleId car +:+ "/attributes", Json (attributes car));
   ("volvooncall/" +:+ vehicleId car +:+ "/status", Json (status car))] ++
  ((fun kv => ("volvooncall/" +:+ vehicleId car +:+ "/charge_locations/" +:+ kv.1,
               ChargeLocationJson kv.2)) <$> Obj.entries (chargeLocations car)) ++
  [("volvooncall/" +:+ vehicleId car +:+ "/position", Json (position car))].

(** * Properties *)

(** ** Objects used as maps *)

Lemma obj_find_overwrite_eq {A} k (v : A) l :
  is_Some (Obj.find k l) -> Obj.find k (Obj.overwrite k v l) = Some v.
Proof.
  induction l as [|[k' v'] l IH]; simpl; [by intros []|].
  destruct (String.eqb k' k) eqn:Hk; simpl; rewrite Hk; [done|]. exact IH.
Qed.

Lemma obj_find_overwrite_ne {A} k k' (v : A) l :
  k <> k' -> Obj.find k' (Obj.overwrite k v l) = Obj.find k' l.
Proof.
  intros Hne. induction l as [|[k0 v0] l IH]; simpl; [done|].
  destruct (String.eqb k0 k) eqn:Hk; simpl.
  - apply String.eqb_eq in Hk as ->.
    by destruct (String.eqb k k') eqn:Hk'; [apply String.eqb_eq in Hk'|].
  - by rewrite IH.
Qed.

Lemma obj_keys_overwrite {A} k (v : A) l : (Obj.overwrite k v l).*1 = l.*1.
Proof.
  induction l as [|[k0 v0] l IH]; csimpl; [done|].
  destruct (String.eqb k0 k); csimpl; [done|]. by rewrite IH.
Qed.

Lemma obj_find_app {A} k (l1 l2 : list (string * A)) :
  Obj.find k (l1 ++ l2) = match Obj.find k l1 with Some v => Some v | None => Obj.find k l2 end.
Proof.
  induction l1 as [|[k0 v0] l1 IH]; simpl; [done|]. by destruct (String.eqb k0 k).
Qed.

Lemma obj_find_insert_index_eq {A} n k (v : A) l :
  Obj.find k l = None -> Obj.find k (Obj.insert_index n k v l) = Some v.
Proof.
  induction l as [|[k0 v0] l IH]; simpl; [by rewrite String.eqb_refl|].
  destruct (String.eqb k0 k) eqn:Hk; [done|]. intros Hnone.
  destruct (Obj.array_index k0) as [m|]; [destruct (m <? n)%N|]; simpl;
    rewrite ?Hk, ?String.eqb_refl; auto.
Qed.

Lemma obj_find_insert_index_ne {A} n k k' (v : A) l :
  k <> k' -> Obj.find k' (Obj.insert_index n k v l) = Obj.find k' l.
Proof.
  intros Hne. apply String.eqb_neq in Hne.
  induction l as [|[k0 v0] l IH]; simpl; [by rewrite Hne|].
  destruct (Obj.array_index k0) as [m|]; [destruct (m <? n)%N|]; simpl;
    rewrite ?Hne, ?IH; done.
Qed.

Lemma obj_keys_insert_index {A} n k (v : A) l : (Obj.insert_index n k v l).*1 ≡ₚ k :: l.*1.
Proof.
  induction l as [|[k0 v0] l IH]; csimpl; [done|].
  destruct (Obj.array_index k0) as [m|]; [destruct (m <? n)%N|]; csimpl; try done.
  rewrite IH. apply Permutation_swap.
Qed.

Lemma obj_keys_create {A} k (v : A) l : (Obj.create k v l).*1 ≡ₚ k :: l.*1.
Proof.
  unfold Obj.create. destruct (Obj.array_index k); [apply obj_keys_insert_index|].
  rewrite fmap_app. csimpl. by rewrite Permutation_app_comm.
Qed.

Lemma obj_lookup_empty {A} (k : string) : (Obj.empty : Obj.t A) !! k = None.
Proof. done. Qed.

Lemma obj_lookup_set_eq {A} k (v : A) o : k <> "__proto__" -> Obj.set k v o !! k = Some v.
Proof.
  intros Hk. apply String.eqb_neq in Hk. unfold lookup, Obj.lookup, Obj.get, Obj.set.
  rewrite Hk. destruct (Obj.find k (Obj.entries o)) as [x|] eqn:Hfind; simpl.
  - apply obj_find_overwrite_eq. by rewrite Hfind.
  - unfold Obj.create. destruct (Obj.array_index k).
    + by apply obj_find_insert_index_eq.
    + rewrite obj_find_app, Hfind. simpl. by rewrite String.eqb_refl.
Qed.

Lemma obj_lookup_set_ne {A} k k' (v : A) o : k <> k' -> Obj.set k v o !! k' = o !! k'.
Proof.
  intros Hne. unfold lookup, Obj.lookup, Obj.get, Obj.set.
  destruct (String.eqb k "__proto__"); [done|].
  destruct (Obj.find k (Obj.entries o)) as [x|] eqn:Hfind; simpl.
  - by apply obj_find_overwrite_ne.
  - unfold Obj.create. destruct (Obj.array_index k).
    + by apply obj_find_insert_index_ne.
    + rewrite obj_find_app. destruct (Obj.find k' (Obj.entries o)); [done|]. simpl.
      by apply String.eqb_neq in Hne as ->.
Qed.

Lemma obj_lookup_set_proto {A} (v : A) o : Obj.set "__proto__" v o = o.
Proof. done. Qed.

Lemma obj_find_Some_elem {A} k (v : A) l : Obj.find k l = Some v -> (k, v) ∈ l.
Proof.
  induction l as [|[k0 v0] l IH]; simpl; [done|].
  destruct (String.eqb k0 k) eqn:Hk.
  - apply String.eqb_eq in Hk as ->. intros [= ->]. by left.
  - intros Hfind. right. by apply IH.
Qed.

Lemma obj_find_None_keys {A} k (l : list (string * A)) : Obj.find k l = None <-> k ∉ l.*1.
Proof.
  induction l as [|[k0 v0] l IH]; csimpl.
  - split; [intros _ Hin; by apply elem_of_nil in Hin|done].
  - rewrite not_elem_of_cons, <- IH. destruct (String.eqb k0 k) eqn:Hk.
    + apply String.eqb_eq in Hk as ->. split; [done|]. by intros [? _].
    + apply String.eqb_neq in Hk. split; [by split|]. by intros [_ ?].
Qed.

Lemma obj_elem_find_NoDup {A} k (v : A) l : NoDup l.*1 -> (k, v) ∈ l -> Obj.find k l = Some v.
Proof.
  induction l as [|[k0 v0] l IH]; csimpl; intros Hnd Hin; [by apply elem_of_nil in Hin|].
  apply NoDup_cons in Hnd as [Hfresh Hnd].
  apply elem_of_cons in Hin as [[= <- <-]|Hin]; [by rewrite String.eqb_refl|].
  destruct (String.eqb k0 k) eqn:Hk; [|by apply IH].
  apply String.eqb_eq in Hk as ->. exfalso. apply Hfresh.
  apply list_elem_of_fmap. by exists (k, v).
Qed.

Lemma obj_keys_set_NoDup {A} k (v : A) o :
  NoDup (Obj.keys o) -> NoDup (Obj.keys (Obj.set k v o)).
Proof.
  unfold Obj.keys, Obj.set. intros Hnd. destruct (String.eqb k "__proto__"); [done|].
  destruct (Obj.find k (Obj.entries o)) as [x|] eqn:Hfind; simpl.
  - by rewrite obj_keys_overwrite.
  - rewrite obj_keys_create. apply NoDup_cons. split; [|done]. by apply obj_find_None_keys.
Qed.

(** ** The polling loop *)

Lemma polls_app vid sid n m : polls vid sid (n + m) = polls vid sid n ++ polls vid sid m.
Proof. induction n as [|n IH]; simpl; [done|]. by rewrite IH. Qed.

Lemma polled_refl vid sid w : polled vid sid 0 w w.
Proof. split; simpl; rewrite ?Nat.add_0_r, ?app_nil_r; done. Qed.

Lemma polled_trans vid sid n m w1 w2 w3 :
  polled vid sid n w1 w2 -> polled vid sid m w2 w3 -> polled vid sid (n + m) w1 w3.
Proof.
  intros [] []. split; try congruence.
  - lia.
  - rewrite polls_app, app_assoc. congruence.
Qed.

(** One round: the wait, then the status request and what it settles with. *)
Lemma round_settles vid sid w :
  exists w', polled vid sid 1 w w' /\
    (timeoutPromise 1000 ;; getServiceInvocationStatus vid sid) w =
      (match cloud w (requests w) with
       | HttpResolve data =>
           if truthy data then
             match prop data "status" with
             | Some st => Resolved st
             | None => Rejected "TypeError"
             end
           else Rejected "getServiceInvocationStatus, api_error"
       | HttpReject reason => Rejected reason
       end, w').
Proof.
  unfold andThen, timeoutPromise, update, getServiceInvocationStatus, getVOCCommand,
    http, andThen; simpl.
  destruct (cloud w (requests w)) as [data|reason]; simpl.
  - destruct (truthy data) eqn:Ht; simpl.
    + unfold read.
      destruct data; simpl in *; try discriminate;
        unfold resolve, reject, emit, update, andThen; simpl;
        repeat match goal with
        | |- context [if ?b then _ else _] => destruct b; simpl
        end;
        (eexists; split; [|reflexivity]); split; simpl; rewrite <- ?app_assoc; simpl; done || lia.
    + unfold reject. eexists; split; [|reflexivity].
      split; simpl; rewrite <- ?app_assoc; simpl; done || lia.
  - eexists; split; [|reflexivity].
    split; simpl; rewrite <- ?app_assoc; simpl; done || lia.
Qed.

Lemma runFor_loop_done fuel func interval counter w :
  runFor_loop fuel func interval true counter w = (Resolved counter, w).
Proof. destruct fuel; reflexivity. Qed.

(** One turn of the [while] loop. *)
Lemma runFor_loop_turn fuel func interval counter w :
  counter < 15 ->
  runFor_loop (S fuel) func interval false counter w =
    match (timeoutPromise interval ;; func) w with
    | (Resolved response, w1) =>
        if is_str response "Successful" then
          runFor_loop fuel func interval true (counter + 1) (set_success true w1)
        else if is_str response "Failed" then
          runFor_loop fuel func interval true (counter + 1) w1
        else runFor_loop fuel func interval false (counter + 1) w1
    | (Rejected r, w1) => (Rejected r, w1)
    end.
Proof.
  intros Hc. simpl.
  replace (counter <? 15) with true by (symmetry; apply Z.ltb_lt; lia).
  unfold andThen, timeoutPromise, update; simpl.
  destruct (func _) as [[response|r] w1]; [|done].
  destruct (is_str response "Successful"); [done|].
  destruct (is_str response "Failed"); done.
Qed.

Lemma pending_inv r :
  pending r = true ->
  exists data st, r = HttpResolve data /\ truthy data = true /\
    prop data "status" = Some st /\
    is_str st "Successful" = false /\ is_str st "Failed" = false.
Proof.
  unfold pending, reply_status. destruct r as [data|]; [|done].
  destruct (truthy data) eqn:Ht; [|done].
  destruct (prop data "status") as [st|] eqn:Hp; [|done].
  intros [H1 H2]%andb_prop. exists data, st.
  repeat split; try done; by apply negb_true_iff.
Qed.

Lemma reply_status_inv r st :
  reply_status r = Some st ->
  exists data, r = HttpResolve data /\ truthy data = true /\ prop data "status" = Some st.
Proof.
  unfold reply_status. destruct r as [data|]; [|done].
  destruct (truthy data) eqn:Ht; [|done]. eauto.
Qed.

Section Loop.

Variables (vid : string) (sid : value).

(** A run of pending replies is polled through, one round each. *)
Lemma runFor_loop_pending n : forall fuel counter w,
  (forall i, (i < n)%nat -> pending (cloud w (requests w + i)) = true) ->
  counter + Z.of_nat n <= 15 ->
  exists w', polled vid sid n w w' /\
    runFor_loop (n + fuel) (getServiceInvocationStatus vid sid) 1000 false counter w =
    runFor_loop fuel (getServiceInvocationStatus vid sid) 1000 false (counter + Z.of_nat n) w'.
Proof.
  induction n as [|n IH]; intros fuel counter w Hp Hc.
  - exists w. split; [apply polled_refl|]. simpl. by rewrite Z.add_0_r.
  - destruct (round_settles vid sid w) as (w1 & Hw1 & Hround).
    destruct (pending_inv _ (Hp 0%nat ltac:(lia))) as (data & st & Hr & Ht & Hst & Hs & Hf).
    rewrite Nat.add_0_r in Hr. rewrite Hr, Ht, Hst in Hround.
    destruct (IH fuel (counter + 1) w1) as (w2 & Hw2 & Hloop).
    { intros i Hi. destruct Hw1 as [-> -> _ _ _ _ _].
      replace (requests w + 1 + i)%nat with (requests w + S i)%nat by lia.
      apply Hp. lia. }
    { lia. }
    exists w2. split.
    + apply (polled_trans _ _ 1 n w w1 w2); done.
    + change (S n + fuel)%nat with (S (n + fuel)).
      rewrite runFor_loop_turn by lia. rewrite Hround, Hs, Hf.
      rewrite Hloop. f_equal. lia.
Qed.

(** The first [Successful] ends the loop and raises the flag. *)
Lemma runFor_loop_successful fuel counter w :
  reply_status (cloud w (requests w)) = Some (VStr "Successful") ->
  counter < 15 ->
  exists w', polled vid sid 1 w w' /\
    runFor_loop (S fuel) (getServiceInvocationStatus vid sid) 1000 false counter w =
    (Resolved (counter + 1), set_success true w').
Proof.
  intros (data & Hr & Ht & Hst)%reply_status_inv Hc.
  destruct (round_settles vid sid w) as (w1 & Hw1 & Hround).
  rewrite Hr, Ht, Hst in Hround. exists w1. split; [done|].
  rewrite runFor_loop_turn by lia. rewrite Hround. simpl.
  apply runFor_loop_done.
Qed.

(** The first [Failed] ends the loop and leaves the flag alone. *)
Lemma runFor_loop_failed fuel counter w :
  reply_status (cloud w (requests w)) = Some (VStr "Failed") ->
  counter < 15 ->
  exists w', polled vid sid 1 w w' /\
    runFor_loop (S fuel) (getServiceInvocationStatus vid sid) 1000 false counter w =
    (Resolved (counter + 1), w').
Proof.
  intros (data & Hr & Ht & Hst)%reply_status_inv Hc.
  destruct (round_settles vid sid w) as (w1 & Hw1 & Hround).
  rewrite Hr, Ht, Hst in Hround. exists w1. split; [done|].
  rewrite runFor_loop_turn by lia. rewrite Hround. simpl.
  apply runFor_loop_done.
Qed.

(** Whatever the cloud answers, the loop makes at most [15 - counter]
    rounds, and the flag is raised only on the way to resolving. *)
Lemma runFor_loop_rounds fuel : forall done counter w,
  exists n w1,
    Z.of_nat n <= Z.max 0 (15 - counter) /\ (n <= fuel)%nat /\
    (done = false -> counter < 15 -> (0 < fuel)%nat -> (1 <= n)%nat) /\
    polled vid sid n w w1 /\
    ((runFor_loop fuel (getServiceInvocationStatus vid sid) 1000 done counter w).2 = w1 \/
     (runFor_loop fuel (getServiceInvocationStatus vid sid) 1000 done counter w).2 =
       set_success true w1 /\
     exists c,
       (runFor_loop fuel (getServiceInvocationStatus vid sid) 1000 done counter w).1 =
         Resolved c).
Proof.
  induction fuel as [|fuel IH]; intros done counter w.
  - exists 0%nat, w. split; [lia|]. split; [lia|]. split; [lia|].
    split; [apply polled_refl|].
    left. simpl. by destruct (negb done && (counter <? 15)).
  - destruct done.
    { exists 0%nat, w. split; [lia|]. split; [lia|]. split; [done|].
      split; [apply polled_refl|].
      left. by rewrite runFor_loop_done. }
    destruct (Z.ltb_spec counter 15) as [Hc|Hc].
    2:{ exists 0%nat, w. split; [lia|]. split; [lia|]. split; [lia|].
        split; [apply polled_refl|].
        left. simpl. replace (counter <? 15) with false; [done|].
        symmetry. apply Z.ltb_ge. lia. }
    rewrite runFor_loop_turn by done.
    destruct (round_settles vid sid w) as (w1 & Hw1 & Hround).
    rewrite Hround.
    set (r := match cloud w (requests w) with
              | HttpResolve data => _ | HttpReject reason => _ end).
    destruct r as [response|reason].
    2:{ exists 1%nat, w1. split; [lia|]. split; [lia|]. split; [lia|].
        split; [done|]. by left. }
    destruct (is_str response "Successful").
    { exists 1%nat, w1. split; [lia|]. split; [lia|]. split; [lia|]. split; [done|].
      right. rewrite runFor_loop_done. simpl. eauto. }
    destruct (is_str response "Failed").
    { exists 1%nat, w1. split; [lia|]. split; [lia|]. split; [lia|]. split; [done|].
      left. by rewrite runFor_loop_done. }
    destruct (IH false (counter + 1) w1) as (n & w2 & Hn & Hfuel & _ & Hw2 & Hend).
    exists (S n), w2. split; [lia|]. split; [lia|]. split; [lia|].
    split; [apply (polled_trans _ _ 1 n w w1 w2); done|]. done.
Qed.

End Loop.

(** Fifteen units of fuel are as good as any larger amount. *)
Lemma runFor_loop_fuel fuel : forall func interval done counter w,
  15 - counter <= Z.of_nat fuel ->
  runFor_loop (S fuel) func interval done counter w =
  runFor_loop fuel func interval done counter w.
Proof.
  induction fuel as [|fuel IH]; intros func interval done counter w Hfuel.
  - destruct done; [done|]. simpl.
    replace (counter <? 15) with false; [done|]. symmetry. apply Z.ltb_ge. lia.
  - destruct done; [by rewrite !runFor_loop_done|].
    destruct (Z.ltb_spec counter 15) as [Hc|Hc].
    2:{ simpl. replace (counter <? 15) with false; [done|].
        symmetry. apply Z.ltb_ge. lia. }
    rewrite (runFor_loop_turn (S fuel)), (runFor_loop_turn fuel) by done.
    destruct ((timeoutPromise interval;; func) w) as [[response|r] w1]; [|done].
    rewrite !runFor_loop_done.
    destruct (is_str response "Successful"); [done|].
    destruct (is_str response "Failed"); [done|].
    apply IH. lia.
Qed.

(** ** Waiting for a service invocation *)

Lemma await_unfold vid sid w :
  truthy sid = true ->
  awaitSuccessfulServiceInvocation vid sid w =
    match runFor_loop 15 (getServiceInvocationStatus vid sid) 1000 false 0 w with
    | (Resolved _, w') => (Resolved (_serviceInvocationSuccess w'), set_success false w')
    | (Rejected r, w') => (Rejected r, w')
    end.
Proof.
  intros Hs. unfold awaitSuccessfulServiceInvocation, runFor, andThen, resolve.
  rewrite Hs. cbn [negb]. cbv beta.
  by destruct (runFor_loop _ _ _ _ _ _) as [[c|r] w'].
Qed.

(** A missing invocation id is rejected on the spot. *)
Lemma await_no_id vid sid w :
  truthy sid = false ->
  awaitSuccessfulServiceInvocation vid sid w = (Rejected "ServiceId is null!", w).
Proof. intros Hs. unfold awaitSuccessfulServiceInvocation. by rewrite Hs. Qed.

Lemma await_successful vid sid w k :
  truthy sid = true -> (k < 15)%nat ->
  (forall i, (i < k)%nat -> pending (cloud w (requests w + i)) = true) ->
  reply_status (cloud w (requests w + k)) = Some (VStr "Successful") ->
  exists w', polled vid sid (S k) w w' /\
    awaitSuccessfulServiceInvocation vid sid w = (Resolved true, set_success false w').
Proof.
  intros Hs Hk Hp Hr. rewrite await_unfold by done.
  destruct (runFor_loop_pending vid sid k (15 - k) 0 w Hp ltac:(lia)) as (w1 & Hw1 & Hloop).
  replace (k + (15 - k))%nat with 15%nat in Hloop by lia.
  rewrite Z.add_0_l in Hloop. rewrite Hloop.
  destruct (runFor_loop_successful vid sid (15 - k - 1) (Z.of_nat k) w1) as (w2 & Hw2 & Hend).
  { destruct Hw1 as [-> -> _ _ _ _ _]. done. }
  { lia. }
  replace (S (15 - k - 1)) with (15 - k)%nat in Hend by lia.
  rewrite Hend. exists w2. split.
  - replace (S k) with (k + 1)%nat by lia. by eapply polled_trans.
  - done.
Qed.

Lemma await_failed vid sid w k :
  truthy sid = true -> (k < 15)%nat ->
  (forall i, (i < k)%nat -> pending (cloud w (requests w + i)) = true) ->
  reply_status (cloud w (requests w + k)) = Some (VStr "Failed") ->
  exists w', polled vid sid (S k) w w' /\
    awaitSuccessfulServiceInvocation vid sid w =
      (Resolved (_serviceInvocationSuccess w), set_success false w').
Proof.
  intros Hs Hk Hp Hr. rewrite await_unfold by done.
  destruct (runFor_loop_pending vid sid k (15 - k) 0 w Hp ltac:(lia)) as (w1 & Hw1 & Hloop).
  replace (k + (15 - k))%nat with 15%nat in Hloop by lia.
  rewrite Z.add_0_l in Hloop. rewrite Hloop.
  destruct (runFor_loop_failed vid sid (15 - k - 1) (Z.of_nat k) w1) as (w2 & Hw2 & Hend).
  { destruct Hw1 as [-> -> _ _ _ _ _]. done. }
  { lia. }
  replace (S (15 - k - 1)) with (15 - k)%nat in Hend by lia.
  rewrite Hend. exists w2. split.
  - replace (S k) with (k + 1)%nat by lia. by eapply polled_trans.
  - destruct Hw1, Hw2. do 2 f_equal. congruence.
Qed.

Lemma await_timeout vid sid w :
  truthy sid = true ->
  (forall i, (i < 15)%nat -> pending (cloud w (requests w + i)) = true) ->
  exists w', polled vid sid 15 w w' /\
    awaitSuccessfulServiceInvocation vid sid w =
      (Resolved (_serviceInvocationSuccess w), set_success false w').
Proof.
  intros Hs Hp. rewrite await_unfold by done.
  destruct (runFor_loop_pending vid sid 15 0 0 w Hp ltac:(lia)) as (w1 & Hw1 & Hloop).
  change (15 + 0)%nat with 15%nat in Hloop. rewrite Hloop. simpl.
  exists w1. split; [done|]. destruct Hw1. do 2 f_equal. congruence.
Qed.

(** However the cloud answers, the wait makes at most 15 rounds; it resolves
    with the flag lowered again, or rejects with the flag as it found it. *)
Lemma await_settles vid sid w :
  exists n w1, (n <= 15)%nat /\ (truthy sid = true -> (1 <= n)%nat) /\
    polled vid sid n w w1 /\
    ((exists b, awaitSuccessfulServiceInvocation vid sid w = (Resolved b, set_success false w1)) \/
     (exists r, awaitSuccessfulServiceInvocation vid sid w = (Rejected r, w1))).
Proof.
  destruct (truthy sid) eqn:Hs.
  2:{ exists 0%nat, w. split; [lia|]. split; [done|]. split; [apply polled_refl|].
      right. rewrite await_no_id by done. eauto. }
  rewrite await_unfold by done.
  destruct (runFor_loop_rounds vid sid 15 false 0 w) as (n & w1 & Hn & Hfuel & H1 & Hw1 & Hend).
  exists n, w1. split; [done|]. split; [intros _; apply H1; done || lia|]. split; [done|].
  destruct (runFor_loop _ _ _ _ _ _) as [[c|r] w'] eqn:Hrun; simpl in Hend.
  - left. destruct Hend as [->|[-> _]]; eauto.
  - right. destruct Hend as [->|[_ [c Hc]]]; [eauto|done].
Qed.

(** C1. The loop behind a remote command polls the invocation's status at
    most 15 times, each poll after a wait of 1000 ms.  With the success flag
    down at the start: if the first [k] statuses are neither ['Successful']
    nor ['Failed'] and the next one is ['Successful'], the wait resolves
    [true] after exactly [k + 1] polls; if the next one is ['Failed'], it
    resolves [false] after exactly [k + 1] polls; and if 15 statuses in a
    row are of the other kind, it resolves [false] after exactly 15 polls
    with the flag down. *)
Theorem polling_is_bounded_and_decisive vid sid w :
  truthy sid = true ->
  _serviceInvocationSuccess w = false ->
  (exists n, (n <= 15)%nat /\ trace (after vid sid w) = trace w ++ polls vid sid n) /\
  (forall k, (k < 15)%nat ->
     (forall i, (i < k)%nat -> pending (cloud w (requests w + i)) = true) ->
     (reply_status (cloud w (requests w + k)) = Some (VStr "Successful") ->
      outcome vid sid w = Resolved true /\
      trace (after vid sid w) = trace w ++ polls vid sid (S k)) /\
     (reply_status (cloud w (requests w + k)) = Some (VStr "Failed") ->
      outcome vid sid w = Resolved false /\
      trace (after vid sid w) = trace w ++ polls vid sid (S k))) /\
  ((forall i, (i < 15)%nat -> pending (cloud w (requests w + i)) = true) ->
   outcome vid sid w = Resolved false /\
   trace (after vid sid w) = trace w ++ polls vid sid 15 /\
   _serviceInvocationSuccess (after vid sid w) = false).
Proof.
  intros Hs Hflag. unfold outcome, after. repeat split.
  - destruct (await_settles vid sid w) as (n & w1 & Hn & _ & Hw1 & [[b ->]|[r ->]]);
      exists n; (split; [done|]); simpl; apply Hw1.
  - destruct (await_successful vid sid w k) as (w' & Hw' & ->); done.
  - destruct (await_successful vid sid w k) as (w' & Hw' & ->); try done. apply Hw'.
  - destruct (await_failed vid sid w k) as (w' & Hw' & ->); try done.
    simpl. by rewrite Hflag.
  - destruct (await_failed vid sid w k) as (w' & Hw' & ->); try done. apply Hw'.
  - destruct (await_timeout vid sid w) as (w' & Hw' & ->); try done.
    simpl. by rewrite Hflag.
  - destruct (await_timeout vid sid w) as (w' & Hw' & ->); try done. apply Hw'.
  - destruct (await_timeout vid sid w) as (w' & Hw' & ->); done.
Qed.

Lemma polling_three_polls_and_fifteen_polls :
  (outcome "VIN" (VStr "svc-1") (newWorld (pendingTwiceThen "Successful")) = Resolved true /\
   trace (after "VIN" (VStr "svc-1") (newWorld (pendingTwiceThen "Successful"))) =
     polls "VIN" (VStr "svc-1") 3) /\
  (outcome "VIN" (VStr "svc-1") (newWorld (pendingTwiceThen "Failed")) = Resolved false /\
   trace (after "VIN" (VStr "svc-1") (newWorld (pendingTwiceThen "Failed"))) =
     polls "VIN" (VStr "svc-1") 3) /\
  (outcome "VIN" (VStr "svc-1") (newWorld (always "Pending")) = Resolved false /\
   trace (after "VIN" (VStr "svc-1") (newWorld (always "Pending"))) =
     polls "VIN" (VStr "svc-1") 15 /\
   _serviceInvocationSuccess (after "VIN" (VStr "svc-1") (newWorld (always "Pending"))) = false).
Proof.
  split; [|split].
  - destruct (polling_is_bounded_and_decisive "VIN" (VStr "svc-1")
                (newWorld (pendingTwiceThen "Successful")) eq_refl eq_refl) as (_ & Hk & _).
    destruct (Hk 2%nat) as [Hsucc _].
    + lia.
    + intros [|[|i]] Hi; [reflexivity|reflexivity|lia].
    + apply Hsucc. reflexivity.
  - destruct (polling_is_bounded_and_decisive "VIN" (VStr "svc-1")
                (newWorld (pendingTwiceThen "Failed")) eq_refl eq_refl) as (_ & Hk & _).
    destruct (Hk 2%nat) as [_ Hfail].
    + lia.
    + intros [|[|i]] Hi; [reflexivity|reflexivity|lia].
    + apply Hfail. reflexivity.
  - destruct (polling_is_bounded_and_decisive "VIN" (VStr "svc-1")
                (newWorld (always "Pending")) eq_refl eq_refl) as (_ & _ & Hall).
    apply Hall. intros i Hi. reflexivity.
Defined.

(** What the wait does to the flag. *)
Lemma await_flag vid sid w :
  match awaitSuccessfulServiceInvocation vid sid w with
  | (Resolved _, w') => _serviceInvocationSuccess w' = false
  | (Rejected _, w') => _serviceInvocationSuccess w' = _serviceInvocationSuccess w
  end.
Proof.
  destruct (await_settles vid sid w) as (n & w1 & Hn & _ & Hw1 & [[b ->]|[r ->]]).
  - done.
  - apply Hw1.
Qed.

Lemma invocations_flag l : forall w,
  _serviceInvocationSuccess w = false ->
  _serviceInvocationSuccess (invocations l w).2 = false.
Proof.
  induction l as [|[vid sid] l IH]; intros w Hw; [done|]. simpl.
  pose proof (await_flag vid sid w) as Hflag.
  destruct (awaitSuccessfulServiceInvocation vid sid w) as [[b|r] w1].
  - specialize (IH w1 Hflag). by destruct (invocations l w1).
  - specialize (IH w1 ltac:(congruence)). by destruct (invocations l w1).
Qed.

(** An action past its submission: the wait on [status.customerServiceId],
    then the announcement, or the error reported by both handlers. *)
Lemma invoke_submitted action vid submit w status w1 sid :
  submit w = (Resolved status, w1) ->
  prop status "customerServiceId" = Some sid ->
  VOC.invoke action vid submit w =
    match awaitSuccessfulServiceInvocation vid sid w1 with
    | (Resolved result, w2) =>
        (Resolved result,
         set_emitted (fun l => l ++ [(refreshEventName,
                        VObj [("action", VStr action); ("result", VBool result)])]) w2)
    | (Rejected r, w2) =>
        (Rejected r,
         set_emitted (fun l => l ++ [(apiErrorEventName, VStr r)])
           (set_emitted (fun l => l ++ [(apiErrorEventName, VStr r)]) w2))
    end.
Proof.
  intros Hsubmit Hprop.
  unfold VOC.invoke, VOC.reportError, catch, andThen, read.
  rewrite Hsubmit, Hprop. unfold resolve at 1. cbv beta iota.
  destruct (awaitSuccessfulServiceInvocation vid sid w1) as [[b|r] w2]; reflexivity.
Qed.

(** C8. A wait asked for with a falsy invocation id (undefined, null, the
    empty string) is rejected at once with 'ServiceId is null!' and leaves
    the world as it was: no wait, no poll.  So an action whose submission
    resolves with a status that carries no [customerServiceId] is rejected
    with nothing added to the trace after the submission. *)
Theorem missing_invocation_id_is_rejected_unpolled vid sid w :
  truthy sid = false ->
  awaitSuccessfulServiceInvocation vid sid w = (Rejected "ServiceId is null!", w) /\
  forall action submit status w1,
    submit w = (Resolved status, w1) ->
    prop status "customerServiceId" = Some sid ->
    (VOC.invoke action vid submit w).1 = Rejected "ServiceId is null!" /\
    trace (VOC.invoke action vid submit w).2 = trace w1 /\
    requests (VOC.invoke action vid submit w).2 = requests w1.
Proof.
  intros Hs. split; [by apply await_no_id|].
  intros action submit status w1 Hsubmit Hprop.
  rewrite (invoke_submitted _ _ _ _ _ _ _ Hsubmit Hprop), await_no_id by done.
  done.
Qed.

Lemma missing_invocation_id_startCharging :
  (VOC.startCharging "VIN" (newWorld (always "Started"))).1 = Rejected "ServiceId is null!" /\
  trace (VOC.startCharging "VIN" (newWorld (always "Started"))).2 =
    [Http POST (VehicleResource "VIN" "rbm/overrideDelayCharging") (VBool true)].
Proof.
  destruct (missing_invocation_id_is_rejected_unpolled "VIN" VUndefined
              (newWorld (always "Started")) eq_refl) as [_ H].
  destruct (H "startCharging" (Api.startCharging "VIN") _ _ eq_refl eq_refl) as (H1 & H2 & _).
  split; [exact H1|exact H2].
Defined.

(** C10. When a wait resolves the success flag is down again, and when it
    rejects the flag is as the wait found it.  So after any sequence of
    non-overlapping waits on an instance whose flag started down (as the
    constructor leaves it) the flag is down, and a wait that then meets
    ['Failed'], or 15 non-terminal statuses, resolves [false] whatever the
    earlier waits recorded. *)
Theorem success_flag_does_not_leak earlier vid sid w :
  let w0 := set_success false w in
  let w1 := (invocations earlier w0).2 in
  match awaitSuccessfulServiceInvocation vid sid w with
  | (Resolved _, w') => _serviceInvocationSuccess w' = false
  | (Rejected _, w') => _serviceInvocationSuccess w' = _serviceInvocationSuccess w
  end /\
  _serviceInvocationSuccess w1 = false /\
  (truthy sid = true ->
   (forall k, (k < 15)%nat ->
      (forall i, (i < k)%nat -> pending (cloud w1 (requests w1 + i)) = true) ->
      reply_status (cloud w1 (requests w1 + k)) = Some (VStr "Failed") ->
      outcome vid sid w1 = Resolved false) /\
   ((forall i, (i < 15)%nat -> pending (cloud w1 (requests w1 + i)) = true) ->
    outcome vid sid w1 = Resolved false)).
Proof.
  intros w0 w1. split; [apply await_flag|].
  assert (_serviceInvocationSuccess w1 = false) as Hw1 by by apply invocations_flag.
  split; [done|]. intros Hs. unfold outcome. split.
  - intros k Hk Hp Hr.
    destruct (await_failed vid sid w1 k) as (w' & _ & ->); try done.
    simpl. by rewrite Hw1.
  - intros Hp. destruct (await_timeout vid sid w1) as (w' & _ & ->); try done.
    simpl. by rewrite Hw1.
Qed.

Lemma success_flag_after_success_then_timeout :
  (invocations [("VIN", VStr "a")] (newWorld successThenSilence)).1 = [Resolved true] /\
  outcome "VIN" (VStr "b") (invocations [("VIN", VStr "a")] (newWorld successThenSilence)).2 =
    Resolved false.
Proof.
  split; [reflexivity|].
  destruct (success_flag_does_not_leak [("VIN", VStr "a")] "VIN" (VStr "b")
              (newWorld successThenSilence)) as (_ & _ & H).
  destruct (H eq_refl) as [_ Htimeout].
  apply Htimeout. intros i Hi. reflexivity.
Defined.

(** ** The last path segment *)

Lemma lastIndexOf_from_absent c s : forall i acc,
  has_char c s = false -> lastIndexOf_from c s i acc = acc.
Proof.
  induction s as [|a s IH]; intros i acc Hs; [done|]. simpl in *.
  apply orb_false_iff in Hs as [-> Hs]. by apply IH.
Qed.

Lemma lastIndexOf_from_last c pre seg : forall i acc,
  has_char c seg = false ->
  lastIndexOf_from c (pre +:+ String c seg) i acc = i + Z.of_nat (String.length pre).
Proof.
  induction pre as [|a pre IH]; intros i acc Hseg; simpl.
  - rewrite Ascii.eqb_refl, lastIndexOf_from_absent by done. lia.
  - rewrite IH by done. lia.
Qed.

Lemma drop_chars_prefix pre s : drop_chars (String.length pre) (pre +:+ s) = s.
Proof. induction pre as [|a pre IH]; simpl; [by destruct s|done]. Qed.

(** [after_last_slash] is the part after the last ['/'], the whole string
    when there is none. *)
Lemma after_last_slash_segment pre seg :
  has_char "/" seg = false -> after_last_slash (pre +:+ String "/" seg) = seg.
Proof.
  intros Hseg. unfold after_last_slash, lastIndexOf, substring.
  rewrite lastIndexOf_from_last by done.
  replace (Z.to_nat (0 + Z.of_nat (String.length pre) + 1))
    with (String.length (pre +:+ "/")).
  - replace (pre +:+ String "/" seg) with ((pre +:+ "/") +:+ seg).
    + apply drop_chars_prefix.
    + clear. induction pre as [|a pre IH]; [done|].
      change (String a ((pre +:+ "/") +:+ seg) = String a (pre +:+ String "/" seg)).
      by f_equal.
  - clear. induction pre as [|a pre IH]; [done|].
    change (String.length (String a pre +:+ "/")) with (S (String.length (pre +:+ "/"))).
    rewrite IH. simpl String.length. lia.
Qed.

Lemma after_last_slash_whole s : has_char "/" s = false -> after_last_slash s = s.
Proof.
  intros Hs. unfold after_last_slash, lastIndexOf, substring.
  rewrite lastIndexOf_from_absent by done. done.
Qed.

(** ** Delay charging in the cloud client *)

Lemma delayCharging_submitted vid loc payload w status svc :
  cloud w (requests w) = HttpResolve status ->
  prop status "service" = Some svc ->
  VOC.delayCharging vid loc payload w =
    if truthy svc then
      match svc with
      | VStr s =>
          match awaitSuccessfulServiceInvocation vid (VStr (after_last_slash s))
                  (submitted vid loc payload w) with
          | (Resolved result, w2) =>
              (Resolved (VBool result),
               set_emitted (fun l => l ++ [(refreshEventName,
                  VObj [("action", VStr "delayCharging"); ("result", VBool result)])]) w2)
          | (Rejected r, w2) =>
              (Rejected r,
               set_emitted (fun l => l ++ [(apiErrorEventName, VStr r)])
                 (set_emitted (fun l => l ++ [(apiErrorEventName, VStr r)]) w2))
          end
      | _ => (Rejected "TypeError",
              set_emitted (fun l => l ++ [(apiErrorEventName, VStr "TypeError")])
                (submitted vid loc payload w))
      end
    else
      (Resolved status,
       set_emitted (fun l => l ++ [(refreshEventName,
          VObj [("action", VStr "delayCharging"); ("result", status)])])
         (submitted vid loc payload w)).
Proof.
  intros Hreply Hprop.
  unfold VOC.delayCharging, VOC.reportError, Api.delayCharging, putVOCCommand, http,
    catch, andThen, read.
  rewrite Hreply, Hprop. unfold resolve at 1. cbv beta iota.
  fold (submitted vid loc payload w).
  destruct (truthy svc) eqn:Ht; [|reflexivity].
  destruct svc; try reflexivity.
  destruct (awaitSuccessfulServiceInvocation _ _ _) as [[b|r] w2]; reflexivity.
Qed.

(** C7. When the cloud answers a delay-charging submission with a status
    that names no service (a falsy [service]), the call resolves with that
    status at once: the PUT is the only request, no wait and no poll follow.
    When the status names a service, every poll asks for the invocation whose
    id is [service] after its last ['/'] (all of it when it has none), and at
    least one poll is made unless that segment is empty. *)
Theorem delayCharging_immediate_or_polled_by_last_segment vid loc payload w status :
  cloud w (requests w) = HttpResolve status ->
  (forall svc, prop status "service" = Some svc -> truthy svc = false ->
     (VOC.delayCharging vid loc payload w).1 = Resolved status /\
     trace (VOC.delayCharging vid loc payload w).2 =
       trace w ++ [Http PUT (VehicleChargeLocation vid loc)
                     (if truthy payload then payload else VBool true)] /\
     requests (VOC.delayCharging vid loc payload w).2 = S (requests w)) /\
  (forall s, prop status "service" = Some (VStr s) -> s <> "" ->
     exists n, (n <= 15)%nat /\
       (after_last_slash s <> "" -> (1 <= n)%nat) /\
       trace (VOC.delayCharging vid loc payload w).2 =
         trace w ++ Http PUT (VehicleChargeLocation vid loc)
                      (if truthy payload then payload else VBool true)
                 :: polls vid (VStr (after_last_slash s)) n) /\
  (forall pre seg, has_char "/" seg = false ->
     after_last_slash (pre +:+ String "/" seg) = seg) /\
  (forall s, has_char "/" s = false -> after_last_slash s = s).
Proof.
  intros Hreply. split; [|split; [|split]].
  - intros svc Hsvc Hfalsy.
    rewrite (delayCharging_submitted _ _ _ _ _ _ Hreply Hsvc), Hfalsy. done.
  - intros s Hsvc Hs.
    rewrite (delayCharging_submitted _ _ _ _ _ _ Hreply Hsvc).
    assert (truthy (VStr s) = true) as ->.
    { simpl. destruct (String.eqb_spec s ""); done. }
    destruct (await_settles vid (VStr (after_last_slash s)) (submitted vid loc payload w))
      as (n & w1 & Hn & H1 & Hw1 & [[b ->]|[r ->]]);
      exists n; (split; [done|]);
      (split; [intros Hseg; apply H1; simpl;
               by destruct (String.eqb_spec (after_last_slash s) "")|]);
      simpl; rewrite (polled_trace _ _ _ _ _ Hw1); simpl; by rewrite <- app_assoc.
  - apply after_last_slash_segment.
  - apply after_last_slash_whole.
Qed.

Lemma delayCharging_unchanged_schedule_and_new_schedule :
  ((VOC.delayCharging "VIN" (VStr "7") (VObj [])
      (newWorld (thenSuccessful (VObj [("status", VStr "Accepted")])))).1 =
     Resolved (VObj [("status", VStr "Accepted")]) /\
   trace (VOC.delayCharging "VIN" (VStr "7") (VObj [])
      (newWorld (thenSuccessful (VObj [("status", VStr "Accepted")])))).2 =
     [Http PUT (VehicleChargeLocation "VIN" (VStr "7")) (VObj [])]) /\
  exists n, (1 <= n <= 15)%nat /\
    trace (VOC.delayCharging "VIN" (VStr "7") (VObj [])
      (newWorld (thenSuccessful (VObj [("service", VStr "/vehicles/VIN/services/4711")])))).2 =
     Http PUT (VehicleChargeLocation "VIN" (VStr "7")) (VObj [])
       :: polls "VIN" (VStr "4711") n.
Proof.
  split.
  - destruct (delayCharging_immediate_or_polled_by_last_segment "VIN" (VStr "7") (VObj [])
                (newWorld (thenSuccessful (VObj [("status", VStr "Accepted")]))) _ eq_refl)
      as (Himmediate & _).
    destruct (Himmediate VUndefined eq_refl eq_refl) as (H1 & H2 & _). by split.
  - destruct (delayCharging_immediate_or_polled_by_last_segment "VIN" (VStr "7") (VObj [])
                (newWorld (thenSuccessful (VObj [("service", VStr "/vehicles/VIN/services/4711")])))
                _ eq_refl) as (_ & Hpolled & _).
    destruct (Hpolled "/vehicles/VIN/services/4711" eq_refl ltac:(discriminate))
      as (n & Hn & H1 & Htrace).
    exists n. split; [|exact Htrace].
    split; [apply H1; discriminate|done].
Defined.

(** ** Distances *)

(** C4 as stated fails: with a valid position and no charge location cached,
    [updateDistances] is not a no-op.  It empties the list and emits
    [distances_updated]. *)
Lemma updateDistances_without_locations_is_not_a_noop :
  chargeLocations (cached "VIN" (VObj []) (at_ 60 24) ∅ [stale]) = ∅ /\
  distances (cached "VIN" (VObj []) (at_ 60 24) ∅ [stale]) = [stale] /\
  Car.updateDistances (cached "VIN" (VObj []) (at_ 60 24) ∅ [stale]) (newWorld (always "x")) =
    (Normal,
     cached "VIN" (VObj []) (at_ 60 24) ∅ [],
     set_carEmitted (fun _ => [("VIN", "distances_updated")]) (newWorld (always "x"))).
Proof. repeat split. Qed.

(** C4, amended. [updateDistances] is gated by the position alone, and
    changes nothing unless a valid one is cached.  When the cached position
    is [undefined] or [null] it throws; when its latitude or longitude is
    falsy it returns; either way the vehicle is the same and no event is
    emitted.  When both are truthy it either replaces the distances list
    wholesale by one entry per cached charge location, in the order of
    [Object.keys] (none when there is none), and emits [distances_updated];
    or, if a cached location has no readable position, it throws and leaves
    the vehicle and the event log as they were.  The list is never updated
    in part. *)
Theorem updateDistances_is_gated_by_position car w :
  match prop (position car) "latitude", prop (position car) "longitude" with
  | Some lat, Some lon =>
      if truthy lat && truthy lon then
        (exists ds,
           Car.updateDistances car w =
             (Normal, Car.set_distances ds car,
              set_carEmitted (fun l => l ++ [(vehicleId car, "distances_updated")]) w) /\
           Forall2 (fun kv d => Car.distanceTo lat lon kv.2 = Some d)
                   (Obj.entries (chargeLocations car)) ds /\
           length ds = length (Obj.keys (chargeLocations car))) \/
        (Car.updateDistances car w = (Throws "TypeError", car, w) /\
         exists key loc, (key, loc) ∈ Obj.entries (chargeLocations car) /\
                         Car.distanceTo lat lon loc = None)
      else Car.updateDistances car w = (Normal, car, w)
  | _, _ => Car.updateDistances car w = (Throws "TypeError", car, w)
  end.
Proof.
  unfold Car.updateDistances.
  destruct (prop (position car) "latitude") as [lat|]; [|done].
  destruct (prop (position car) "longitude") as [lon|]; [|done].
  destruct (truthy lat), (truthy lon); simpl; try done.
  destruct (mapM _ _) as [ds|] eqn:Hds.
  - left. exists ds. split; [done|].
    apply mapM_Some in Hds. apply Forall2_fmap_l in Hds. split; [done|].
    apply Forall2_length in Hds. unfold Obj.keys. by rewrite length_fmap.
  - right. split; [done|].
    apply mapM_None, Exists_exists in Hds as (loc & Hin & Hnone).
    apply list_elem_of_fmap in Hin as ([key loc'] & -> & Hin). eauto.
Qed.

Lemma updateDistances_two_locations :
  exists ds,
    Car.updateDistances (cached "VIN" (VObj []) (at_ 60 24) twoLocations [stale])
                        (newWorld (always "x")) =
      (Normal, Car.set_distances ds (cached "VIN" (VObj []) (at_ 60 24) twoLocations [stale]),
       set_carEmitted (fun l => l ++ [("VIN", "distances_updated")]) (newWorld (always "x"))) /\
    chargeLocationId <$> ds = ["2"; "home"].
Proof.
  destruct (updateDistances_is_gated_by_position
              (cached "VIN" (VObj []) (at_ 60 24) twoLocations [stale])
              (newWorld (always "x"))) as [(ds & Hrun & _ & _)|[Hthrows _]].
  - exists ds. split; [exact Hrun|]. vm_compute in Hrun. by injection Hrun as <-.
  - vm_compute in Hthrows. discriminate Hthrows.
Defined.

(** ** Position requests *)

Lemma quiet_refl w : quiet w w.
Proof. by split. Qed.

Lemma quiet_trans w1 w2 w3 : quiet w1 w2 -> quiet w2 w3 -> quiet w1 w3.
Proof. intros [] []. split; congruence. Qed.

Lemma publishChargeLocations_quiet car w : quiet w (Publish.publishChargeLocations car w).
Proof.
  unfold Publish.publishChargeLocations.
  generalize (Obj.entries (chargeLocations car)). intros l. revert w.
  induction l as [|kv l IH]; intros w; simpl; [apply quiet_refl|].
  eapply quiet_trans; [|apply IH]. by split.
Qed.

Lemma updateDistances_quiet car w : quiet w (Car.updateDistances car w).2.
Proof.
  unfold Car.updateDistances.
  destruct (prop (position car) "latitude") as [lat|]; [|apply quiet_refl].
  destruct (prop (position car) "longitude") as [lon|]; [|apply quiet_refl].
  destruct (negb (truthy lat) || negb (truthy lon)); [apply quiet_refl|].
  destruct (mapM _ _); [by split|apply quiet_refl].
Qed.

Lemma callback_quiet cb car w : quiet w (Car.world (Car.callback cb car w)).
Proof.
  destruct cb; simpl; try by split.
  - destruct (Car.isChargingSupported car), (Car.isPositionSupported car); apply quiet_refl.
  - pose proof (updateDistances_quiet car w) as H.
    by destruct (Car.updateDistances car w) as [[c car'] w'].
  - pose proof (updateDistances_quiet car w) as H.
    by destruct (Car.updateDistances car w) as [[c car'] w'].
  - apply publishChargeLocations_quiet.
Qed.

Lemma callbacks_quiet cbs : forall car w, quiet w (Car.world (Car.callbacks cbs car w)).
Proof.
  induction cbs as [|cb cbs IH]; intros car w; simpl; [apply quiet_refl|].
  pose proof (callback_quiet cb car w) as Hcb.
  destruct (Car.completion (Car.callback cb car w)); [|done].
  simpl. eapply quiet_trans; [exact Hcb|apply IH].
Qed.

Lemma emit_quiet event car w : quiet w (Car.world (Car.emit event car w)).
Proof.
  unfold Car.emit. eapply quiet_trans; [|apply callbacks_quiet]. by split.
Qed.

(** Every call the position poller starts is a [getVehiclePosition] on a
    vehicle that reports the capability. *)
Lemma positionTick_supported ids app : forall ref call,
  (ref, call) ∈ (App.positionTick ids app).2 ->
  call = GetVehiclePosition /\
  exists car v, objects app !! ref = Some car /\
    Car.isPositionSupported car = Some v /\ truthy v = true.
Proof.
  induction ids as [|[id r] ids IH]; intros ref call Hin; simpl in Hin.
  - by apply elem_of_nil in Hin.
  - destruct (objects app !! r) as [car|] eqn:Hcar; [|by apply elem_of_nil in Hin].
    destruct (Car.isPositionSupported car) as [v|] eqn:Hv; [|by apply elem_of_nil in Hin].
    destruct (App.positionTick ids app) as [c calls] eqn:Htick. simpl in *.
    apply elem_of_app in Hin as [Hin|Hin]; [|by apply IH].
    destruct (truthy v) eqn:Ht; [|by apply elem_of_nil in Hin].
    apply list_elem_of_singleton in Hin. injection Hin as -> ->. eauto 10.
Qed.

(** C5 as stated fails: [getVehiclePosition] on a vehicle whose attributes
    lack [carLocatorSupported] sends the position request all the same. *)
Lemma getVehiclePosition_is_not_guarded :
  Car.isPositionSupported (cached "VIN" (VObj []) (VObj []) ∅ []) = Some (VBool false) /\
  trace (Car.world (Car.getVehiclePosition (cached "VIN" (VObj []) (VObj []) ∅ [])
                      (newWorld (always "x")))) =
    [Http GET (VehicleResource "VIN" Api.positionQuery) VUndefined].
Proof. split; reflexivity. Qed.

(** C5, amended. [getVehiclePosition] itself has no capability guard: it
    always sends exactly one position request.  The check is made by its callers:
    the position poller and the vehicle's own [attributes_updated] listener
    start it only on a vehicle whose [isPositionSupported()] is truthy
    ([carLocatorSupported] present and truthy), and the listener itself
    sends nothing. *)
Theorem position_requests_are_gated_by_the_callers :
  (forall car w,
     trace (Car.world (Car.getVehiclePosition car w)) =
       trace w ++ [Http GET (VehicleResource (vehicleId car) Api.positionQuery) VUndefined] /\
     requests (Car.world (Car.getVehiclePosition car w)) = S (requests w)) /\
  (forall app ref call,
     (ref, call) ∈ (App.pollPositions app).2 ->
     call = GetVehiclePosition /\
     exists car v, objects app !! ref = Some car /\
       Car.isPositionSupported car = Some v /\ truthy v = true) /\
  (forall car w,
     Car.world (Car.callback OnAttributesUpdated car w) = w /\
     (GetVehiclePosition ∈ Car.started (Car.callback OnAttributesUpdated car w) ->
      exists v, Car.isPositionSupported car = Some v /\ truthy v = true)).
Proof.
  split; [|split].
  - intros car w. unfold Car.getVehiclePosition, VOC.getVehiclePosition, VOC.reportError,
      Api.getVehiclePosition, getVOCCommand, http, catch, andThen, read.
    destruct (cloud w (requests w)) as [data|reason]; simpl.
    + destruct (prop data "position") as [position|]; simpl.
      * match goal with |- context [Car.emit ?e ?c ?w0] =>
          destruct (emit_quiet e c w0) as [_ -> -> _ _] end. done.
      * done.
    + done.
  - intros app ref call. apply positionTick_supported.
  - intros car w. simpl.
    destruct (Car.isChargingSupported car) as [charging|]; simpl.
    2:{ split; [done|]. intros Hin. by apply elem_of_nil in Hin. }
    destruct (Car.isPositionSupported car) as [v|]; simpl.
    2:{ split; [done|]. intros Hin. by apply elem_of_nil in Hin. }
    split; [done|]. intros Hin. exists v. split; [done|].
    destruct (truthy v); [done|].
    rewrite app_nil_r in Hin. destruct (truthy charging).
    + apply list_elem_of_singleton in Hin. discriminate.
    + by apply elem_of_nil in Hin.
Qed.

Lemma position_poller_skips_the_vehicle_without_locator :
  App.pollPositions
    (mkApp (Obj.set "VIN2" 1%nat (Obj.set "VIN1" 0%nat ∅))
           [cached "VIN1" (VObj [("carLocatorSupported", VBool false)]) (VObj []) ∅ [];
            cached "VIN2" (VObj [("carLocatorSupported", VBool true)]) (VObj []) ∅ []]
           ∅ "homeassistant/status") = (Normal, [(1%nat, GetVehiclePosition)]) /\
  exists car v,
    [cached "VIN1" (VObj [("carLocatorSupported", VBool false)]) (VObj []) ∅ [];
     cached "VIN2" (VObj [("carLocatorSupported", VBool true)]) (VObj []) ∅ []] !! 1%nat =
      Some car /\
    Car.isPositionSupported car = Some v /\ truthy v = true.
Proof.
  split; [reflexivity|].
  destruct position_requests_are_gated_by_the_callers as (_ & Hpoll & _).
  destruct (Hpoll
    (mkApp (Obj.set "VIN2" 1%nat (Obj.set "VIN1" 0%nat ∅))
           [cached "VIN1" (VObj [("carLocatorSupported", VBool false)]) (VObj []) ∅ [];
            cached "VIN2" (VObj [("carLocatorSupported", VBool true)]) (VObj []) ∅ []]
           ∅ "homeassistant/status") 1%nat GetVehiclePosition) as [_ Hcar].
  - change ((1%nat, GetVehiclePosition) ∈ [(1%nat, GetVehiclePosition)]).
    apply list_elem_of_singleton. reflexivity.
  - exact Hcar.
Defined.

(** ** What follows a remote action *)

Lemma emit_unheard event car w :
  (forall cb, String.eqb (event_of cb) event = false) ->
  Car.emit event car w =
    Car.mkRan Normal car (set_carEmitted (fun l => l ++ [(vehicleId car, event)]) w) [].
Proof.
  intros Hnone. unfold Car.emit.
  replace (List.filter _ (listeners car)) with (@nil Callback); [done|].
  induction (listeners car) as [|cb l IH]; simpl; [done|]. by rewrite Hnone.
Qed.

Lemma refresh_submitted vid w status w1 sid :
  Api.refreshVehicleStatusFromCar vid w = (Resolved status, w1) ->
  prop status "customerServiceId" = Some sid ->
  VOC.refreshVehicleStatusFromCar vid w =
    match awaitSuccessfulServiceInvocation vid sid w1 with
    | (Resolved result, w2) =>
        (Resolved result,
         set_emitted (fun l => l ++ [("car_refreshed_status", VBool result)]) w2)
    | (Rejected r, w2) =>
        (Rejected r,
         set_emitted (fun l => l ++ [(apiErrorEventName, VStr r)])
           (set_emitted (fun l => l ++ [(apiErrorEventName, VStr r)]) w2))
    end.
Proof.
  intros Hsubmit Hprop.
  unfold VOC.refreshVehicleStatusFromCar, VOC.reportError, catch, andThen, read.
  rewrite Hsubmit, Hprop. unfold resolve at 1. cbv beta iota.
  destruct (awaitSuccessfulServiceInvocation vid sid w1) as [[b|r] w2]; reflexivity.
Qed.

Lemma getVehicleStatusFromCloud_trace car w :
  trace (Car.world (Car.getVehicleStatusFromCloud car w)) =
    trace w ++ [Http GET (VehicleResource (vehicleId car) "status") VUndefined].
Proof.
  unfold Car.getVehicleStatusFromCloud, VOC.getVehicleStatusFromCloud, VOC.reportError,
    Api.getVehicleStatusFromCloud, getVOCCommand, http, catch, andThen.
  destruct (cloud w (requests w)) as [data|reason]; simpl; [|done].
  match goal with |- context [Car.emit ?e ?c ?w0] =>
    destruct (emit_quiet e c w0) as [_ _ -> _ _] end. done.
Qed.

(** The car-side refresh opens with its POST, whatever comes after. *)
Lemma refreshVehicleStatusFromCar_opens car w :
  exists rest,
    trace (Car.world (Car.refreshVehicleStatusFromCar car w)) =
      trace w ++ Http POST (VehicleResource (vehicleId car) "updatestatus") (VBool true) :: rest.
Proof.
  unfold Car.refreshVehicleStatusFromCar.
  destruct (Api.refreshVehicleStatusFromCar (vehicleId car) w) as [[status|reason] w1] eqn:Hpost.
  - assert (trace w1 = trace w ++
              [Http POST (VehicleResource (vehicleId car) "updatestatus") (VBool true)]) as Hw1.
    { unfold Api.refreshVehicleStatusFromCar, postVOCCommand, http in Hpost.
      destruct (cloud w (requests w)); inversion Hpost; done. }
    destruct (prop status "customerServiceId") as [sid|] eqn:Hsid.
    + rewrite (refresh_submitted _ _ _ _ _ Hpost Hsid).
      destruct (await_settles (vehicleId car) sid w1)
        as (n & w2 & _ & _ & Hw2 & [[b ->]|[r ->]]).
      * destruct b.
        -- rewrite getVehicleStatusFromCloud_trace. simpl.
           rewrite (polled_trace _ _ _ _ _ Hw2), Hw1, <- !app_assoc. simpl. eauto.
        -- simpl. rewrite (polled_trace _ _ _ _ _ Hw2), Hw1, <- !app_assoc. simpl. eauto.
      * simpl. rewrite (polled_trace _ _ _ _ _ Hw2), Hw1, <- !app_assoc. simpl. eauto.
    + unfold VOC.refreshVehicleStatusFromCar, VOC.reportError, catch, andThen, read.
      rewrite Hpost, Hsid. simpl. rewrite Hw1. eauto.
  - unfold VOC.refreshVehicleStatusFromCar, VOC.reportError, catch, andThen.
    rewrite Hpost. simpl.
    unfold Api.refreshVehicleStatusFromCar, postVOCCommand, http in Hpost.
    destruct (cloud w (requests w)); inversion Hpost. simpl. eauto.
Qed.

Lemma thenRefreshFromCar_opens event car w :
  (forall cb, String.eqb (event_of cb) event = false) ->
  exists rest,
    trace (Car.world (Car.thenRefreshFromCar event car w)) =
      trace w ++ Http POST (VehicleResource (vehicleId car) "updatestatus") (VBool true) :: rest.
Proof.
  intros Hnone. unfold Car.thenRefreshFromCar. rewrite emit_unheard by done. simpl.
  apply (refreshVehicleStatusFromCar_opens car
           (set_carEmitted (fun l => l ++ [(vehicleId car, event)]) w)).
Qed.

Lemma thenGetStatusFromCloud_trace event car w :
  (forall cb, String.eqb (event_of cb) event = false) ->
  trace (Car.world (Car.thenGetStatusFromCloud event car w)) =
    trace w ++ [Http GET (VehicleResource (vehicleId car) "status") VUndefined].
Proof.
  intros Hnone. unfold Car.thenGetStatusFromCloud. rewrite emit_unheard by done. simpl.
  by rewrite getVehicleStatusFromCloud_trace.
Qed.

(** C3. Whenever the cloud client's [delayCharging] resolves, the vehicle
    reads the status from the cloud directly: the one request that follows is
    the GET of [status], and no car-side refresh is asked for.  Whenever the
    cloud client's call of any other action ([startCharging], [lock],
    [unlock], the heater and preclimatization methods) resolves, the
    vehicle's next request is the car-side refresh, the POST of
    [updatestatus]. *)
Theorem delayCharging_reads_the_cloud_while_the_others_ask_the_car car w :
  (forall args res w1,
     VOC.delayCharging (vehicleId car) (argument 0 args)
       (Car.delayChargingPayload (argument 1 args) (argument 2 args) (argument 3 args)) w
       = (Resolved res, w1) ->
     trace (Car.world (Car.delayCharging args car w)) =
       trace w1 ++ [Http GET (VehicleResource (vehicleId car) "status") VUndefined]) /\
  (forall method invocation res w1,
     (method, invocation) ∈ actionsBesidesDelayCharging ->
     invocation (vehicleId car) w = (Resolved res, w1) ->
     exists rest,
       trace (Car.world (method car w)) =
         trace w1 ++ Http POST (VehicleResource (vehicleId car) "updatestatus") (VBool true)
                  :: rest).
Proof.
  split.
  - intros args res w1 Hvoc. unfold Car.delayCharging. rewrite Hvoc.
    apply thenGetStatusFromCloud_trace. by intros [].
  - intros method invocation res w1 Hin Hvoc. unfold actionsBesidesDelayCharging in Hin.
    repeat (apply elem_of_cons in Hin as [[= -> ->]|Hin];
            [match goal with |- context [Car.world (?m car w)] => unfold m end;
             rewrite Hvoc; apply thenRefreshFromCar_opens; by intros []|]).
    by apply elem_of_nil in Hin.
Qed.

Lemma delayCharging_accepted_then_status :
  trace (Car.world (Car.delayCharging [VStr "7"; VBool true; VStr "22:00"; VStr "06:00"]
                      (cached "VIN" (VObj []) (VObj []) ∅ [])
                      (newWorld acceptedThenStatus))) =
    [Http PUT (VehicleChargeLocation "VIN" (VStr "7"))
          (Car.delayChargingPayload (VBool true) (VStr "22:00") (VStr "06:00"));
     Http GET (VehicleResource "VIN" "status") VUndefined].
Proof.
  destruct (delayCharging_reads_the_cloud_while_the_others_ask_the_car
              (cached "VIN" (VObj []) (VObj []) ∅ []) (newWorld acceptedThenStatus))
    as [Hdelay _].
  exact (Hdelay [VStr "7"; VBool true; VStr "22:00"; VStr "06:00"] _ _ eq_refl).
Defined.

(** ** The fleet *)

Lemma obj_keys_elem {A} (o : Obj.t A) id : id ∈ Obj.keys o <-> is_Some (o !! id).
Proof.
  unfold Obj.keys, lookup, Obj.lookup, Obj.get.
  destruct (Obj.find id (Obj.entries o)) as [v|] eqn:Hfind.
  - split; [eauto|]. intros _. apply list_elem_of_fmap. exists (id, v).
    split; [done|]. by apply obj_find_Some_elem.
  - split; [|by intros []]. intros Hin. by apply obj_find_None_keys in Hfind.
Qed.

Lemma obj_lookup_proto {A} k (v : A) o : Obj.set k v o !! "__proto__" = o !! "__proto__".
Proof.
  destruct (decide (k = "__proto__")) as [->|Hne]; [done|]. by apply obj_lookup_set_ne.
Qed.

Lemma construct_spec vehicles : forall cars0 objs0,
  let '(cars', objs', calls) := App.construct vehicles cars0 objs0 in
  objs' = objs0 ++ ((fun v => Car.create (vehicle_id v) (vehicle_name v)) <$> vehicles) /\
  calls = mjoin ((fun j => [((length objs0 + j)%nat, GetVehicleStatusFromCloud);
                           ((length objs0 + j)%nat, GetVehicleAttributes)])
                   <$> seq 0 (length vehicles)) /\
  (forall id, id ∉ (vehicle_id <$> vehicles) \/ id = "__proto__" ->
     cars' !! id = cars0 !! id) /\
  (forall id, id ∈ (vehicle_id <$> vehicles) -> id <> "__proto__" ->
     exists j v, cars' !! id = Some (length objs0 + j)%nat /\
       vehicles !! j = Some v /\ vehicle_id v = id) /\
  (NoDup (Obj.keys cars0) -> NoDup (Obj.keys cars')).
Proof.
  induction vehicles as [|v vehicles IH]; intros cars0 objs0; simpl.
  - rewrite app_nil_r. repeat split; try done. intros id Hin. by apply elem_of_nil in Hin.
  - specialize (IH (Obj.set (vehicle_id v) (length objs0) cars0)
                   (objs0 ++ [Car.create (vehicle_id v) (vehicle_name v)])).
    destruct (App.construct vehicles _ _) as [[cars' objs'] calls].
    destruct IH as (Hobjs & Hcalls & Hout & Hin & Hnodup).
    rewrite length_app in Hcalls, Hin. simpl in Hcalls, Hin.
    split; [by rewrite Hobjs, <- app_assoc|]. split.
    { rewrite Hcalls, Nat.add_0_r. simpl. do 3 f_equal.
      rewrite <- fmap_S_seq, <- list_fmap_compose.
      apply list_fmap_ext. intros _ j _. simpl.
      by replace (length objs0 + 1 + j)%nat with (length objs0 + S j)%nat by lia. }
    split; [|split].
    + intros id [Hid| ->].
      * rewrite not_elem_of_cons in Hid. destruct Hid as [Hne Hid].
        rewrite Hout by by left. by rewrite obj_lookup_set_ne.
      * rewrite Hout by by right. apply obj_lookup_proto.
    + intros id Hid Hproto.
      destruct (decide (id ∈ (vehicle_id <$> vehicles))) as [Hlater|Hlater].
      * destruct (Hin id Hlater Hproto) as (j & v' & Hj & Hv' & Hid').
        exists (S j), v'. split; [|done]. rewrite Hj. f_equal. lia.
      * apply elem_of_cons in Hid as [->|Hid]; [|done].
        exists 0%nat, v. rewrite Hout by by left.
        rewrite obj_lookup_set_eq, Nat.add_0_r by done. done.
    + intros Hnd. by apply Hnodup, obj_keys_set_NoDup.
Qed.

Lemma removedCars_spec old new ref :
  ref ∈ App.removedCars old new <-> exists id, old !! id = Some ref /\ new !! id = None.
Proof.
  unfold App.removedCars, App.removedCarIds. rewrite list_elem_of_omap. split.
  - intros (id & Hin & Hid). exists id. split; [done|].
    apply list_elem_of_In, filter_In in Hin as [_ Hnew].
    apply negb_true_iff, bool_decide_eq_false in Hnew.
    rewrite obj_keys_elem in Hnew. by destruct (new !! id); [destruct Hnew; eauto|].
  - intros (id & Hold & Hnew). exists id. split; [|done].
    apply list_elem_of_In, filter_In. split.
    + apply list_elem_of_In, obj_keys_elem. eauto.
    + apply negb_true_iff, bool_decide_eq_false. rewrite obj_keys_elem, Hnew. by intros [].
Qed.

(** Nothing is removed exactly when every key of the old fleet is a key of
    the new one. *)
Lemma removedCars_nil old new :
  App.removedCars old new = [] <-> forall id, is_Some (old !! id) -> is_Some (new !! id).
Proof.
  split.
  - intros Hnil id [ref Href]. destruct (new !! id) eqn:Hnew; [eauto|].
    assert (ref ∈ App.removedCars old new) as Hin by (apply removedCars_spec; eauto).
    rewrite Hnil in Hin. by apply elem_of_nil in Hin.
  - intros Hall. destruct (App.removedCars old new) as [|ref rest] eqn:Hrem; [done|].
    assert (ref ∈ App.removedCars old new) as Hin by (rewrite Hrem; by left).
    apply removedCars_spec in Hin as (id & Hold & Hnew).
    destruct (Hall id) as [x Hx]; [eauto|congruence].
Qed.

(** The release of a vehicle that left always throws. *)
Lemma release_spec removed app :
  App.release removed app = match removed with [] => Normal | _ => Throws "TypeError" end.
Proof. destruct removed as [|ref rest]; simpl; [done|]. by destruct (objects app !! ref). Qed.

Lemma publishChargeLocations_subscriptions car w :
  subscriptions (Publish.publishChargeLocations car w) = subscriptions w.
Proof.
  unfold Publish.publishChargeLocations.
  generalize (Obj.entries (chargeLocations car)). intros l. revert w.
  induction l as [|kv l IH]; intros w; simpl; [done|]. by rewrite IH.
Qed.

Lemma publishAll_subscriptions car w :
  subscriptions (App.publishAll car w) = subscriptions w.
Proof.
  unfold App.publishAll. simpl. by rewrite publishChargeLocations_subscriptions.
Qed.

(** [listenForChanges] hangs the publishers on the vehicles of the fleet and
    on no other object; it leaves the fleet and the subscriptions alone. *)
Lemma listen_fold l : forall app w,
  let r := foldl (fun (aw : App * World) (kv : string * nat) =>
                    match objects aw.1 !! kv.2 with
                    | Some car =>
                        (App.set_objects (<[kv.2 := App.listen car]> (objects aw.1)) aw.1,
                         App.publishAll (App.listen car) aw.2)
                    | None => aw
                    end) (app, w) l in
  cars r.1 = cars app /\
  subscriptions r.2 = subscriptions w /\
  (forall ref, vehicleId <$> objects r.1 !! ref = vehicleId <$> objects app !! ref) /\
  (forall ref, ref ∉ l.*2 -> objects r.1 !! ref = objects app !! ref).
Proof.
  induction l as [|[id r0] l IH]; intros app w; simpl; [done|].
  destruct (objects app !! r0) as [car|] eqn:Hcar.
  - specialize (IH (App.set_objects (<[r0 := App.listen car]> (objects app)) app)
                   (App.publishAll (App.listen car) w)).
    cbv zeta in IH. destruct IH as (Hcars & Hsubs & Hids & Hout).
    split; [done|]. split; [by rewrite Hsubs, publishAll_subscriptions|]. split.
    + intros ref. rewrite Hids. cbn [objects App.set_objects].
      destruct (decide (ref = r0)) as [->|Hne].
      * rewrite list_lookup_insert_eq by by eapply lookup_lt_Some. by rewrite Hcar.
      * by rewrite list_lookup_insert_ne.
    + intros ref Hnot. rewrite not_elem_of_cons in Hnot. destruct Hnot as [Hne Hnot].
      rewrite Hout by done. cbn [objects App.set_objects].
      by rewrite list_lookup_insert_ne.
  - specialize (IH app w). cbv zeta in IH. destruct IH as (Hcars & Hsubs & Hids & Hout).
    repeat split; try done. intros ref Hnot. rewrite not_elem_of_cons in Hnot.
    apply Hout. by destruct Hnot.
Qed.

Lemma listen_fold_in l : forall app w,
  NoDup l.*2 ->
  forall ref, ref ∈ l.*2 ->
    objects (foldl (fun (aw : App * World) (kv : string * nat) =>
                      match objects aw.1 !! kv.2 with
                      | Some car =>
                          (App.set_objects (<[kv.2 := App.listen car]> (objects aw.1)) aw.1,
                           App.publishAll (App.listen car) aw.2)
                      | None => aw
                      end) (app, w) l).1 !! ref
    = App.listen <$> objects app !! ref.
Proof.
  induction l as [|[id r0] l IH]; intros app w Hnodup ref Hin.
  { by apply elem_of_nil in Hin. }
  rewrite fmap_cons in Hnodup, Hin. cbn [snd] in Hnodup, Hin.
  apply NoDup_cons in Hnodup as [Hfresh Hnodup].
  cbn [foldl snd fst].
  destruct (objects app !! r0) as [car|] eqn:Hcar.
  - pose proof (listen_fold l (App.set_objects (<[r0 := App.listen car]> (objects app)) app)
                  (App.publishAll (App.listen car) w)) as Hfold.
    cbv zeta in Hfold. destruct Hfold as (_ & _ & _ & Hout).
    destruct (decide (ref = r0)) as [->|Hne].
    + rewrite Hout by done. cbn [objects App.set_objects].
      rewrite list_lookup_insert_eq by by eapply lookup_lt_Some. by rewrite Hcar.
    + apply elem_of_cons in Hin as [?|Hin]; [done|].
      rewrite IH by done. cbn [objects App.set_objects].
      by rewrite list_lookup_insert_ne.
  - pose proof (listen_fold l app w) as Hfold.
    cbv zeta in Hfold. destruct Hfold as (_ & _ & _ & Hout).
    destruct (decide (ref = r0)) as [->|Hne].
    + rewrite Hout by done. by rewrite Hcar.
    + apply elem_of_cons in Hin as [?|Hin]; [done|]. by apply IH.
Qed.

Lemma topicsOf_elem t ids :
  t ∈ App.topicsOf ids <-> exists id, id ∈ ids /\ t ∈ App.actionTopics id.
Proof.
  unfold App.topicsOf. rewrite elem_of_union_list. split.
  - intros (X & HX & Ht). apply list_elem_of_fmap in HX as (id & -> & Hid). eauto.
  - intros (id & Hid & Ht). exists (App.actionTopics id). split; [|done].
    apply list_elem_of_fmap. eauto.
Qed.

(** The 'vehicles_updated' listener, on the fleet [updateVehicles] has just
    stored: with a vehicle to release it throws and nothing else happens;
    with none it subscribes the command topics of the fleet and hangs the
    publishers on its vehicles. *)
Lemma vehiclesUpdated_spec removed app w :
  match removed with
  | [] =>
      exists app' w',
        App.vehiclesUpdated removed app w = (Normal, app', w') /\
        cars app' = cars app /\
        (forall ref, vehicleId <$> objects app' !! ref = vehicleId <$> objects app !! ref) /\
        (forall ref, ref ∉ (Obj.entries (cars app)).*2 ->
                     objects app' !! ref = objects app !! ref) /\
        (NoDup (Obj.entries (cars app)).*2 ->
         forall ref, ref ∈ (Obj.entries (cars app)).*2 ->
                     objects app' !! ref = App.listen <$> objects app !! ref) /\
        (forall t, t ∈ subscriptions w' <->
           t ∈ subscriptions w \/ exists id, is_Some (cars app !! id) /\ t ∈ App.actionTopics id)
  | _ => App.vehiclesUpdated removed app w = (Throws "TypeError", app, w)
  end.
Proof.
  unfold App.vehiclesUpdated. rewrite release_spec.
  destruct removed as [|ref rest]; [|done].
  unfold App.listenForChanges.
  set (w2 := App.subscribeForActions app (App.unsubscribeForActions _ w)).
  pose proof (listen_fold (Obj.entries (cars app)) app w2) as Hfold.
  pose proof (listen_fold_in (Obj.entries (cars app)) app w2) as Hfleet.
  cbv zeta in Hfold. destruct Hfold as (Hcars & Hsubs & Hids & Hout).
  destruct (foldl _ (app, w2) (Obj.entries (cars app))) as [app' w'] eqn:Hrun.
  cbn [fst snd] in *.
  exists app', w'. repeat split; try done.
  - intros Ht. rewrite Hsubs in Ht. subst w2.
    unfold App.subscribeForActions, App.unsubscribeForActions in Ht.
    cbn [subscriptions set_subscriptions omap list_omap fmap list_fmap] in Ht.
    apply elem_of_union in Ht as [Ht|Ht].
    + left. by apply elem_of_difference in Ht as [Ht _].
    + right. apply topicsOf_elem in Ht as (id & Hid & Ht).
      exists id. split; [|done]. by apply obj_keys_elem.
  - intros Ht. rewrite Hsubs. subst w2.
    unfold App.subscribeForActions, App.unsubscribeForActions.
    cbn [subscriptions set_subscriptions omap list_omap fmap list_fmap].
    apply elem_of_union. destruct Ht as [Ht|(id & Hid & Ht)].
    + left. apply elem_of_difference. split; [done|].
      unfold App.topicsOf. simpl. set_solver.
    + right. apply topicsOf_elem. exists id. split; [|done]. by apply obj_keys_elem.
Qed.

(** C2 as stated fails: B stays on the account, and still the refresh builds
    a new object for it.  The fleet's B is object 1 before and object 2
    after; object 1 is dropped from the fleet as it is, and the constructor
    has started its fetches for the new B as it has for C. *)
Lemma refresh_reconstructs_a_vehicle_that_stays :
  cars (App.self fleetAB) !! "B" = Some 1%nat /\
  cars (App.self fleetBC) !! "B" = Some 2%nat /\
  App.started fleetBC =
    [(2%nat, GetVehicleStatusFromCloud); (2%nat, GetVehicleAttributes);
     (3%nat, GetVehicleStatusFromCloud); (3%nat, GetVehicleAttributes)] /\
  objects (App.self fleetBC) !! 1%nat = objects (App.self fleetAB) !! 1%nat.
Proof. repeat split; vm_compute; reflexivity. Qed.

(** C2, amended. A fleet refresh builds the new fleet from the listing alone:
    its keys are the listed ids (an id [__proto__] would name the prototype
    and gives no key), and every one of them, whether or not it was on the
    account before, refers to an object constructed in this refresh, which
    carries that id.  When no vehicle of the old fleet is missing from the new
    one, the refresh ends normally and has subscribed the command topics of
    the fleet: a topic is subscribed afterwards exactly when it was before or
    is a command topic of a vehicle of the new fleet. *)
Theorem updateVehicles_rebuilds_the_fleet vehicles app w :
  (forall id, is_Some (cars (App.self (App.updateVehicles vehicles app w)) !! id) <->
              id ∈ (vehicle_id <$> vehicles) /\ id <> "__proto__") /\
  (forall id ref,
     cars (App.self (App.updateVehicles vehicles app w)) !! id = Some ref ->
     (length (objects app) <= ref)%nat /\
     exists car, objects (App.self (App.updateVehicles vehicles app w)) !! ref = Some car /\
                 vehicleId car = id) /\
  ((forall id, is_Some (cars app !! id) ->
               is_Some (cars (App.self (App.updateVehicles vehicles app w)) !! id)) ->
   App.completion (App.updateVehicles vehicles app w) = Normal /\
   forall t,
     t ∈ subscriptions (App.world (App.updateVehicles vehicles app w)) <->
     t ∈ subscriptions w \/
     exists id, is_Some (cars (App.self (App.updateVehicles vehicles app w)) !! id) /\
                t ∈ App.actionTopics id).
Proof.
  unfold App.updateVehicles.
  pose proof (construct_spec vehicles Obj.empty (objects app)) as Hconstruct.
  destruct (App.construct vehicles Obj.empty (objects app)) as [[cars' objs'] calls].
  destruct Hconstruct as (Hobjs & _ & Hout & Hin & _).
  set (app1 := App.set_cars cars' (App.set_objects objs' app)).
  pose proof (vehiclesUpdated_spec (App.removedCars (cars app) cars') app1 w) as Hupd.
  pose proof (removedCars_nil (cars app) cars') as Hnil.
  assert (forall id, is_Some (cars' !! id) <->
                     id ∈ (vehicle_id <$> vehicles) /\ id <> "__proto__") as Hdom.
  { intros id. split.
    - intros Hsome.
      destruct (decide (id ∈ (vehicle_id <$> vehicles))) as [Hyes|Hnot];
        [destruct (decide (id = "__proto__")) as [->|Hne]; [|done]|].
      + rewrite (Hout "__proto__") in Hsome by by right. by destruct Hsome.
      + rewrite (Hout id) in Hsome by by left. by destruct Hsome.
    - intros [Hid Hne]. destruct (Hin id Hid Hne) as (j & v & -> & _). eauto. }
  assert (forall id ref, cars' !! id = Some ref ->
            (length (objects app) <= ref)%nat /\
            exists v, objs' !! ref = Some (Car.create (vehicle_id v) (vehicle_name v)) /\
                      vehicle_id v = id) as Hnew.
  { intros id ref Href.
    destruct (Hdom id) as [Hlisted _]. destruct Hlisted as [Hid Hne]; [eauto|].
    destruct (Hin id Hid Hne) as (j & v & Hj & Hv & Hidv).
    rewrite Hj in Href. injection Href as <-. split; [lia|]. exists v. split; [|done].
    rewrite Hobjs, lookup_app_r by lia.
    replace (length (objects app) + j - length (objects app))%nat with j by lia.
    by rewrite list_lookup_fmap, Hv. }
  destruct (App.removedCars (cars app) cars') as [|gone rest].
  - destruct Hupd as (app' & w' & -> & Hcars & Hids & _ & _ & Hsubs).
    cbn [App.self App.world App.completion]. rewrite Hcars.
    cbn [cars app1 App.set_cars App.set_objects].
    split; [exact Hdom|]. split.
    + intros id ref Href. destruct (Hnew id ref Href) as (Hge & v & Hv & Hid).
      split; [done|]. specialize (Hids ref).
      cbn [objects app1 App.set_cars App.set_objects] in Hids.
      rewrite Hv in Hids. simpl in Hids.
      destruct (objects app' !! ref) as [car|]; [|done]. exists car. split; [done|].
      injection Hids as ->. done.
    + intros _. split; [done|]. exact Hsubs.
  - rewrite Hupd. cbn [App.self App.world App.completion cars objects app1
                         App.set_cars App.set_objects].
    split; [exact Hdom|]. split.
    + intros id ref Href. destruct (Hnew id ref Href) as (Hge & v & Hv & Hid).
      split; [done|]. rewrite Hv. eexists. split; [done|]. done.
    + intros Hstay. apply Hnil in Hstay. discriminate Hstay.
Qed.

Lemma first_refresh_subscribes_A_and_B :
  App.completion fleetAB = Normal /\
  "volvooncall/B/lock" ∈ subscriptions (App.world fleetAB).
Proof.
  destruct (updateVehicles_rebuilds_the_fleet [listed "A"; listed "B"] initialApp
              (App.mqttConnected initialApp (newWorld (always "x"))))
    as (_ & _ & Hstay).
  destruct Hstay as [Hnormal Hsubs].
  { intros id [ref Href]. discriminate Href. }
  split; [exact Hnormal|].
  apply Hsubs. right. exists "B". split; [by exists 1%nat|].
  unfold App.actionTopics. set_solver.
Defined.

(** ** Inbound commands *)

(** The first request of a delay-charging is its PUT. *)
Lemma delayCharging_opens args car w :
  exists rest,
    trace (Car.world (Car.delayCharging args car w)) =
      trace w ++ Http PUT (VehicleChargeLocation (vehicleId car) (argument 0 args))
                   (Car.delayChargingPayload (argument 1 args) (argument 2 args)
                      (argument 3 args)) :: rest.
Proof.
  unfold Car.delayCharging.
  set (payload := Car.delayChargingPayload _ _ _).
  assert (exists rest,
            trace (VOC.delayCharging (vehicleId car) (argument 0 args) payload w).2 =
              trace w ++ Http PUT (VehicleChargeLocation (vehicleId car) (argument 0 args))
                           payload :: rest) as [rest Hvoc].
  { destruct (cloud w (requests w)) as [status|reason] eqn:Hreply.
    - destruct (prop status "service") as [svc|] eqn:Hsvc.
      + rewrite (delayCharging_submitted _ _ _ _ _ _ Hreply Hsvc).
        destruct (truthy svc); [|simpl; eauto].
        destruct svc; simpl; eauto.
        destruct (await_settles (vehicleId car) (VStr (after_last_slash s))
                    (submitted (vehicleId car) (argument 0 args) payload w))
          as (n & w2 & _ & _ & Hw2 & [[b ->]|[r ->]]); simpl;
          rewrite (polled_trace _ _ _ _ _ Hw2); simpl; rewrite <- app_assoc; simpl; eauto.
      + unfold VOC.delayCharging, VOC.reportError, Api.delayCharging, putVOCCommand, http,
          catch, andThen, read. rewrite Hreply, Hsvc. simpl. eauto.
    - unfold VOC.delayCharging, VOC.reportError, Api.delayCharging, putVOCCommand, http,
        catch, andThen. rewrite Hreply. simpl. eauto. }
  destruct (VOC.delayCharging _ _ _ w) as [[res|reason] w1]; simpl in Hvoc.
  - rewrite thenGetStatusFromCloud_trace by by intros [].
    rewrite Hvoc, <- app_assoc. simpl. eauto.
  - simpl. eauto.
Qed.

(** C6, the code at the failing inputs. An unrecognized action is dropped:
    [handleMessage] returns and starts nothing.  But a command for a vehicle
    id that is not in the fleet throws a TypeError out of [handleMessage]
    (the call is made on [self.cars[id]], which is undefined), and a
    delay-charging command whose payload [JSON.parse] rejects throws its
    SyntaxError out of [handleMessage]; nothing catches either. *)
Theorem handleMessage_throws_on_unknown_vehicle_and_bad_payload
    (JSON_parse : string -> option value) (payload : string) :
  (App.completion
     (App.handleMessage JSON_parse
        "volvooncall/VIN1/openSunroof" payload (App.self garage) (App.world garage)) = Normal /\
   App.started
     (App.handleMessage JSON_parse
        "volvooncall/VIN1/openSunroof" payload (App.self garage) (App.world garage)) = []) /\
  App.completion
    (App.handleMessage JSON_parse
       "volvooncall/VIN9/startCharging" payload (App.self garage) (App.world garage)) =
    Throws "TypeError" /\
  (JSON_parse payload = None ->
   App.completion
     (App.handleMessage JSON_parse
        "volvooncall/VIN1/delayCharging" payload (App.self garage) (App.world garage)) =
     Throws "SyntaxError") /\
  (forall id app w,
     cars app !! id = None ->
     App.completion (App.startCharging id payload app w) = Throws "TypeError" /\
     (forall params, JSON_parse payload = Some params ->
        App.completion (App.delayCharging JSON_parse id payload app w) = Throws "TypeError")).
Proof.
  split; [split; reflexivity|]. split; [reflexivity|]. split.
  - intros Hparse. unfold App.handleMessage. cbn -[garage]. unfold App.delayCharging.
    by rewrite Hparse.
  - intros id app w Hid. split.
    + unfold App.startCharging, App.callOn. by rewrite Hid.
    + intros params Hparse. unfold App.delayCharging. by rewrite Hparse, Hid.
Qed.

(** * Further properties *)

(** ** The loop counter *)

Lemma runFor_loop_counter fuel : forall func interval done counter w,
  0 <= counter <= 15 ->
  match (runFor_loop fuel func interval done counter w).1 with
  | Resolved c =>
      counter <= c <= 15 /\ (done = false -> counter < 15 -> counter < c)
  | Rejected _ => True
  end.
Proof.
  induction fuel as [|fuel IH]; intros func interval done counter w Hc.
  - simpl. destruct (negb done && (counter <? 15)) eqn:Hcond; simpl; [done|].
    split; [lia|]. intros -> Hlt. simpl in Hcond.
    apply Z.ltb_ge in Hcond. lia.
  - destruct done.
    { rewrite runFor_loop_done. simpl. split; [lia|done]. }
    destruct (Z.ltb_spec counter 15) as [Hlt|Hge].
    2:{ simpl. replace (counter <? 15) with false by (symmetry; apply Z.ltb_ge; lia).
        simpl. split; [lia|]. intros _ ?. lia. }
    rewrite runFor_loop_turn by done.
    destruct ((timeoutPromise interval;; func) w) as [[response|r] w1]; [|done].
    rewrite !runFor_loop_done.
    destruct (is_str response "Successful"); [simpl; lia|].
    destruct (is_str response "Failed"); [simpl; lia|].
    specialize (IH func interval false (counter + 1) w1 ltac:(lia)).
    destruct (runFor_loop fuel func interval false (counter + 1) w1).1; [|done].
    lia.
Qed.

(** X1. However the status requests settle, [runFor] leaves its loop with a
    counter between 1 and 15: the test [counter > 15] that guards its
    "didn't get a status back" message never holds, so running out of
    attempts is told apart from nothing but the [false] result. *)
Theorem runFor_never_counts_past_its_budget func interval w :
  match (runFor_loop 15 func interval false 0 w).1 with
  | Resolved counter => 1 <= counter <= 15 /\ (15 <? counter) = false
  | Rejected _ => True
  end.
Proof.
  pose proof (runFor_loop_counter 15 func interval false 0 w ltac:(lia)) as H.
  destruct (runFor_loop 15 func interval false 0 w).1 as [c|]; [|done].
  destruct H as [H1 H2]. specialize (H2 eq_refl ltac:(lia)).
  split; [lia|]. apply Z.ltb_ge. lia.
Qed.

(** ** A poll that fails *)

Lemma runFor_loop_aborted vid sid fuel counter w :
  reply_status (cloud w (requests w)) = None ->
  counter < 15 ->
  exists w' reason, polled vid sid 1 w w' /\
    runFor_loop (S fuel) (getServiceInvocationStatus vid sid) 1000 false counter w =
      (Rejected reason, w') /\
    reason = match cloud w (requests w) with
             | HttpReject r => r
             | HttpResolve _ => "getServiceInvocationStatus, api_error"
             end.
Proof.
  intros Hnone Hc.
  destruct (round_settles vid sid w) as (w1 & Hw1 & Hround).
  rewrite runFor_loop_turn by done. rewrite Hround.
  unfold reply_status in Hnone.
  destruct (cloud w (requests w)) as [data|r]; [|eauto 10].
  destruct (truthy data) eqn:Ht; [|eauto 10].
  rewrite Hnone. exfalso.
  destruct data; simpl in *; discriminate.
Qed.

(** X2. A status request that is rejected, or that resolves with no data,
    ends the wait at once: after [k] non-terminal statuses and then such a
    reply the wait rejects, with the transport's reason or with
    'getServiceInvocationStatus, api_error', after exactly [k + 1] polls, and
    the success flag is as it was. *)
Theorem failed_poll_aborts_the_wait vid sid w k :
  truthy sid = true -> (k < 15)%nat ->
  (forall i, (i < k)%nat -> pending (cloud w (requests w + i)) = true) ->
  reply_status (cloud w (requests w + k)) = None ->
  outcome vid sid w =
    Rejected (match cloud w (requests w + k) with
              | HttpReject r => r
              | HttpResolve _ => "getServiceInvocationStatus, api_error"
              end) /\
  trace (after vid sid w) = trace w ++ polls vid sid (S k) /\
  requests (after vid sid w) = (requests w + S k)%nat /\
  _serviceInvocationSuccess (after vid sid w) = _serviceInvocationSuccess w.
Proof.
  intros Hs Hk Hp Hnone. unfold outcome, after. rewrite await_unfold by done.
  destruct (runFor_loop_pending vid sid k (15 - k) 0 w Hp ltac:(lia)) as (w1 & Hw1 & Hloop).
  replace (k + (15 - k))%nat with 15%nat in Hloop by lia.
  rewrite Z.add_0_l in Hloop. rewrite Hloop.
  assert (cloud w1 (requests w1) = cloud w (requests w + k)) as Hsame.
  { destruct Hw1 as [-> -> _ _ _ _ _]. done. }
  destruct (runFor_loop_aborted vid sid (15 - k - 1) (Z.of_nat k) w1)
    as (w2 & reason & Hw2 & Hend & ->).
  { by rewrite Hsame. }
  { lia. }
  replace (S (15 - k - 1)) with (15 - k)%nat in Hend by lia.
  rewrite Hend, Hsame. simpl.
  pose proof (polled_trans _ _ _ _ _ _ _ Hw1 Hw2) as Hw.
  replace (k + 1)%nat with (S k) in Hw by lia.
  destruct Hw. repeat split; try done.
Qed.

Lemma failed_poll_after_one_pending :
  outcome "VIN" (VStr "svc-1")
    (newWorld (fun n => match n with
                        | 0%nat => HttpResolve (VObj [("status", VStr "Started")])
                        | _ => HttpReject "ETIMEDOUT"
                        end)) = Rejected "ETIMEDOUT" /\
  trace (after "VIN" (VStr "svc-1")
    (newWorld (fun n => match n with
                        | 0%nat => HttpResolve (VObj [("status", VStr "Started")])
                        | _ => HttpReject "ETIMEDOUT"
                        end))) = polls "VIN" (VStr "svc-1") 2.
Proof.
  destruct (failed_poll_aborts_the_wait "VIN" (VStr "svc-1")
    (newWorld (fun n => match n with
                        | 0%nat => HttpResolve (VObj [("status", VStr "Started")])
                        | _ => HttpReject "ETIMEDOUT"
                        end)) 1%nat eq_refl) as (H1 & H2 & _).
  - lia.
  - intros [|i] Hi; [reflexivity|lia].
  - reflexivity.
  - split; [exact H1|exact H2].
Defined.

(** ** What an action announces *)

(** X3. Every remote action written on the common chain announces how it
    settled before it settles: when it resolves with [result], the last event
    on the VOC emitter is 'car_action_status' with the action's name and that
    result; when it rejects, at submission, for want of a service id or in
    polling, the last event is 'voc_api_error' with the very reason it
    rejects with. *)
Theorem every_action_announces_its_outcome action vid submit w :
  match VOC.invoke action vid submit w with
  | (Resolved result, w') =>
      last (emitted w') =
        Some (refreshEventName, VObj [("action", VStr action); ("result", VBool result)])
  | (Rejected reason, w') =>
      last (emitted w') = Some (apiErrorEventName, VStr reason)
  end.
Proof.
  destruct (submit w) as [[status|reason] w1] eqn:Hsubmit.
  - destruct (prop status "customerServiceId") as [sid|] eqn:Hsid.
    + rewrite (invoke_submitted _ _ _ _ _ _ _ Hsubmit Hsid).
      destruct (awaitSuccessfulServiceInvocation vid sid w1) as [[b|r] w2];
        simpl; apply last_snoc.
    + unfold VOC.invoke, VOC.reportError, catch, andThen, read.
      rewrite Hsubmit, Hsid. simpl. apply last_snoc.
  - unfold VOC.invoke, VOC.reportError, catch, andThen.
    rewrite Hsubmit. simpl. apply last_snoc.
Qed.

(** ** The segment after the last slash *)

Lemma last_slash_decomposition s :
  has_char "/" s = false \/
  exists pre seg, s = pre +:+ String "/" seg /\ has_char "/" seg = false.
Proof.
  induction s as [|a s IH]; [by left|].
  destruct IH as [Hnone|(pre & seg & -> & Hseg)].
  - destruct (Ascii.eqb a "/") eqn:Ha.
    + right. apply Ascii.eqb_eq in Ha as ->. exists "", s. done.
    + left. simpl. by rewrite Ha.
  - right. exists (String a pre), seg. done.
Qed.

Lemma after_last_slash_no_slash s : has_char "/" (after_last_slash s) = false.
Proof.
  destruct (last_slash_decomposition s) as [Hnone|(pre & seg & -> & Hseg)].
  - by rewrite after_last_slash_whole.
  - by rewrite after_last_slash_segment.
Qed.

(** X4. The id cut out of a resource reference by
    [substring(lastIndexOf('/') + 1)] never contains a ['/'] and is a suffix
    of the reference; it is the whole reference exactly when that has no
    ['/'], and it is empty when the reference ends in ['/']. *)
Theorem after_last_slash_is_the_slash_free_suffix s :
  has_char "/" (after_last_slash s) = false /\
  (exists pre, s = pre +:+ after_last_slash s) /\
  (has_char "/" s = false -> after_last_slash s = s) /\
  after_last_slash (s +:+ "/") = "".
Proof.
  split; [|split; [|split]].
  - apply after_last_slash_no_slash.
  - destruct (last_slash_decomposition s) as [Hnone|(pre & seg & -> & Hseg)].
    + exists "". by rewrite after_last_slash_whole.
    + rewrite after_last_slash_segment by done. exists (pre +:+ "/").
      clear. induction pre as [|a pre IH]; [done|].
      change (String a (pre +:+ String "/" seg) = String a ((pre +:+ "/") +:+ seg)).
      by f_equal.
  - apply after_last_slash_whole.
  - apply (after_last_slash_segment s ""). done.
Qed.

(** ** Logging in *)

(** X5. [VOC.prototype.login] sends the one request for the customer account
    and emits nothing.  It resolves only with an account the cloud resolved
    with and whose [errorLabel] is falsy; whatever else happens (a transport
    error, an error label, an empty reply) it rejects with
    'invalid_user_password', the cause being dropped. *)
Theorem login_reports_every_failure_as_invalid_password w :
  trace (Account.prototype_login w).2 = trace w ++ [Http GET CustomerAccounts VUndefined] /\
  requests (Account.prototype_login w).2 = S (requests w) /\
  emitted (Account.prototype_login w).2 = emitted w /\
  match (Account.prototype_login w).1 with
  | Resolved account =>
      cloud w (requests w) = HttpResolve account /\
      exists errorLabel, prop account "errorLabel" = Some errorLabel /\
                         truthy errorLabel = false
  | Rejected reason => reason = "invalid_user_password"
  end.
Proof.
  unfold Account.prototype_login, Account.login, getVOCCommand, http, catch, andThen, read.
  destruct (cloud w (requests w)) as [account|reason]; simpl; [|done].
  destruct (prop account "errorLabel") as [errorLabel|] eqn:Hlabel; simpl; [|done].
  destruct (truthy errorLabel) eqn:Ht; simpl; [done|]. eauto 10.
Qed.

(** ** The cache of charge locations *)

Section ChargeLocationsProperties.

Variable Number_toString : Q -> string.
Variable String_toNumber : string -> option Q.

Lemma locationId_no_slash item k :
  ChargeLocations.locationId item = Some k -> has_char "/" k = false.
Proof.
  unfold ChargeLocations.locationId.
  destruct (prop item "chargeLocation") as [[| | | |s| |]|]; simpl; try done.
  intros [= <-]. apply after_last_slash_no_slash.
Qed.

Lemma assign_lookup key entry acc (k : string) :
  ChargeLocations.assign key entry acc !! k =
    if decide (key = k /\ k <> "__proto__") then Some entry else acc !! k.
Proof.
  unfold ChargeLocations.assign.
  destruct (decide _) as [[<- Hne]|Hn].
  - by apply obj_lookup_set_eq.
  - destruct (decide (key = k)) as [<-|Hkey]; [|by apply obj_lookup_set_ne].
    destruct (decide (key = "__proto__")) as [->|Hproto]; [done|]. by destruct Hn.
Qed.

Lemma collect_spec items : forall acc m,
  ChargeLocations.collect Number_toString items acc = Some m ->
  forall k,
    (exists i item label,
        items !! i = Some item /\
        ChargeLocations.locationId item = Some k /\
        k <> "__proto__" /\
        ChargeLocations.locationName Number_toString item = Some label /\
        m !! k = Some (mkChargeLocation k label item) /\
        forall j later, (i < j)%nat -> items !! j = Some later ->
                        ChargeLocations.locationId later <> Some k)
    \/ ((forall item, item ∈ items -> ChargeLocations.locationId item = Some k ->
                       k = "__proto__") /\
        m !! k = acc !! k).
Proof.
  induction items as [|item items IH]; intros acc m Hm k.
  - right. simpl in Hm. injection Hm as <-. split; [|done].
    intros item Hin. by apply elem_of_nil in Hin.
  - simpl in Hm.
    destruct (ChargeLocations.locationName Number_toString item) as [label|] eqn:Hname;
      [|done].
    destruct (ChargeLocations.locationId item) as [key|] eqn:Hkey; [|done].
    simpl in Hm.
    destruct (IH _ _ Hm k) as [(i & it & lb & Hi & Hid & Hne & Hlb & Hlook & Hlast)|[Hnone Hlook]].
    + left. exists (S i), it, lb. repeat split; try done.
      intros [|j] later Hlt Hj; [lia|]. apply (Hlast j); [lia|done].
    + rewrite assign_lookup in Hlook.
      destruct (decide _) as [[-> Hne]|Hn].
      * left. exists 0%nat, item, label. repeat split; try done.
        intros [|j] later Hlt Hj Hlater; [lia|]. simpl in Hj.
        apply Hne, (Hnone later); [|done]. by eapply list_elem_of_lookup_2.
      * right. split; [|done].
        intros it Hin Hit. apply elem_of_cons in Hin as [->|Hin]; [|by eapply Hnone].
        rewrite Hkey in Hit. injection Hit as ->.
        destruct (decide (k = "__proto__")) as [|Hk]; [done|]. by destruct Hn.
Qed.

Lemma collect_throws items : forall acc,
  ChargeLocations.collect Number_toString items acc = None ->
  exists item, item ∈ items /\
    (ChargeLocations.locationName Number_toString item = None \/
     ChargeLocations.locationId item = None).
Proof.
  induction items as [|item items IH]; intros acc Hm; [done|].
  simpl in Hm.
  destruct (ChargeLocations.locationName Number_toString item) as [label|] eqn:Hname.
  - destruct (ChargeLocations.locationId item) as [key|] eqn:Hkey.
    + simpl in Hm. destruct (IH _ Hm) as (it & Hin & Hit).
      exists it. split; [by apply elem_of_cons; right|done].
    + exists item. split; [by apply elem_of_cons; left|by right].
  - exists item. split; [by apply elem_of_cons; left|by left].
Qed.

(** X6. [updateChargeLocations] on a listing that is an array replaces the
    cache wholesale and touches nothing else of the vehicle.  Afterwards the
    cache holds an entry under [k] exactly for the ids [k] the listing names
    (the segment after the last ['/'] of a [chargeLocation] reference, so
    never containing a ['/']); the entry carries that id, and the name and
    the cloud data of the LAST item of the listing with that id.  An item
    whose name or reference cannot be read makes the call throw and leaves the
    vehicle as it was.  The one id that is never cached is ['__proto__']. *)
Theorem updateChargeLocations_caches_exactly_the_listing items car :
  match ChargeLocations.updateChargeLocations Number_toString String_toNumber
          (VArr items) car with
  | (Normal, car') =>
      car' = ChargeLocations.set_chargeLocations (chargeLocations car') car /\
      forall k,
        match chargeLocations car' !! k with
        | Some entry =>
            id entry = k /\ k <> "__proto__" /\ has_char "/" k = false /\
            exists i,
              items !! i = Some (location entry) /\
              ChargeLocations.locationId (location entry) = Some k /\
              ChargeLocations.locationName Number_toString (location entry)
                = Some (name entry) /\
              forall j later, (i < j)%nat -> items !! j = Some later ->
                              ChargeLocations.locationId later <> Some k
        | None =>
            forall item, item ∈ items -> ChargeLocations.locationId item = Some k ->
                         k = "__proto__"
        end
  | (Throws _, car') =>
      car' = car /\
      exists item, item ∈ items /\
        (ChargeLocations.locationName Number_toString item = None \/
         ChargeLocations.locationId item = None)
  end.
Proof.
  unfold ChargeLocations.updateChargeLocations.
  destruct (ChargeLocations.collect Number_toString items Obj.empty) as [m|] eqn:Hm.
  - split; [done|]. intros k. cbn [chargeLocations ChargeLocations.set_chargeLocations].
    destruct (collect_spec _ _ _ Hm k)
      as [(i & item & label & Hi & Hid & Hne & Hlb & Hlook & Hlast)|[Hnone Hlook]].
    + rewrite Hlook. cbn [id name location]. repeat split; try done.
      * by eapply locationId_no_slash.
      * by exists i.
    + rewrite Hlook, obj_lookup_empty. done.
  - split; [done|]. by eapply collect_throws.
Qed.

End ChargeLocationsProperties.

(** ** The vehicle's fetches *)

Lemma updateDistances_frame car w :
  (Car.updateDistances car w).1.2 =
    Car.set_distances (distances (Car.updateDistances car w).1.2) car.
Proof.
  unfold Car.updateDistances. destruct car. cbn [position].
  repeat (case_match; try done).
Qed.

Lemma callback_frame cb car w :
  Car.self (Car.callback cb car w) =
    Car.set_distances (distances (Car.self (Car.callback cb car w))) car.
Proof.
  destruct cb; simpl; try (by destruct car).
  - by destruct (Car.isChargingSupported car), (Car.isPositionSupported car); destruct car.
  - pose proof (updateDistances_frame car w) as H.
    by destruct (Car.updateDistances car w) as [[c car'] w'].
  - pose proof (updateDistances_frame car w) as H.
    by destruct (Car.updateDistances car w) as [[c car'] w'].
Qed.

Lemma callbacks_frame cbs : forall car w,
  Car.self (Car.callbacks cbs car w) =
    Car.set_distances (distances (Car.self (Car.callbacks cbs car w))) car.
Proof.
  induction cbs as [|cb cbs IH]; intros car w; simpl; [by destruct car|].
  pose proof (callback_frame cb car w) as Hcb.
  destruct (Car.completion (Car.callback cb car w)); [|done].
  simpl. rewrite IH at 1. rewrite Hcb at 2. done.
Qed.

Lemma emit_frame event car w :
  Car.self (Car.emit event car w) =
    Car.set_distances (distances (Car.self (Car.emit event car w))) car.
Proof. apply callbacks_frame. Qed.

Lemma callbacks_started cbs : forall car w,
  OnAttributesUpdated ∉ cbs -> Car.started (Car.callbacks cbs car w) = [].
Proof.
  induction cbs as [|cb cbs IH]; intros car w Hnot; simpl; [done|].
  apply not_elem_of_cons in Hnot as [Hcb Hnot].
  assert (Car.started (Car.callback cb car w) = []) as Hnone.
  { destruct cb; simpl; try done;
      by destruct (Car.updateDistances car w) as [[c car'] w']. }
  destruct (Car.completion (Car.callback cb car w)); [|done].
  simpl. by rewrite Hnone, IH.
Qed.

Lemma emit_started event car w :
  event <> "attributes_updated" -> Car.started (Car.emit event car w) = [].
Proof.
  intros Hne. apply callbacks_started. unfold Car.emit.
  intros Hin. apply list_elem_of_In, filter_In in Hin as [_ Hev].
  apply String.eqb_eq in Hev. simpl in Hev. congruence.
Qed.

Lemma callbacks_carEmitted cbs : forall car w,
  exists rest, carEmitted (Car.world (Car.callbacks cbs car w)) = carEmitted w ++ rest.
Proof.
  induction cbs as [|cb cbs IH]; intros car w; simpl.
  { exists []. by rewrite app_nil_r. }
  assert (exists rest, carEmitted (Car.world (Car.callback cb car w)) = carEmitted w ++ rest)
    as [rest Hcb].
  { assert (exists rest, carEmitted (Car.updateDistances car w).2 = carEmitted w ++ rest)
      as Hupd.
    { unfold Car.updateDistances.
      repeat (case_match; try (exists []; by rewrite app_nil_r)). simpl. eauto. }
    destruct cb; simpl; try (exists []; by rewrite app_nil_r).
    - destruct (Car.isChargingSupported car), (Car.isPositionSupported car);
        exists []; by rewrite app_nil_r.
    - by destruct (Car.updateDistances car w) as [[c car'] w'].
    - by destruct (Car.updateDistances car w) as [[c car'] w'].
    - exists []. rewrite app_nil_r. clear. unfold Publish.publishChargeLocations.
      generalize (Obj.entries (chargeLocations car)). intros l. revert w.
      induction l as [|kv l IHl]; intros w; simpl; [done|]. by rewrite IHl. }
  destruct (Car.completion (Car.callback cb car w)); [|eauto].
  simpl. destruct (IH (Car.self (Car.callback cb car w)) (Car.world (Car.callback cb car w)))
    as [rest' ->].
  rewrite Hcb, <- app_assoc. eauto.
Qed.

Lemma emit_carEmitted event car w :
  exists rest,
    carEmitted (Car.world (Car.emit event car w)) = carEmitted w ++ (vehicleId car, event) :: rest.
Proof.
  unfold Car.emit.
  match goal with |- context [Car.callbacks ?l ?c ?w0] =>
    destruct (callbacks_carEmitted l c w0) as [rest ->] end.
  simpl. rewrite <- app_assoc. eauto.
Qed.

Lemma getVehicleAttributes_reply vid w :
  VOC.getVehicleAttributes vid w =
    match cloud w (requests w) with
    | HttpResolve data =>
        (Resolved data,
         set_emitted (fun l => l ++ [("car_attributes_update", data)])
           (requested GET (VehicleResource vid "attributes") VUndefined w))
    | HttpReject reason =>
        (Rejected reason,
         set_emitted (fun l => l ++ [(apiErrorEventName, VStr reason)])
           (requested GET (VehicleResource vid "attributes") VUndefined w))
    end.
Proof.
  unfold VOC.getVehicleAttributes, VOC.reportError, Api.getVehicleAttributes, getVOCCommand,
    http, catch, andThen.
  by destruct (cloud w (requests w)).
Qed.

Lemma getVehicleStatusFromCloud_reply vid w :
  VOC.getVehicleStatusFromCloud vid w =
    match cloud w (requests w) with
    | HttpResolve data =>
        (Resolved data,
         set_emitted (fun l => l ++ [("car_status_update", data)])
           (requested GET (VehicleResource vid "status") VUndefined w))
    | HttpReject reason =>
        (Rejected reason,
         set_emitted (fun l => l ++ [(apiErrorEventName, VStr reason)])
           (requested GET (VehicleResource vid "status") VUndefined w))
    end.
Proof.
  unfold VOC.getVehicleStatusFromCloud, VOC.reportError, Api.getVehicleStatusFromCloud,
    getVOCCommand, http, catch, andThen.
  by destruct (cloud w (requests w)).
Qed.

Lemma getVehiclePosition_reply vid w :
  VOC.getVehiclePosition vid w =
    match cloud w (requests w) with
    | HttpResolve data =>
        match prop data "position" with
        | Some position =>
            (Resolved position,
             set_emitted (fun l => l ++ [("car_position_update", position)])
               (requested GET (VehicleResource vid Api.positionQuery) VUndefined w))
        | None =>
            (Rejected "TypeError",
             set_emitted (fun l => l ++ [(apiErrorEventName, VStr "TypeError")])
               (requested GET (VehicleResource vid Api.positionQuery) VUndefined w))
        end
    | HttpReject reason =>
        (Rejected reason,
         set_emitted (fun l => l ++ [(apiErrorEventName, VStr reason)])
           (requested GET (VehicleResource vid Api.positionQuery) VUndefined w))
    end.
Proof.
  unfold VOC.getVehiclePosition, VOC.reportError, Api.getVehiclePosition, getVOCCommand,
    http, catch, andThen, read.
  destruct (cloud w (requests w)) as [data|reason]; [|done].
  by destruct (prop data "position").
Qed.

Lemma getVehicleChargeLocations_reply vid w :
  VOC.getVehicleChargeLocations vid w =
    match cloud w (requests w) with
    | HttpResolve data =>
        match prop data "chargingLocations" with
        | Some listing =>
            (Resolved (or_else listing data),
             set_emitted (fun l => l ++ [("car_charge_locations", or_else listing data)])
               (requested GET (VehicleResource vid "chargeLocations?status=Accepted")
                  VUndefined w))
        | None =>
            (Rejected "TypeError",
             set_emitted (fun l => l ++ [(apiErrorEventName, VStr "TypeError")])
               (requested GET (VehicleResource vid "chargeLocations?status=Accepted")
                  VUndefined w))
        end
    | HttpReject reason =>
        (Rejected reason,
         set_emitted (fun l => l ++ [(apiErrorEventName, VStr reason)])
           (requested GET (VehicleResource vid "chargeLocations?status=Accepted")
              VUndefined w))
    end.
Proof.
  unfold VOC.getVehicleChargeLocations, VOC.reportError, Api.getVehicleChargeLocations,
    getVOCCommand, http, catch, andThen, read.
  destruct (cloud w (requests w)) as [data|reason]; [|done].
  by destruct (prop data "chargingLocations").
Qed.

(** X8. A fetch the cloud rejects leaves the vehicle exactly as it was: the
    attributes, status and position fetches each send their one GET, the
    client announces 'voc_api_error' with the reason, and the vehicle keeps
    every cached facet, emits no event of its own, publishes nothing and
    starts no further call.  The same holds for the position fetch when the
    body is [null] or [undefined], the reason then being the TypeError of
    reading [data.position]. *)
Theorem failed_fetch_leaves_the_vehicle_as_it_was car w :
  match cloud w (requests w) with
  | HttpReject reason =>
      Car.getVehicleAttributes car w = failedFetch car "attributes" reason w /\
      Car.getVehicleStatusFromCloud car w = failedFetch car "status" reason w /\
      Car.getVehiclePosition car w = failedFetch car Api.positionQuery reason w
  | HttpResolve data =>
      prop data "position" = None ->
      Car.getVehiclePosition car w = failedFetch car Api.positionQuery "TypeError" w
  end.
Proof.
  unfold Car.getVehicleAttributes, Car.getVehicleStatusFromCloud, Car.getVehiclePosition.
  rewrite getVehicleAttributes_reply, getVehicleStatusFromCloud_reply,
    getVehiclePosition_reply.
  destruct (cloud w (requests w)) as [data|reason]; [|done].
  by intros ->.
Qed.

Lemma callbacks_publishStatus l : forall car w,
  (forall cb, cb ∈ l -> cb = PublishStatus) ->
  Car.callbacks l car w =
    Car.mkRan Normal car (Nat.iter (length l) (Publish.publishStatus car) w) [].
Proof.
  induction l as [|cb l IH]; intros car w Hall; [done|].
  rewrite (Hall cb) by (apply elem_of_cons; by left).
  cbn [Car.callbacks Car.callback Car.completion Car.self Car.world Car.started length].
  rewrite IH by (intros cb' Hin; apply Hall, elem_of_cons; by right).
  cbn [Car.completion Car.self Car.world Car.started app].
  by rewrite Nat.iter_succ_r.
Qed.

(** X9. A status fetch the cloud answers replaces the cached status with
    the body as it came, whatever it is, and nothing else of the vehicle;
    the client announces 'car_status_update', the vehicle emits
    'status_updated' once, the status is published once for each publisher
    listening (Home Assistant discovery, which the embedding leaves out,
    aside), and no further call is started. *)
Theorem status_fetch_replaces_the_status_only car w data :
  cloud w (requests w) = HttpResolve data ->
  Car.getVehicleStatusFromCloud car w =
    Car.mkRan Normal (Car.set_status data car)
      (Nat.iter (length (listenersFor "status_updated" car))
         (Publish.publish ("volvooncall/" +:+ vehicleId car +:+ "/status") (Json data))
         (set_carEmitted (fun l => l ++ [(vehicleId car, "status_updated")])
            (set_emitted (fun l => l ++ [("car_status_update", data)])
               (requested GET (VehicleResource (vehicleId car) "status") VUndefined w))))
      [].
Proof.
  intros Hreply. unfold Car.getVehicleStatusFromCloud.
  rewrite getVehicleStatusFromCloud_reply, Hreply. unfold Car.emit.
  rewrite callbacks_publishStatus.
  - done.
  - intros cb Hin. apply list_elem_of_In, filter_In in Hin as [_ Hev].
    by destruct cb.
Qed.

Lemma status_fetch_of_a_listed_vehicle :
  published (Car.world (Car.getVehicleStatusFromCloud
                          (App.listen (Car.create "VIN" (VStr "V60")))
                          (newWorld (always "Idle")))) =
    [("volvooncall/VIN/status", Json (VObj [("status", VStr "Idle")]))].
Proof.
  by rewrite (status_fetch_replaces_the_status_only
                (App.listen (Car.create "VIN" (VStr "V60"))) (newWorld (always "Idle"))
                (VObj [("status", VStr "Idle")]) eq_refl).
Defined.

(** X10. A car-side refresh the car does not confirm keeps the cached
    status.  When the POST of [updatestatus] is accepted under a truthy id
    and the invocation is then reported ['Failed'] after [k] other statuses,
    or is not reported terminal in 15 polls, the chain ends after the POST
    and [min 15 (k + 1)] polls: the cloud status is not read, the last thing the
    client announces is 'car_refreshed_status' with [false], and the vehicle
    is untouched. *)
Theorem unconfirmed_refresh_keeps_the_cached_status car w status sid k :
  cloud w (requests w) = HttpResolve status ->
  prop status "customerServiceId" = Some sid ->
  truthy sid = true ->
  _serviceInvocationSuccess w = false ->
  (k <= 15)%nat ->
  (forall i, (i < k)%nat -> pending (cloud w (S (requests w) + i)) = true) ->
  ((k < 15)%nat -> reply_status (cloud w (S (requests w) + k)) = Some (VStr "Failed")) ->
  Car.self (Car.refreshVehicleStatusFromCar car w) = car /\
  Car.started (Car.refreshVehicleStatusFromCar car w) = [] /\
  trace (Car.world (Car.refreshVehicleStatusFromCar car w)) =
    trace w ++ Http POST (VehicleResource (vehicleId car) "updatestatus") (VBool true)
            :: polls (vehicleId car) sid (Nat.min 15 (S k)) /\
  last (emitted (Car.world (Car.refreshVehicleStatusFromCar car w))) =
    Some ("car_refreshed_status", VBool false) /\
  carEmitted (Car.world (Car.refreshVehicleStatusFromCar car w)) = carEmitted w /\
  published (Car.world (Car.refreshVehicleStatusFromCar car w)) = published w.
Proof.
  intros Hreply Hsid Htruthy Hflag Hk Hpending Hfailed.
  set (w1 := requested POST (VehicleResource (vehicleId car) "updatestatus") (VBool true) w).
  assert (Api.refreshVehicleStatusFromCar (vehicleId car) w = (Resolved status, w1)) as Hpost.
  { unfold Api.refreshVehicleStatusFromCar, postVOCCommand, http. by rewrite Hreply. }
  assert (exists w2, polled (vehicleId car) sid (Nat.min 15 (S k)) w1 w2 /\
            awaitSuccessfulServiceInvocation (vehicleId car) sid w1 =
              (Resolved false, set_success false w2)) as (w2 & Hw2 & Hawait).
  { destruct (decide (k < 15)%nat) as [Hlt|Hge].
    - destruct (await_failed (vehicleId car) sid w1 k Htruthy Hlt Hpending (Hfailed Hlt))
        as (w2 & Hw2 & Hawait).
      exists w2. replace (Nat.min 15 (S k)) with (S k) by lia.
      split; [done|]. rewrite Hawait. cbn [w1 requested _serviceInvocationSuccess
        set_requests set_trace]. by rewrite Hflag.
    - assert (k = 15%nat) as -> by lia.
      destruct (await_timeout (vehicleId car) sid w1 Htruthy Hpending) as (w2 & Hw2 & Hawait).
      exists w2. split; [done|]. rewrite Hawait. simpl. by rewrite Hflag. }
  unfold Car.refreshVehicleStatusFromCar.
  rewrite (refresh_submitted _ _ _ _ _ Hpost Hsid), Hawait.
  cbn [Car.self Car.started Car.world].
  destruct Hw2 as [_ _ Htrace _ Hcar _ Hpub].
  repeat split; try done.
  - cbn [trace set_emitted set_success]. rewrite Htrace. simpl. by rewrite <- app_assoc.
  - cbn [emitted set_emitted set_success]. apply last_snoc.
Qed.

Lemma refresh_reported_failed :
  trace (Car.world (Car.refreshVehicleStatusFromCar
                      (cached "VIN" (VObj []) (VObj []) ∅ [])
                      (newWorld (script [VObj [("customerServiceId", VStr "r-1")]]
                                        (VObj [("status", VStr "Failed")]))))) =
    [Http POST (VehicleResource "VIN" "updatestatus") (VBool true);
     Sleep 1000;
     Http GET (VehicleService "VIN" (VStr "r-1")) VUndefined].
Proof.
  destruct (unconfirmed_refresh_keeps_the_cached_status
              (cached "VIN" (VObj []) (VObj []) ∅ [])
              (newWorld (script [VObj [("customerServiceId", VStr "r-1")]]
                                (VObj [("status", VStr "Failed")])))
              (VObj [("customerServiceId", VStr "r-1")]) (VStr "r-1") 0
              eq_refl eq_refl eq_refl eq_refl ltac:(lia) ltac:(intros; lia)
              (fun _ => eq_refl))
    as (_ & _ & Htrace & _).
  exact Htrace.
Defined.

(** X11. A position reply without a [position] (or with [null] for it) is
    cached as it is, and the vehicle's own listener, which is registered
    first, throws on reading its latitude: the listeners behind it do not
    run, so nothing is published and the distances are not recomputed; the
    chain ends quietly. *)
Theorem position_without_coordinates_is_cached_unpublished car w data place others :
  cloud w (requests w) = HttpResolve data ->
  prop data "position" = Some place ->
  prop place "latitude" = None ->
  listenersFor "position_updated" car = OnPositionUpdated :: others ->
  Car.getVehiclePosition car w =
    Car.mkRan Normal (Car.set_position place car)
      (set_carEmitted (fun l => l ++ [(vehicleId car, "position_updated")])
         (set_emitted (fun l => l ++ [("car_position_update", place)])
            (requested GET (VehicleResource (vehicleId car) Api.positionQuery) VUndefined w)))
      [].
Proof.
  intros Hreply Hposition Hlatitude Hlisteners. unfold Car.getVehiclePosition.
  rewrite getVehiclePosition_reply, Hreply, Hposition. unfold Car.emit.
  change (List.filter _ (listeners (Car.set_position place car)))
    with (listenersFor "position_updated" car).
  rewrite Hlisteners.
  cbn [Car.callbacks Car.callback]. unfold Car.updateDistances.
  cbn [Car.set_position position]. by rewrite Hlatitude.
Qed.

Lemma position_reply_without_position :
  published (Car.world (Car.getVehiclePosition
                          (App.listen (Car.create "VIN" (VStr "V60")))
                          (newWorld (always "Idle")))) = [] /\
  position (Car.self (Car.getVehiclePosition
                        (App.listen (Car.create "VIN" (VStr "V60")))
                        (newWorld (always "Idle")))) = VUndefined.
Proof.
  by rewrite (position_without_coordinates_is_cached_unpublished
                (App.listen (Car.create "VIN" (VStr "V60"))) (newWorld (always "Idle"))
                (VObj [("status", VStr "Idle")]) VUndefined [PublishPosition]
                eq_refl eq_refl eq_refl eq_refl).
Defined.

(** X12. A position fetch answered with coordinates caches the position,
    recomputes the distances to every cached charge location from it, in the
    order [Object.keys] lists the locations, and
    only then publishes the position: on a vehicle with its own listener and
    the application's publisher, 'position_updated' is followed by
    'distances_updated' before the one publication, and no call is started. *)
Theorem position_fetch_updates_distances_then_publishes car w data place lat lon ds :
  cloud w (requests w) = HttpResolve data ->
  prop data "position" = Some place ->
  prop place "latitude" = Some lat ->
  prop place "longitude" = Some lon ->
  truthy lat = true ->
  truthy lon = true ->
  listenersFor "position_updated" car = [OnPositionUpdated; PublishPosition] ->
  mapM (Car.distanceTo lat lon) (Obj.entries (chargeLocations car)).*2 = Some ds ->
  Car.getVehiclePosition car w =
    Car.mkRan Normal (Car.set_distances ds (Car.set_position place car))
      (Publish.publish ("volvooncall/" +:+ vehicleId car +:+ "/position") (Json place)
         (set_carEmitted (fun l => l ++ [(vehicleId car, "distances_updated")])
            (set_carEmitted (fun l => l ++ [(vehicleId car, "position_updated")])
               (set_emitted (fun l => l ++ [("car_position_update", place)])
                  (requested GET (VehicleResource (vehicleId car) Api.positionQuery)
                     VUndefined w)))))
      [].
Proof.
  intros Hreply Hposition Hlat Hlon Htlat Htlon Hlisteners Hds.
  unfold Car.getVehiclePosition.
  rewrite getVehiclePosition_reply, Hreply, Hposition. unfold Car.emit.
  change (List.filter _ (listeners (Car.set_position place car)))
    with (listenersFor "position_updated" car).
  rewrite Hlisteners.
  cbn [Car.callbacks Car.callback]. unfold Car.updateDistances.
  cbn [Car.set_position position chargeLocations]. rewrite Hlat, Hlon, Htlat, Htlon.
  cbn [negb orb]. rewrite Hds. done.
Qed.

Lemma position_fetch_with_two_locations :
  exists ds,
    distances (Car.self (Car.getVehiclePosition
                           (App.listen (cached "VIN" (VObj []) (VObj []) twoLocations [stale]))
                           (newWorld (fun _ => HttpResolve
                                        (VObj [("position", at_ 60 24)]))))) = ds /\
    chargeLocationId <$> ds = ["2"; "home"].
Proof.
  eexists.
  rewrite (position_fetch_updates_distances_then_publishes
             (App.listen (cached "VIN" (VObj []) (VObj []) twoLocations [stale]))
             (newWorld (fun _ => HttpResolve (VObj [("position", at_ 60 24)])))
             (VObj [("position", at_ 60 24)]) (at_ 60 24) (VNum 60) (VNum 24) _
             eq_refl eq_refl eq_refl eq_refl eq_refl eq_refl eq_refl eq_refl).
  split; reflexivity.
Defined.

(** X13. An attributes fetch answered with an object caches it and decides
    the follow-up fetches from the NEW attributes: the charge locations are
    fetched exactly when [highVoltageBatterySupported] is truthy in the
    reply and the position exactly when [carLocatorSupported] is, in this
    order, whatever was cached before; the attributes are published after
    the vehicle's own listener has run (Home Assistant discovery, which the
    embedding leaves out, aside). *)
Theorem attributes_fetch_starts_the_follow_up_fetches car w data charging locating :
  cloud w (requests w) = HttpResolve data ->
  prop data "highVoltageBatterySupported" = Some charging ->
  prop data "carLocatorSupported" = Some locating ->
  listenersFor "attributes_updated" car = [OnAttributesUpdated; PublishAttributes] ->
  Car.getVehicleAttributes car w =
    Car.mkRan Normal (Car.set_attributes data car)
      (Publish.publish ("volvooncall/" +:+ vehicleId car +:+ "/attributes") (Json data)
         (set_carEmitted (fun l => l ++ [(vehicleId car, "attributes_updated")])
            (set_emitted (fun l => l ++ [("car_attributes_update", data)])
               (requested GET (VehicleResource (vehicleId car) "attributes") VUndefined w))))
      ((if truthy charging then [GetVehicleChargeLocations] else []) ++
       (if truthy locating then [GetVehiclePosition] else [])).
Proof.
  intros Hreply Hcharging Hlocating Hlisteners. unfold Car.getVehicleAttributes.
  rewrite getVehicleAttributes_reply, Hreply. unfold Car.emit.
  change (List.filter _ (listeners (Car.set_attributes data car)))
    with (listenersFor "attributes_updated" car).
  rewrite Hlisteners.
  cbn [Car.callbacks Car.callback]. unfold Car.isChargingSupported, Car.isPositionSupported.
  cbn [Car.set_attributes attributes]. rewrite Hcharging, Hlocating.
  cbn [mbind option_bind Car.completion Car.self Car.world Car.started].
  unfold or_else.
  destruct (truthy charging) eqn:Hc, (truthy locating) eqn:Hl;
    cbn [truthy]; rewrite ?Hc, ?Hl; reflexivity.
Qed.

Lemma attributes_fetch_of_a_plug_in_without_locator :
  Car.started (Car.getVehicleAttributes
                 (App.listen (Car.create "VIN" (VStr "V60")))
                 (newWorld (fun _ => HttpResolve
                              (VObj [("highVoltageBatterySupported", VBool true)])))) =
    [GetVehicleChargeLocations].
Proof.
  by rewrite (attributes_fetch_starts_the_follow_up_fetches
                (App.listen (Car.create "VIN" (VStr "V60")))
                (newWorld (fun _ => HttpResolve
                             (VObj [("highVoltageBatterySupported", VBool true)])))
                (VObj [("highVoltageBatterySupported", VBool true)])
                (VBool true) VUndefined eq_refl eq_refl eq_refl eq_refl).
Defined.

Lemma positionTick_throws ids app : forall id ref car,
  (id, ref) ∈ ids ->
  objects app !! ref = Some car ->
  Car.isPositionSupported car = None ->
  (App.positionTick ids app).1 = Throws "TypeError".
Proof.
  induction ids as [|[id' ref'] ids IH]; intros id ref car Hin Hcar Hnone.
  { by apply elem_of_nil in Hin. }
  simpl. destruct (objects app !! ref') as [car'|] eqn:Hcar'; [|done].
  destruct (Car.isPositionSupported car') as [supported|] eqn:Hsupported; [|done].
  apply elem_of_cons in Hin as [[= <- <-]|Hin]; [congruence|].
  specialize (IH id ref car Hin Hcar Hnone).
  by destruct (App.positionTick ids app) as [c calls].
Qed.

Section ChargeLocationsChain.

Variable Number_toString : Q -> string.
Variable String_toNumber : string -> option Q.

(** X14. The vehicle caches whatever the attributes request resolved with.
    When that is [null] or [undefined], the vehicle's own listener throws
    on reading a capability, so no follow-up fetch is started and nothing is
    published; and from then on every capability test of this vehicle
    throws: the next tick of the position poller ends in a TypeError, and so
    does a call of [getVehicleChargeLocations] on the vehicle. *)
Theorem nullish_attributes_break_the_capability_tests car w data others app id ref :
  cloud w (requests w) = HttpResolve data ->
  prop data "carLocatorSupported" = None ->
  listenersFor "attributes_updated" car = OnAttributesUpdated :: others ->
  cars app !! id = Some ref ->
  objects app !! ref = Some car ->
  Car.getVehicleAttributes car w =
    Car.mkRan Normal (Car.set_attributes data car)
      (set_carEmitted (fun l => l ++ [(vehicleId car, "attributes_updated")])
         (set_emitted (fun l => l ++ [("car_attributes_update", data)])
            (requested GET (VehicleResource (vehicleId car) "attributes") VUndefined w)))
      [] /\
  (App.pollPositions
     (App.set_objects (<[ref := Car.set_attributes data car]> (objects app)) app)).1
    = Throws "TypeError" /\
  forall w',
    ChargeLocations.getVehicleChargeLocations Number_toString String_toNumber
      (Car.set_attributes data car) w' =
    Car.mkRan (Throws "TypeError") (Car.set_attributes data car) w' [].
Proof.
  intros Hreply Hnullish Hlisteners Hid Href.
  assert (forall k, prop data k = None) as Hnone.
  { intros k. by destruct data. }
  split; [|split].
  - unfold Car.getVehicleAttributes.
    rewrite getVehicleAttributes_reply, Hreply. unfold Car.emit.
    change (List.filter _ (listeners (Car.set_attributes data car)))
      with (listenersFor "attributes_updated" car).
    rewrite Hlisteners.
    cbn [Car.callbacks Car.callback]. unfold Car.isChargingSupported.
    cbn [Car.set_attributes attributes]. by rewrite Hnone.
  - unfold App.pollPositions. cbn [cars App.set_objects].
    apply (positionTick_throws _ _ id ref (Car.set_attributes data car)).
    + by apply obj_find_Some_elem.
    + cbn [objects]. apply list_lookup_insert_eq. by eapply lookup_lt_Some.
    + unfold Car.isPositionSupported. cbn [Car.set_attributes attributes].
      by rewrite Hnone.
  - intros w'. unfold ChargeLocations.getVehicleChargeLocations, Car.isChargingSupported.
    cbn [Car.set_attributes attributes]. by rewrite Hnone.
Qed.

Lemma updateChargeLocations_frame listing car :
  (ChargeLocations.updateChargeLocations Number_toString String_toNumber listing car).2 =
    ChargeLocations.set_chargeLocations
      (chargeLocations
         (ChargeLocations.updateChargeLocations Number_toString String_toNumber listing car).2)
      car.
Proof.
  unfold ChargeLocations.updateChargeLocations. destruct car.
  repeat (case_match; try done).
Qed.

(** X7. [getVehicleChargeLocations] asks the cloud only for a vehicle that
    reports the charging capability: without it no request is sent and
    nothing changes.  With it exactly one GET of the accepted charge
    locations is sent, the chain never throws and starts no further call,
    and the update is all or nothing: either the vehicle is as it was, has
    emitted nothing and nothing was published, or the listing, taken from
    [chargingLocations] when that is truthy and else the body itself, was
    read in full by [updateChargeLocations], the cache replaced, and
    'charge_locations_updated' emitted, after which only the distances can
    have changed further. *)
Theorem getVehicleChargeLocations_is_guarded_and_all_or_nothing car w supported :
  Car.isChargingSupported car = Some supported ->
  Car.completion
    (ChargeLocations.getVehicleChargeLocations Number_toString String_toNumber car w)
    = Normal /\
  Car.started
    (ChargeLocations.getVehicleChargeLocations Number_toString String_toNumber car w)
    = [] /\
  if truthy supported then
    requests (Car.world (ChargeLocations.getVehicleChargeLocations
                           Number_toString String_toNumber car w)) = S (requests w) /\
    trace (Car.world (ChargeLocations.getVehicleChargeLocations
                        Number_toString String_toNumber car w)) =
      trace w ++ [Http GET (VehicleResource (vehicleId car) "chargeLocations?status=Accepted")
                       VUndefined] /\
    ((Car.self (ChargeLocations.getVehicleChargeLocations
                  Number_toString String_toNumber car w) = car /\
      carEmitted (Car.world (ChargeLocations.getVehicleChargeLocations
                               Number_toString String_toNumber car w)) = carEmitted w /\
      published (Car.world (ChargeLocations.getVehicleChargeLocations
                              Number_toString String_toNumber car w)) = published w)
     \/
     exists data listing car1 rest,
       cloud w (requests w) = HttpResolve data /\
       prop data "chargingLocations" = Some listing /\
       ChargeLocations.updateChargeLocations Number_toString String_toNumber
         (or_else listing data) car = (Normal, car1) /\
       Car.self (ChargeLocations.getVehicleChargeLocations
                   Number_toString String_toNumber car w) =
         Car.set_distances
           (distances (Car.self (ChargeLocations.getVehicleChargeLocations
                                   Number_toString String_toNumber car w))) car1 /\
       carEmitted (Car.world (ChargeLocations.getVehicleChargeLocations
                                Number_toString String_toNumber car w)) =
         carEmitted w ++ (vehicleId car, "charge_locations_updated") :: rest)
  else
    ChargeLocations.getVehicleChargeLocations Number_toString String_toNumber car w =
      Car.mkRan Normal car w [].
Proof.
  intros Hsupported. unfold ChargeLocations.getVehicleChargeLocations.
  rewrite Hsupported. destruct (truthy supported); cbn [negb]; [|done].
  rewrite getVehicleChargeLocations_reply.
  destruct (cloud w (requests w)) as [data|reason] eqn:Hreply.
  2:{ cbn. repeat split; try done. by left. }
  destruct (prop data "chargingLocations") as [listing|] eqn:Hlisting.
  2:{ cbn. repeat split; try done. by left. }
  pose proof (updateChargeLocations_frame (or_else listing data) car) as Hframe.
  destruct (ChargeLocations.updateChargeLocations _ _ (or_else listing data) car)
    as [[|error] car1] eqn:Hupdate.
  2:{ cbn. repeat split; try done. by left. }
  cbn [snd] in Hframe.
  cbn [Car.completion Car.started Car.self Car.world].
  match goal with |- context [Car.emit ?e ?c ?w0] =>
    pose proof (emit_quiet e c w0) as [_ Hrequests Htrace _ _];
    pose proof (emit_started e c w0 ltac:(done)) as Hstarted;
    pose proof (emit_frame e c w0) as Hself;
    destruct (emit_carEmitted e c w0) as [rest Hemitted]
  end.
  rewrite Hstarted, Hrequests, Htrace.
  repeat split; try done.
  right. exists data, listing, car1, rest. repeat split; try done.
  rewrite Hemitted, Hframe. done.
Qed.

End ChargeLocationsChain.

Lemma getVehicleChargeLocations_of_a_combustion_car :
  Car.world (ChargeLocations.getVehicleChargeLocations (fun _ => "") (fun _ => None)
               (cached "VIN" (VObj []) (VObj []) ∅ []) (newWorld (always "x"))) =
    newWorld (always "x").
Proof.
  destruct (getVehicleChargeLocations_is_guarded_and_all_or_nothing
              (fun _ => "") (fun _ => None)
              (cached "VIN" (VObj []) (VObj []) ∅ []) (newWorld (always "x"))
              (VBool false) eq_refl) as (_ & _ & Hrun).
  simpl in Hrun. by rewrite Hrun.
Defined.

Lemma null_attributes_in_the_garage :
  (App.pollPositions
     (App.set_objects
        (<[0%nat := Car.set_attributes VNull
                      (App.listen (Car.create "VIN1" (VStr "V60 / 2020")))]>
           (objects (App.self garage)))
        (App.self garage))).1 = Throws "TypeError".
Proof.
  destruct (nullish_attributes_break_the_capability_tests (fun _ => "") (fun _ => None)
              (App.listen (Car.create "VIN1" (VStr "V60 / 2020")))
              (newWorld (fun _ => HttpResolve VNull)) VNull [PublishAttributes]
              (App.self garage) "VIN1" 0%nat
              eq_refl eq_refl eq_refl eq_refl eq_refl) as (_ & Hpoll & _).
  exact Hpoll.
Defined.

(** ** Routing a command *)

Lemma append_assoc (a b c : string) : (a +:+ b) +:+ c = a +:+ (b +:+ c).
Proof.
  induction a as [|x a IH]; [done|].
  change (String x ((a +:+ b) +:+ c) = String x (a +:+ (b +:+ c))). by f_equal.
Qed.

Lemma append_empty_r (a : string) : a +:+ "" = a.
Proof.
  induction a as [|x a IH]; [done|]. change (String x (a +:+ "") = String x a). by f_equal.
Qed.

Lemma split_acc_last s : forall cur,
  has_char "/" s = false -> split_acc "/" s cur = [cur +:+ s].
Proof.
  induction s as [|a s IH]; intros cur Hs; simpl.
  - by rewrite append_empty_r.
  - simpl in Hs. apply orb_false_iff in Hs as [Ha Hs]. rewrite Ha, IH by done.
    by rewrite append_assoc.
Qed.

Lemma split_acc_segment s : forall cur rest,
  has_char "/" s = false ->
  split_acc "/" (s +:+ String "/" rest) cur = (cur +:+ s) :: split_acc "/" rest "".
Proof.
  induction s as [|a s IH]; intros cur rest Hs.
  - change (split_acc "/" (String "/" rest) cur = (cur +:+ "") :: split_acc "/" rest "").
    simpl. by rewrite append_empty_r.
  - simpl in Hs. apply orb_false_iff in Hs as [Ha Hs].
    change (split_acc "/" (String a (s +:+ String "/" rest)) cur =
            (cur +:+ String a s) :: split_acc "/" rest "").
    simpl. rewrite Ha, IH by done. by rewrite append_assoc.
Qed.

Lemma split_command_topic id command :
  has_char "/" id = false -> has_char "/" command = false ->
  split "/" ("volvooncall/" +:+ id +:+ String "/" command) = ["volvooncall"; id; command].
Proof.
  intros Hid Hcommand. unfold split.
  change ("volvooncall/" +:+ id +:+ String "/" command)
    with ("volvooncall" +:+ String "/" (id +:+ String "/" command)).
  rewrite split_acc_segment by done. rewrite split_acc_segment by done.
  by rewrite split_acc_last.
Qed.

Lemma prefix_append (a b : string) : String.prefix a (a +:+ b) = true.
Proof.
  induction a as [|x a IH]; [by destruct b|].
  change (String.prefix (String x a) (String x (a +:+ b)) = true).
  simpl. destruct (ascii_dec x x); [done|congruence].
Qed.

Section Routing.

Variable JSON_parse : string -> option value.

(** A message on [volvooncall/<id>/<command>] is dispatched on the command,
    with the id between the slashes. *)
Lemma handleMessage_command id command payload app w :
  has_char "/" id = false ->
  has_char "/" command = false ->
  String.prefix "volvooncall/" (hassTopic app) = false ->
  App.handleMessage JSON_parse ("volvooncall/" +:+ id +:+ String "/" command) payload app w =
    if String.eqb command "startCharging" then App.startCharging id payload app w
    else if String.eqb command "delayCharging" then
      App.delayCharging JSON_parse id payload app w
    else if String.eqb command "lock" then App.setLockState id payload app w
    else if String.eqb command "heater" then App.setHeaterState id payload app w
    else App.mkRan Normal app w [].
Proof.
  intros Hid Hcommand Hhass. unfold App.handleMessage.
  replace (String.eqb ("volvooncall/" +:+ id +:+ String "/" command) (hassTopic app))
    with false.
  - by rewrite split_command_topic.
  - symmetry. apply String.eqb_neq. intros Heq. rewrite <- Heq in Hhass.
    by rewrite (prefix_append "volvooncall/" (id +:+ String "/" command)) in Hhass.
Qed.

(** C9. A delay-charging command for a vehicle of the fleet, whose payload
    parses to an object, makes the router call the vehicle's [delayCharging]
    with the command's [chargeLocation], [delayedCharging || true],
    [startTime] and [stopTime]; and that call opens with the PUT to that
    charge location of [{status: 'Accepted', delayCharging: {enabled,
    startTime, stopTime}}], the two times being the command's and [enabled]
    being [true] when the command gives no [delayedCharging]. *)
Theorem delayCharging_command_reaches_the_cloud id ref app w payload fields :
  has_char "/" id = false ->
  String.prefix "volvooncall/" (hassTopic app) = false ->
  cars app !! id = Some ref ->
  JSON_parse payload = Some (VObj fields) ->
  App.handleMessage JSON_parse ("volvooncall/" +:+ id +:+ "/delayCharging") payload app w =
    App.mkRan Normal app w
      [(ref, DelayCharging [field "chargeLocation" fields;
                            or_else (field "delayedCharging" fields) (VBool true);
                            field "startTime" fields;
                            field "stopTime" fields])] /\
  (forall car w', exists rest,
     trace (Car.world
              (Car.delayCharging [field "chargeLocation" fields;
                                  or_else (field "delayedCharging" fields) (VBool true);
                                  field "startTime" fields;
                                  field "stopTime" fields] car w')) =
       trace w' ++
       Http PUT (VehicleChargeLocation (vehicleId car) (field "chargeLocation" fields))
         (VObj [("status", VStr "Accepted");
                ("delayCharging",
                 VObj [("enabled", or_else (field "delayedCharging" fields) (VBool true));
                       ("startTime", field "startTime" fields);
                       ("stopTime", field "stopTime" fields)])])
       :: rest) /\
  (field "delayedCharging" fields = VUndefined ->
   or_else (field "delayedCharging" fields) (VBool true) = VBool true).
Proof.
  intros Hid Hhass Hcar Hparse. split; [|split].
  - change ("volvooncall/" +:+ id +:+ "/delayCharging")
      with ("volvooncall/" +:+ id +:+ String "/" "delayCharging").
    rewrite handleMessage_command by done. cbn [String.eqb Ascii.eqb Bool.eqb].
    unfold App.delayCharging. by rewrite Hparse, Hcar.
  - intros car w'.
    apply (delayCharging_opens [field "chargeLocation" fields;
                                or_else (field "delayedCharging" fields) (VBool true);
                                field "startTime" fields;
                                field "stopTime" fields] car w').
  - by intros ->.
Qed.

(** X15. The command topics the application subscribes for a vehicle route
    back to that vehicle.  For a vehicle of the fleet whose id has no ['/']
    (and a Home Assistant topic outside [volvooncall/]), a message on
    [volvooncall/<id>/startCharging] starts [startCharging] on the vehicle's
    object whatever the payload; one on [.../lock] starts [unlock] or
    [lock] for the payloads ['UNLOCK'] and ['LOCK'] and nothing for any
    other; one on [.../heater] with ['ON'] or ['OFF'] starts the heater call
    when the vehicle's attributes report the remote heater, else the
    preclimatization call when they report that, else nothing, and throws a
    TypeError when the cached attributes are [null] or [undefined]; any
    other heater payload starts nothing.  The application's own state and
    the broker's are not touched. *)
Theorem command_topics_route_to_their_vehicle id ref car app w payload :
  has_char "/" id = false ->
  String.prefix "volvooncall/" (hassTopic app) = false ->
  cars app !! id = Some ref ->
  objects app !! ref = Some car ->
  App.handleMessage JSON_parse ("volvooncall/" +:+ id +:+ "/startCharging") payload app w =
    App.mkRan Normal app w [(ref, StartCharging)] /\
  App.handleMessage JSON_parse ("volvooncall/" +:+ id +:+ "/lock") payload app w =
    App.mkRan Normal app w
      (if String.eqb payload "UNLOCK" then [(ref, Unlock)]
       else if String.eqb payload "LOCK" then [(ref, Lock)]
       else []) /\
  App.handleMessage JSON_parse ("volvooncall/" +:+ id +:+ "/heater") payload app w =
    (if String.eqb payload "ON" || String.eqb payload "OFF" then
       match prop (attributes car) "remoteHeaterSupported",
             prop (attributes car) "preclimatizationSupported" with
       | Some remoteHeater, Some preclimatizer =>
           App.mkRan Normal app w
             (if truthy remoteHeater then
                [(ref, if String.eqb payload "ON" then StartHeater else StopHeater)]
              else if truthy preclimatizer then
                [(ref, if String.eqb payload "ON" then StartPreclimatization
                       else StopPreclimatization)]
              else [])
       | _, _ => App.mkRan (Throws "TypeError") app w []
       end
     else App.mkRan Normal app w []).
Proof.
  intros Hid Hhass Hcar Hobject.
  change ("volvooncall/" +:+ id +:+ "/startCharging")
    with ("volvooncall/" +:+ id +:+ String "/" "startCharging").
  change ("volvooncall/" +:+ id +:+ "/lock")
    with ("volvooncall/" +:+ id +:+ String "/" "lock").
  change ("volvooncall/" +:+ id +:+ "/heater")
    with ("volvooncall/" +:+ id +:+ String "/" "heater").
  rewrite !handleMessage_command by done. cbn [String.eqb Ascii.eqb Bool.eqb].
  unfold App.startCharging, App.setLockState, App.setHeaterState, App.heaterCall,
    App.callOn, Car.isRemoteHeaterSupported, Car.isPreClimatizationSupported.
  rewrite Hcar, Hobject.
  split; [done|]. split; [by repeat case_match|].
  assert (forall v, truthy (or_else v (VBool false)) = truthy v) as Hor.
  { intros v. unfold or_else. by destruct (truthy v) eqn:Hv. }
  destruct (prop (attributes car) "remoteHeaterSupported") as [remoteHeater|] eqn:Hremote;
    destruct (prop (attributes car) "preclimatizationSupported") as [preclimatizer|]
      eqn:Hclimate;
    cbn [mbind option_bind]; rewrite ?Hor;
    destruct (String.eqb payload "ON") eqn:Hon;
    destruct (String.eqb payload "OFF") eqn:Hoff; cbn [orb]; try done;
    try (by repeat case_match).
  all: exfalso; clear -Hremote Hclimate; destruct (attributes car); simpl in *; done.
Qed.

End Routing.

Lemma delayCharging_command_in_the_garage :
  App.started
    (App.handleMessage
       (fun _ => Some (VObj [("chargeLocation", VStr "7"); ("startTime", VStr "22:00");
                             ("stopTime", VStr "06:00")]))
       "volvooncall/VIN1/delayCharging" "{}" (App.self garage) (App.world garage)) =
    [(0%nat, DelayCharging [VStr "7"; VBool true; VStr "22:00"; VStr "06:00"])].
Proof.
  destruct (delayCharging_command_reaches_the_cloud
              (fun _ => Some (VObj [("chargeLocation", VStr "7"); ("startTime", VStr "22:00");
                                    ("stopTime", VStr "06:00")]))
              "VIN1" 0%nat (App.self garage) (App.world garage) "{}"
              [("chargeLocation", VStr "7"); ("startTime", VStr "22:00");
               ("stopTime", VStr "06:00")]
              eq_refl eq_refl eq_refl eq_refl) as (Hrouted & _).
  exact (f_equal App.started Hrouted).
Defined.

Lemma lock_command_in_the_garage :
  App.started (App.handleMessage (fun _ => None)
                 "volvooncall/VIN1/lock" "LOCK" (App.self garage) (App.world garage)) =
    [(0%nat, Lock)].
Proof.
  destruct (command_topics_route_to_their_vehicle (fun _ => None) "VIN1" 0%nat
              (App.listen (Car.create "VIN1" (VStr "V60 / 2020")))
              (App.self garage) (App.world garage) "LOCK"
              eq_refl eq_refl eq_refl eq_refl) as (_ & Hlock & _).
  exact (f_equal App.started Hlock).
Defined.

(** ** Republishing and refreshing the fleet *)

Lemma publishChargeLocations_published car w :
  published (Publish.publishChargeLocations car w) =
    published w ++
    ((fun kv => ("volvooncall/" +:+ vehicleId car +:+ "/charge_locations/" +:+ kv.1,
                 ChargeLocationJson kv.2)) <$> Obj.entries (chargeLocations car)).
Proof.
  unfold Publish.publishChargeLocations.
  generalize (Obj.entries (chargeLocations car)). intros l. revert w.
  induction l as [|kv l IH]; intros w; simpl; [by rewrite app_nil_r|].
  rewrite IH. simpl. by rewrite <- app_assoc.
Qed.

Lemma publishAll_published car w :
  published (App.publishAll car w) = published w ++ facets car.
Proof.
  unfold App.publishAll, facets, Publish.publishPosition, Publish.publishStatus,
    Publish.publishAttributes, Publish.publish.
  cbn [published set_published]. rewrite publishChargeLocations_published.
  cbn [published set_published]. by rewrite <- !app_assoc.
Qed.

Lemma publishAll_quiet car w : quiet w (App.publishAll car w).
Proof.
  unfold App.publishAll, Publish.publishPosition, Publish.publishStatus,
    Publish.publishAttributes, Publish.publish.
  match goal with |- quiet _ (set_published _ (Publish.publishChargeLocations _ ?w0)) =>
    apply (quiet_trans _ w0); [by split|];
    apply (quiet_trans _ (Publish.publishChargeLocations car w0));
      [apply publishChargeLocations_quiet|by split]
  end.
Qed.

Lemma publishAll_carEmitted car w : carEmitted (App.publishAll car w) = carEmitted w.
Proof.
  unfold App.publishAll, Publish.publishPosition, Publish.publishStatus,
    Publish.publishAttributes, Publish.publish, Publish.publishChargeLocations.
  cbn [carEmitted set_published].
  generalize (Obj.entries (chargeLocations car)). intros l.
  match goal with |- carEmitted (foldl _ ?w0 l) = _ =>
    change (carEmitted w) with (carEmitted w0); generalize w0 end.
  induction l as [|kv l IH]; intros w0; simpl; [done|]. by rewrite IH.
Qed.

Lemma republishVehicles_spec app l : forall w,
  let w' := foldl (fun w kv => match objects app !! kv.2 with
                               | Some car => App.publishAll car w
                               | None => w
                               end) w l in
  quiet w w' /\ subscriptions w' = subscriptions w /\ carEmitted w' = carEmitted w /\
  published w' =
    published w ++
    mjoin ((fun kv : string * nat => from_option facets [] (objects app !! kv.2)) <$> l).
Proof.
  induction l as [|kv l IH]; intros w; simpl.
  { rewrite app_nil_r. repeat split; done. }
  destruct (IH (match objects app !! kv.2 with
                | Some car => App.publishAll car w
                | None => w
                end)) as (Hquiet & Hsubs & Hcar & Hpub).
  destruct (objects app !! kv.2) as [car|]; simpl.
  - split; [eapply quiet_trans; [apply publishAll_quiet|exact Hquiet]|].
    rewrite Hsubs, Hcar, Hpub, publishAll_published, <- app_assoc.
    repeat split; try done.
    + by rewrite publishAll_subscriptions.
    + by rewrite publishAll_carEmitted.
  - done.
Qed.

Section Republishing.

Variable JSON_parse : string -> option value.

(** X16. A message on the Home Assistant status topic, whatever its
    payload, forgets the discoveries made and republishes the fleet: for
    every vehicle, in the order [Object.keys] lists the fleet, its
    attributes, its status, each cached charge location in the order of its
    keys, and its position.  It never throws, starts
    no call on a vehicle, sends nothing to the cloud and leaves the
    subscriptions as they are. *)
Theorem home_assistant_restart_republishes_the_fleet payload app w :
  App.completion (App.handleMessage JSON_parse (hassTopic app) payload app w) = Normal /\
  App.started (App.handleMessage JSON_parse (hassTopic app) payload app w) = [] /\
  App.self (App.handleMessage JSON_parse (hassTopic app) payload app w) =
    App.set_haDiscovered ∅ app /\
  requests (App.world (App.handleMessage JSON_parse (hassTopic app) payload app w)) =
    requests w /\
  trace (App.world (App.handleMessage JSON_parse (hassTopic app) payload app w)) =
    trace w /\
  subscriptions (App.world (App.handleMessage JSON_parse (hassTopic app) payload app w)) =
    subscriptions w /\
  published (App.world (App.handleMessage JSON_parse (hassTopic app) payload app w)) =
    published w ++
    mjoin ((fun kv : string * nat => from_option facets [] (objects app !! kv.2))
             <$> Obj.entries (cars app)) /\
  forall id ref car message,
    cars app !! id = Some ref -> objects app !! ref = Some car -> message ∈ facets car ->
    message ∈ published (App.world (App.handleMessage JSON_parse (hassTopic app) payload app w)).
Proof.
  unfold App.handleMessage. rewrite String.eqb_refl.
  cbn [App.completion App.started App.self App.world]. unfold App.republishVehicles.
  destruct (republishVehicles_spec app (Obj.entries (cars app)) w)
    as ([_ Hrequests Htrace _ _] & Hsubs & _ & Hpub).
  repeat split; try done.
  intros id ref car message Hid Href Hin. rewrite Hpub.
  apply elem_of_app. right. apply list_elem_of_join.
  exists (facets car). split; [done|].
  apply list_elem_of_fmap. exists (id, ref). simpl. rewrite Href. split; [done|].
  by apply obj_find_Some_elem.
Qed.

End Republishing.

(** X17. A refresh of the fleet starts, for every entry of the listing in
    the order of the listing, the status fetch and then the attributes fetch
    of the constructor, each on the object constructed for that entry, which
    carries the entry's id.  The refresh ends normally exactly when no
    vehicle of the old fleet is missing from the new one; otherwise the
    release of the first vehicle that left throws a TypeError out of the
    refresh, before any topic is unsubscribed or subscribed and before any
    publisher is attached: the broker's state is as it was. *)
Theorem updateVehicles_starts_the_fetches_and_throws_on_a_leaver vehicles app w :
  App.started (App.updateVehicles vehicles app w) =
    mjoin ((fun j => [((length (objects app) + j)%nat, GetVehicleStatusFromCloud);
                      ((length (objects app) + j)%nat, GetVehicleAttributes)])
             <$> seq 0 (length vehicles)) /\
  (forall j vehicle,
     vehicles !! j = Some vehicle ->
     exists car,
       objects (App.self (App.updateVehicles vehicles app w))
         !! (length (objects app) + j)%nat = Some car /\
       vehicleId car = vehicle_id vehicle) /\
  (App.completion (App.updateVehicles vehicles app w) = Normal <->
   forall id, is_Some (cars app !! id) ->
              is_Some (cars (App.self (App.updateVehicles vehicles app w)) !! id)) /\
  (App.completion (App.updateVehicles vehicles app w) <> Normal ->
   App.completion (App.updateVehicles vehicles app w) = Throws "TypeError" /\
   App.world (App.updateVehicles vehicles app w) = w).
Proof.
  unfold App.updateVehicles.
  pose proof (construct_spec vehicles Obj.empty (objects app)) as Hconstruct.
  destruct (App.construct vehicles Obj.empty (objects app)) as [[cars' objs'] calls].
  destruct Hconstruct as (Hobjs & Hcalls & _ & _ & _).
  set (app1 := App.set_cars cars' (App.set_objects objs' app)).
  pose proof (vehiclesUpdated_spec (App.removedCars (cars app) cars') app1 w) as Hupd.
  pose proof (removedCars_nil (cars app) cars') as Hnil.
  assert (forall j vehicle, vehicles !! j = Some vehicle ->
            objs' !! (length (objects app) + j)%nat =
              Some (Car.create (vehicle_id vehicle) (vehicle_name vehicle))) as Hnew.
  { intros j vehicle Hj. rewrite Hobjs, lookup_app_r by lia.
    replace (length (objects app) + j - length (objects app))%nat with j by lia.
    by rewrite list_lookup_fmap, Hj. }
  destruct (App.removedCars (cars app) cars') as [|gone rest].
  - destruct Hupd as (app' & w' & -> & Hcars & Hids & _).
    cbn [App.self App.world App.completion App.started]. rewrite Hcars.
    split; [done|]. split; [|split].
    + intros j vehicle Hj. specialize (Hids (length (objects app) + j)%nat).
      cbn [objects app1 App.set_cars App.set_objects] in Hids.
      rewrite (Hnew j vehicle Hj) in Hids. simpl in Hids.
      destruct (objects app' !! (length (objects app) + j)%nat) as [car|]; [|done].
      exists car. split; [done|]. by injection Hids.
    + split; [|done]. intros _. by apply Hnil.
    + done.
  - rewrite Hupd. cbn [App.self App.world App.completion App.started cars objects app1
                         App.set_cars App.set_objects].
    split; [done|]. split; [|split].
    + intros j vehicle Hj. rewrite (Hnew j vehicle Hj). eauto.
    + split; [done|]. intros Hstay. apply Hnil in Hstay. discriminate Hstay.
    + done.
Qed.

(** X18. After a refresh every vehicle of the fleet is an object wired
    afresh: it is the object the constructor built for an entry of the
    listing with that id, with empty caches and the vehicle's three own
    listeners.  When the refresh ended normally, [listenForChanges] has hung
    the four publishers on it once, behind them, so that for each event the
    vehicle's own listener runs before the application's publisher; when the
    refresh threw, for a vehicle that left, the fleet's objects carry no
    publisher. *)
Theorem refreshed_fleet_is_wired_afresh vehicles app w id ref :
  cars (App.self (App.updateVehicles vehicles app w)) !! id = Some ref ->
  exists vehicle,
    vehicle ∈ vehicles /\ vehicle_id vehicle = id /\
    objects (App.self (App.updateVehicles vehicles app w)) !! ref =
      Some (match App.completion (App.updateVehicles vehicles app w) with
            | Normal => App.listen (Car.create id (vehicle_name vehicle))
            | Throws _ => Car.create id (vehicle_name vehicle)
            end) /\
    listeners (Car.create id (vehicle_name vehicle)) =
      [OnAttributesUpdated; OnPositionUpdated; OnChargeLocationsUpdated] /\
    listenersFor "attributes_updated" (App.listen (Car.create id (vehicle_name vehicle))) =
      [OnAttributesUpdated; PublishAttributes] /\
    listenersFor "position_updated" (App.listen (Car.create id (vehicle_name vehicle))) =
      [OnPositionUpdated; PublishPosition] /\
    listenersFor "charge_locations_updated"
      (App.listen (Car.create id (vehicle_name vehicle))) =
      [OnChargeLocationsUpdated; PublishChargeLocations] /\
    listenersFor "status_updated" (App.listen (Car.create id (vehicle_name vehicle))) =
      [PublishStatus].
Proof.
  unfold App.updateVehicles.
  pose proof (construct_spec vehicles Obj.empty (objects app)) as Hconstruct.
  destruct (App.construct vehicles Obj.empty (objects app)) as [[cars' objs'] calls].
  destruct Hconstruct as (Hobjs & _ & Hout & Hin & Hnodup).
  assert (forall id ref, cars' !! id = Some ref ->
            exists j v, ref = (length (objects app) + j)%nat /\
                        vehicles !! j = Some v /\ vehicle_id v = id) as Hlisted.
  { intros id0 ref0 Hid0.
    destruct (decide (id0 ∈ (vehicle_id <$> vehicles) /\ id0 <> "__proto__"))
      as [[Hyes Hne]|Hno].
    - destruct (Hin id0 Hyes Hne) as (j & v & Hj & Hv & Hidv). exists j, v.
      split; [congruence|done].
    - rewrite (Hout id0) in Hid0; [done|].
      destruct (decide (id0 ∈ (vehicle_id <$> vehicles))); [|by left].
      destruct (decide (id0 = "__proto__")); [by right|]. by destruct Hno. }
  set (app1 := App.set_cars cars' (App.set_objects objs' app)).
  pose proof (vehiclesUpdated_spec (App.removedCars (cars app) cars') app1 w) as Hupd.
  assert (forall j vehicle, vehicles !! j = Some vehicle ->
            objs' !! (length (objects app) + j)%nat =
              Some (Car.create (vehicle_id vehicle) (vehicle_name vehicle))) as Hnew.
  { intros j vehicle Hj. rewrite Hobjs, lookup_app_r by lia.
    replace (length (objects app) + j - length (objects app))%nat with j by lia.
    by rewrite list_lookup_fmap, Hj. }
  destruct (App.removedCars (cars app) cars') as [|gone rest].
  - destruct Hupd as (app' & w' & -> & Hcars & _ & _ & Hfleet & _).
    cbn [App.self App.world App.completion]. rewrite Hcars.
    cbn [cars app1 App.set_cars App.set_objects]. intros Hid.
    destruct (Hlisted id ref Hid) as (j & vehicle & -> & Hj & Hidv).
    exists vehicle. split; [by eapply list_elem_of_lookup_2|]. split; [done|].
    split; [|subst id; repeat split; reflexivity].
    cbn [cars objects app1 App.set_cars App.set_objects] in Hfleet.
    rewrite Hfleet.
    + rewrite (Hnew j vehicle Hj). simpl. by rewrite Hidv.
    + assert (NoDup (Obj.keys cars')) as Hkeys by by apply Hnodup, NoDup_nil.
      apply NoDup_fmap_2_strong; [|by apply (NoDup_fmap_1 fst)].
      intros [id1 r1] [id2 r2] H1 H2 Heq. simpl in Heq. subst r2.
      apply (obj_elem_find_NoDup _ _ _ Hkeys) in H1, H2.
      destruct (Hlisted id1 r1 H1) as (j1 & v1 & -> & Hj1 & Hv1).
      destruct (Hlisted id2 _ H2) as (j2 & v2 & Hr & Hj2 & Hv2).
      assert (j1 = j2) as -> by lia. congruence.
    + apply list_elem_of_fmap. exists (id, (length (objects app) + j)%nat).
      split; [done|]. by apply obj_find_Some_elem.
  - rewrite Hupd. cbn [App.self App.world App.completion cars objects app1
                         App.set_cars App.set_objects]. intros Hid.
    destruct (Hlisted id ref Hid) as (j & vehicle & -> & Hj & Hidv).
    exists vehicle. split; [by eapply list_elem_of_lookup_2|]. split; [done|].
    split; [|subst id; repeat split; reflexivity].
    rewrite (Hnew j vehicle Hj). by rewrite Hidv.
Qed.

Lemma refreshed_garage_is_wired_afresh :
  exists vehicle,
    objects (App.self garage) !! 0%nat =
      Some (App.listen (Car.create "VIN1" (vehicle_name vehicle))).
Proof.
  destruct (refreshed_fleet_is_wired_afresh [listed "VIN1"] initialApp
              (App.mqttConnected initialApp (newWorld (always "x"))) "VIN1" 0%nat
              eq_refl) as (vehicle & _ & _ & Hobject & _).
  exists vehicle. exact Hobject.
Defined.

(** ** How often an error is announced *)

(** X19. The two [catch] handlers of a remote action both fire for a failure
    that comes after the submission was accepted: when the cloud accepted
    the command and the action then rejects, for want of a service id or in
    polling, 'voc_api_error' is emitted twice in a row with the same reason.
    A submission the cloud rejects is announced once. *)
Theorem rejection_after_submission_is_announced_twice action vid submit w :
  match submit w, VOC.invoke action vid submit w with
  | (Resolved status, _), (Rejected reason, w') =>
      prop status "customerServiceId" <> None ->
      exists earlier,
        emitted w' = earlier ++ [(apiErrorEventName, VStr reason);
                                 (apiErrorEventName, VStr reason)]
  | (Rejected _, w1), (Rejected reason, w') =>
      emitted w' = emitted w1 ++ [(apiErrorEventName, VStr reason)]
  | _, _ => True
  end.
Proof.
  destruct (submit w) as [[status|reason] w1] eqn:Hsubmit.
  - destruct (prop status "customerServiceId") as [sid|] eqn:Hsid.
    + rewrite (invoke_submitted _ _ _ _ _ _ _ Hsubmit Hsid).
      destruct (awaitSuccessfulServiceInvocation vid sid w1) as [[b|r] w2]; [done|].
      intros _. exists (emitted w2). cbn [emitted set_emitted].
      by rewrite <- app_assoc.
    + unfold VOC.invoke, VOC.reportError, catch, andThen, read.
      rewrite Hsubmit, Hsid. simpl. done.
  - unfold VOC.invoke, VOC.reportError, catch, andThen.
    rewrite Hsubmit. done.
Qed.
